(** * Verification of three CGAL components

    - [PointInside]: the point-in-polyhedron test of
      [CGAL/internal/Operations_on_polyhedra/Point_inside_vertical_ray_cast.h];
    - [Evaluation]: the confusion-matrix scorer of
      [CGAL/Classification/Evaluation.h];
    - [ReadLas]: the LAS reader of the Polyhedron demo,
      [read_las_point_set.h].

    Every definition is a shallow embedding of the C++ function of the same
    name.  A coordinate is identified with its value, a rational ([Q]);
    arithmetic on coordinates is that of [double], the IEEE-754 binary64
    format of [SpecFloat]; [std::size_t] is a [Z] with its wrap-around modulo
    [2^64] written out; [float] is the binary32 format of [SpecFloat]; a
    vector access outside its bounds ends a computation with
    [Out_of_bounds]. *)

From Stdlib Require Import ZArith QArith Qpower Lqa Lia Bool List.
From Stdlib Require Import Floats.SpecFloat.
From stdpp Require Import base option list gmap strings.

(* ===================================================================== *)
(** * Point inside a polyhedron by ray casting                            *)
(* ===================================================================== *)

Module PointInside.

Local Open Scope Q_scope.

(** [CGAL::Bounded_side]. *)
Inductive Bounded_side : Set :=
  | ON_UNBOUNDED_SIDE
  | ON_BOUNDARY
  | ON_BOUNDED_SIDE.

(** [boost::logic::tribool]. *)
Inductive tribool : Set :=
  | tb_false
  | tb_true
  | tb_indeterminate.

Definition indeterminate (t : tribool) : bool :=
  match t with tb_indeterminate => true | _ => false end.

(** [Kernel::Point_3], [Kernel::Vector_3], [Kernel::Ray_3] and the bounding
    box of the tree.  A coordinate is given by its value. *)
Record Point : Set := mkPoint { px : Q; py : Q; pz : Q }.
Record Vector : Set := mkVector { vx : Q; vy : Q; vz : Q }.
Record Ray : Set := mkRay { source : Point; direction : Vector }.
Record Bounding_box : Set := mkBbox
  { xmin : Q; ymin : Q; zmin : Q; xmax : Q; ymax : Q; zmax : Q }.

(** The strict comparison [a < b] of two coordinates, as a boolean: a
    comparison compares the values and does not round. *)
Definition Qltb (a b : Q) : bool := negb (Qle_bool b a).

Lemma Qltb_lt a b : Qltb a b = true <-> a < b.
Proof.
  unfold Qltb. rewrite negb_true_iff.
  destruct (Qle_bool b a) eqn:E.
  - apply Qle_bool_iff in E. split; [discriminate | intros H].
    exfalso. exact (Qlt_not_le _ _ H E).
  - split; [intros _ | reflexivity].
    apply Qnot_le_lt. intros H. apply Qle_bool_iff in H. congruence.
Qed.

Lemma Qltb_ge a b : Qltb a b = false <-> b <= a.
Proof.
  unfold Qltb. rewrite negb_false_iff. apply Qle_bool_iff.
Qed.

(** ** The arithmetic of the coordinates

    The coordinates are [double]s: IEEE-754 binary64, 53 bits of precision
    and exponents below 1024, rounding to nearest even.  Sums and products
    of coordinates are those of [SpecFloat]. *)
Definition double : Set := spec_float.
Definition double_of_int (n : Z) : double := binary_normalize 53 1024 n 0 false.
Definition double_add : double -> double -> double := SFadd 53 1024.
Definition double_mul : double -> double -> double := SFmul 53 1024.
Definition double_lt : double -> double -> bool := SFltb.

(** The [double] of a coordinate: for a value [n / 2^k] the rounding of
    [n * 2^(-k)], which is exact when the value is a [double]. *)
Definition to_double (q : Q) : double :=
  let r := Qred q in
  binary_normalize 53 1024 (Qnum r) (- Z.log2 (Z.pos (Qden r))) false.

(** The value of a finite [double]. *)
Definition value (d : double) : Q :=
  match d with
  | S754_finite s m e => inject_Z (cond_Zopp s (Z.pos m)) * 2 ^ e
  | _ => 0
  end.

(** The value [q] is that of a [double]. *)
Definition is_double (q : Q) : Prop := value (to_double q) == q.

(** [Kernel().construct_ray_3_object()] and the two overloads of
    [Kernel().construct_vector_3_object()] used by the test. *)
Definition ray_functor (p : Point) (v : Vector) : Ray := mkRay p v.
Definition vector_functor (dx dy dz : Z) : Vector :=
  mkVector (inject_Z dx) (inject_Z dy) (inject_Z dz).
Definition vector_functor_origin (p : Point) : Vector :=
  mkVector (px p) (py p) (pz p).

(** [const static unsigned int seed = 1340818006;] *)
Definition seed : Z := 1340818006%Z.

(** One call of [tree.traversal]: which instantiation of the traversal
    traits was used ([ray_is_vertical]) and the ray that was cast. *)
Definition call : Set := (bool * Ray)%type.

(** What a run of [operator()] did: the traversals it performed, in order,
    and the value it returned ([None]: the retry loop was still running
    when the iteration budget of the model ran out). *)
Record run : Set := mkRun { calls : list call; returned : option Bounded_side }.

(** ** A concrete tree and generator

    Used to evaluate the definitions: the tree is identified with its
    bounding box; the generator cycles through the three unit points of the
    coordinate axes; the traversal is indeterminate for vertical rays and for
    rays along the x axis, and otherwise counts one crossing. *)
Definition demo_tree : Type := Bounding_box.
Definition demo_bbox (t : demo_tree) : Bounding_box := t.

Definition demo_generator : Type := (Z * nat)%type.
Definition demo_sphere (s : Z) : demo_generator := (s, O).
Definition demo_next (g : demo_generator) : Point * demo_generator :=
  (match (snd g mod 3)%nat with
   | O => mkPoint 1 0 0
   | S O => mkPoint 0 1 0
   | _ => mkPoint 0 0 1
   end, (fst g, S (snd g))).

Definition demo_traversal (ray_is_vertical : bool) (r : Ray)
    (t : demo_tree) : tribool * Z :=
  if ray_is_vertical then (tb_indeterminate, 0%Z)
  else if Qeq_bool (vx (direction r)) 1 then (tb_indeterminate, 0%Z)
  else (tb_true, 1%Z).

Definition unit_cube : demo_tree :=
  mkBbox (-1 # 2) (-1 # 2) (-1 # 2) (1 # 2) (1 # 2) (1 # 2).

Section Test.

(** The AABB tree and the traversal with [Ray_3_Triangle_3_traversal_traits]
    belong to other headers: the tree is an abstract type, [traversal b r t]
    is the value of [status] after [tree.traversal(ray, traversal_traits)]
    with [Boolean_tag<b>]. *)
Variable AABBTree : Type.
Variable bbox : AABBTree -> Bounding_box.
Variable traversal : bool -> Ray -> AABBTree -> tribool * Z.

(** [CGAL::Random] and [Random_points_on_sphere_3<Point>] belong to other
    headers: [Generator] is the state of the point generator,
    [Random_points_on_sphere_3 1 (Random s)] the generator built from a
    [CGAL::Random] seeded with [s], and [next g] is [*g++]: the current point
    and the advanced generator. *)
Variable Generator : Type.
Variable Random_points_on_sphere_3 : Z -> Generator.
Variable next : Generator -> Point * Generator.

Definition is_inside_ray_tree_traversal
    (ray_is_vertical : bool) (ray : Ray) (tree : AABBTree)
    : option Bounded_side :=
  let status := traversal ray_is_vertical ray tree in
  if negb (indeterminate (fst status)) then
    match fst status with
    | tb_true =>
        Some (if (Z.land (snd status) 1 =? 1)%Z
              then ON_BOUNDED_SIDE else ON_UNBOUNDED_SIDE)
    | _ => Some ON_BOUNDARY
    end
  else None.

(** The [do ... while (!res)] loop, unrolled at most [fuel] times. *)
Fixpoint retry_loop (fuel : nat) (point : Point) (tree : AABBTree)
    (random_point : Generator) : run :=
  match fuel with
  | O => mkRun [] None
  | S fuel' =>
      let '(p, random_point') := next random_point in
      let query := ray_functor point (vector_functor_origin p) in
      match is_inside_ray_tree_traversal false query tree with
      | Some res => mkRun [(false, query)] (Some res)
      | None =>
          let r := retry_loop fuel' point tree random_point' in
          mkRun ((false, query) :: calls r) (returned r)
      end
  end.

(** The ray cast first: the test [2*point.z() < zmax()+zmin()] multiplies
    and adds [double]s. *)
Definition vertical_ray (point : Point) (tree : AABBTree) : Ray :=
  ray_functor point
    (vector_functor 0 0
       (if double_lt
             (double_mul (double_of_int 2) (to_double (pz point)))
             (double_add (to_double (zmax (bbox tree)))
                (to_double (zmin (bbox tree))))
        then (-1)%Z else 1%Z)).

(** [Bounded_side operator()(point, tree, ray_functor, vector_functor)]. *)
Definition operator_call (fuel : nat) (point : Point) (tree : AABBTree)
    : run :=
  let bb := bbox tree in
  if Qltb (px point) (xmin bb) || Qltb (xmax bb) (px point)
     || Qltb (py point) (ymin bb) || Qltb (ymax bb) (py point)
     || Qltb (pz point) (zmin bb) || Qltb (zmax bb) (pz point)
  then mkRun [] (Some ON_UNBOUNDED_SIDE)
  else
    let query := vertical_ray point tree in
    match is_inside_ray_tree_traversal true query tree with
    | Some res => mkRun [(true, query)] (Some res)
    | None =>
        let random_point := Random_points_on_sphere_3 seed in
        let r := retry_loop fuel point tree random_point in
        mkRun ((true, query) :: calls r) (returned r)
    end.

(** ** Auxiliary notions used in the statements *)

(** The generator after [k] draws, and the [k]-th point it yields. *)
Fixpoint advance (k : nat) (g : Generator) : Generator :=
  match k with
  | O => g
  | S k' => advance k' (snd (next g))
  end.

Definition nth_point (k : nat) (g : Generator) : Point :=
  fst (next (advance k g)).

(** The ray of the [k]-th retry of a loop started with generator [g], and
    what the traversal of that ray alone yields. *)
Definition retry_ray (point : Point) (g : Generator) (k : nat) : Ray :=
  ray_functor point (vector_functor_origin (nth_point k g)).

Definition attempt (point : Point) (tree : AABBTree) (g : Generator)
    (k : nat) : option Bounded_side :=
  is_inside_ray_tree_traversal false (retry_ray point g k) tree.

(** The first [n] retry traversals of a loop started with generator [g]. *)
Fixpoint retry_calls (point : Point) (g : Generator) (n : nat) : list call :=
  match n with
  | O => []
  | S n' =>
      (false, ray_functor point (vector_functor_origin (fst (next g))))
        :: retry_calls point (snd (next g)) n'
  end.

(** Retry [k] is the first one whose traversal is determinate, with
    verdict [v]. *)
Definition first_determinate (point : Point) (tree : AABBTree)
    (g : Generator) (k : nat) (v : Bounded_side) : Prop :=
  (forall j, (j < k)%nat -> attempt point tree g j = None)
  /\ attempt point tree g k = Some v.

(** The point lies in the three closed coordinate ranges of the box. *)
Definition within_box (p : Point) (bb : Bounding_box) : Prop :=
  (xmin bb <= px p /\ px p <= xmax bb)
  /\ (ymin bb <= py p /\ py p <= ymax bb)
  /\ (zmin bb <= pz p /\ pz p <= zmax bb).

(** The number [m * 2^e]. *)
Definition mag (m e : Z) : Q := inject_Z m * 2 ^ e.

(** The mantissa of the largest finite [double], [(2^53 - 1) * 2^971]. *)
Definition max_mantissa : Z := 2 ^ 53 - 1.

(** A [double] in the canonical form of the format. *)
Definition valid (f : double) : Prop := valid_binary 53 1024 f = true.

Definition finite_or_zero (f : double) : Prop :=
  match f with
  | S754_zero _ | S754_finite _ _ _ => True
  | _ => False
  end.

(** The place of a [double] on the extended line: an infinity lies beyond
    every finite [double]. *)
Definition rank (f : double) : Q :=
  match f with
  | S754_infinity s => if s then - mag 1 1024 else mag 1 1024
  | _ => value f
  end.

(** The claim "downward when the point is strictly below the midpoint of
    the box", for coordinates that are [double]s. *)
Definition downward_below_midpoint : Prop :=
  forall fuel point tree,
    within_box point (bbox tree) ->
    is_double (pz point) ->
    is_double (zmin (bbox tree)) -> is_double (zmax (bbox tree)) ->
    pz point < (zmax (bbox tree) + zmin (bbox tree)) / 2 ->
    exists rest,
      calls (operator_call fuel point tree)
      = (true, mkRay point (mkVector 0 0 (-1))) :: rest.

(** A program performing a sequence of queries with the code as written. *)
Definition run_queries (fuel : nat) (qs : list (Point * AABBTree))
    : list run :=
  map (fun q => operator_call fuel (fst q) (snd q)) qs.

(** ** The design the specification describes: one process-wide generator

    The three definitions below follow the words of the specification
    (a generator "not re-seeded per query", "process-wide, fixed-seed
    state"), not the code: the generator is threaded from one query to the
    next.  They only serve to be compared with [run_queries]. *)
Fixpoint spec_retry_loop_shared (fuel : nat) (point : Point)
    (tree : AABBTree) (g : Generator) : run * Generator :=
  match fuel with
  | O => (mkRun [] None, g)
  | S fuel' =>
      let '(p, g') := next g in
      let query := ray_functor point (vector_functor_origin p) in
      match is_inside_ray_tree_traversal false query tree with
      | Some res => (mkRun [(false, query)] (Some res), g')
      | None =>
          let '(r, g'') := spec_retry_loop_shared fuel' point tree g' in
          (mkRun ((false, query) :: calls r) (returned r), g'')
      end
  end.

Definition spec_operator_call_shared (fuel : nat) (point : Point)
    (tree : AABBTree) (g : Generator) : run * Generator :=
  let bb := bbox tree in
  if Qltb (px point) (xmin bb) || Qltb (xmax bb) (px point)
     || Qltb (py point) (ymin bb) || Qltb (ymax bb) (py point)
     || Qltb (pz point) (zmin bb) || Qltb (zmax bb) (pz point)
  then (mkRun [] (Some ON_UNBOUNDED_SIDE), g)
  else
    let query := vertical_ray point tree in
    match is_inside_ray_tree_traversal true query tree with
    | Some res => (mkRun [(true, query)] (Some res), g)
    | None =>
        let '(r, g') := spec_retry_loop_shared fuel point tree g in
        (mkRun ((true, query) :: calls r) (returned r), g')
    end.

Fixpoint spec_run_queries_shared (fuel : nat)
    (qs : list (Point * AABBTree)) (g : Generator) : list run :=
  match qs with
  | [] => []
  | q :: qs' =>
      let '(r, g') := spec_operator_call_shared fuel (fst q) (snd q) g in
      r :: spec_run_queries_shared fuel qs' g'
  end.

(** The claim "seeded once, not re-seeded per query": the program behaves
    as if every query drew from the one generator seeded at start-up. *)
Definition generator_not_reseeded_per_query : Prop :=
  forall fuel qs,
    run_queries fuel qs
    = spec_run_queries_shared fuel qs (Random_points_on_sphere_3 seed).

(** ** Properties *)

Lemma land_1_odd (n : Z) : (Z.land n 1 =? 1)%Z = Z.odd n.
Proof.
  change 1%Z with (Z.ones 1) at 1.
  rewrite Z.land_ones by lia.
  change (2 ^ 1)%Z with 2%Z.
  rewrite Zmod_odd. destruct (Z.odd n); reflexivity.
Qed.

(** C1: a determinate traversal status is mapped to the verdict: status
    [false] (the query point is on a facet) gives [ON_BOUNDARY]; status
    [true] gives [ON_BOUNDED_SIDE] when the number of crossings is odd and
    [ON_UNBOUNDED_SIDE] when it is even; an indeterminate status gives no
    verdict. *)
Theorem is_inside_ray_tree_traversal_verdict
    (ray_is_vertical : bool) (ray : Ray) (tree : AABBTree) :
  is_inside_ray_tree_traversal ray_is_vertical ray tree =
    match traversal ray_is_vertical ray tree with
    | (tb_false, _) => Some ON_BOUNDARY
    | (tb_true, crossings) =>
        Some (if Z.odd crossings then ON_BOUNDED_SIDE else ON_UNBOUNDED_SIDE)
    | (tb_indeterminate, _) => None
    end.
Proof.
  unfold is_inside_ray_tree_traversal.
  destruct (traversal ray_is_vertical ray tree) as [[ | | ] n]; simpl;
    try reflexivity.
  now rewrite land_1_odd.
Qed.

(** The test at the head of [operator()] fails exactly on the closed box. *)
Lemma gate_false_iff (point : Point) (bb : Bounding_box) :
  Qltb (px point) (xmin bb) || Qltb (xmax bb) (px point)
  || Qltb (py point) (ymin bb) || Qltb (ymax bb) (py point)
  || Qltb (pz point) (zmin bb) || Qltb (zmax bb) (pz point) = false
  <-> within_box point bb.
Proof.
  unfold within_box.
  rewrite !orb_false_iff, !Qltb_ge. tauto.
Qed.

Lemma operator_call_outside (fuel : nat) (point : Point) (tree : AABBTree) :
  ~ within_box point (bbox tree) ->
  operator_call fuel point tree = mkRun [] (Some ON_UNBOUNDED_SIDE).
Proof.
  intros Hout. unfold operator_call. cbv zeta.
  destruct (Qltb (px point) (xmin (bbox tree)) || _ || _ || _ || _ || _)
    eqn:E; [reflexivity |].
  apply gate_false_iff in E. contradiction.
Qed.

Lemma operator_call_inside (fuel : nat) (point : Point) (tree : AABBTree) :
  within_box point (bbox tree) ->
  operator_call fuel point tree =
    match is_inside_ray_tree_traversal true (vertical_ray point tree) tree with
    | Some res => mkRun [(true, vertical_ray point tree)] (Some res)
    | None =>
        let r := retry_loop fuel point tree (Random_points_on_sphere_3 seed) in
        mkRun ((true, vertical_ray point tree) :: calls r) (returned r)
    end.
Proof.
  intros Hin. apply gate_false_iff in Hin.
  unfold operator_call. cbv zeta. now rewrite Hin.
Qed.

Lemma operator_call_first_call (fuel : nat) (point : Point)
    (tree : AABBTree) :
  within_box point (bbox tree) ->
  exists rest,
    calls (operator_call fuel point tree)
    = (true, vertical_ray point tree) :: rest.
Proof.
  intros Hin. rewrite (operator_call_inside fuel _ _ Hin).
  destruct (is_inside_ray_tree_traversal true _ tree); simpl; eauto.
Qed.

(** C3: a point outside one of the three coordinate ranges of the box is
    reported [ON_UNBOUNDED_SIDE] without any traversal; the ranges are
    closed, so every point of the closed box (its faces included) passes the
    test and the vertical ray is traversed. *)
Theorem bounding_box_gate (fuel : nat) (point : Point) (tree : AABBTree) :
  (~ within_box point (bbox tree) ->
     operator_call fuel point tree = mkRun [] (Some ON_UNBOUNDED_SIDE))
  /\ (within_box point (bbox tree) ->
        exists rest,
          calls (operator_call fuel point tree)
          = (true, vertical_ray point tree) :: rest).
Proof.
  split.
  - apply operator_call_outside.
  - apply operator_call_first_call.
Qed.

(** *** The arithmetic of [double]

    [SpecFloat] defines the operations; the lemmas below relate them to the
    values: the sum of two [double]s is their exact sum rounded to a
    neighbouring [double], doubling is exact unless it overflows, and the
    comparison of two [double]s is the comparison of their values. *)

(** **** Scaled integers *)

Lemma pow2_pos (e : Z) : 0 < 2 ^ e.
Proof. apply Qpower_0_lt. reflexivity. Qed.

Lemma pow2_add (a b : Z) : 2 ^ (a + b) == 2 ^ a * 2 ^ b.
Proof. apply Qpower_plus. discriminate. Qed.

Lemma pow2_Z (k : Z) : (0 <= k)%Z -> 2 ^ k == inject_Z (2 ^ k).
Proof. intros Hk. symmetry. apply (Zpower_Qpower 2 k Hk). Qed.

Lemma mag_shift (m e k : Z) :
  (k <= e)%Z -> mag m e == mag (m * 2 ^ (e - k)) k.
Proof.
  intros Hk. unfold mag.
  replace e with ((e - k) + k)%Z at 1 by lia.
  rewrite pow2_add, pow2_Z by lia.
  rewrite inject_Z_mult. ring.
Qed.

Lemma mag_le (a b k : Z) : mag a k <= mag b k <-> (a <= b)%Z.
Proof.
  unfold mag. pose proof (pow2_pos k) as Hp. rewrite Zle_Qle. split; intros H.
  - apply Qmult_le_r in H; assumption.
  - apply Qmult_le_r; assumption.
Qed.

Lemma mag_lt (a b k : Z) : mag a k < mag b k <-> (a < b)%Z.
Proof.
  unfold mag. pose proof (pow2_pos k) as Hp. rewrite Zlt_Qlt. split; intros H.
  - apply Qmult_lt_r in H; assumption.
  - apply Qmult_lt_r; assumption.
Qed.

Lemma mag_opp (m e : Z) : mag (- m) e == - mag m e.
Proof. unfold mag. rewrite inject_Z_opp. ring. Qed.

Lemma mag_0 (e : Z) : mag 0 e == 0.
Proof. unfold mag. ring. Qed.

Lemma mag_pos (m e : Z) : (0 < m)%Z -> 0 < mag m e.
Proof.
  intros Hm. rewrite <- (mag_0 e). now apply mag_lt.
Qed.

Lemma Zpow2_pos (k : Z) : (0 <= k)%Z -> (0 < 2 ^ k)%Z.
Proof. intros. apply Z.pow_pos_nonneg; lia. Qed.

(** **** Shifts *)

Lemma iter_pos_nat {A : Type} (f : A -> A) (p : positive) :
  forall x, SpecFloat.iter_pos f p x = Nat.iter (Pos.to_nat p) f x.
Proof.
  induction p as [p IH | p IH |]; intros x; simpl SpecFloat.iter_pos.
  - rewrite !IH, Pos2Nat.inj_xI.
    replace (S (2 * Pos.to_nat p)) with (Pos.to_nat p + (Pos.to_nat p + 1))%nat
      by lia.
    rewrite !Nat.iter_add. reflexivity.
  - rewrite !IH, Pos2Nat.inj_xO.
    replace (2 * Pos.to_nat p)%nat with (Pos.to_nat p + Pos.to_nat p)%nat by lia.
    rewrite Nat.iter_add. reflexivity.
  - reflexivity.
Qed.

Lemma shr_1_nonneg (m : Z) (r s : bool) :
  (0 <= m)%Z ->
  shr_1 (Build_shr_record m r s)
  = Build_shr_record (m / 2) (Z.odd m) (r || s).
Proof.
  intros Hm. rewrite <- Z.div2_div.
  destruct m as [| [p | p |] | p]; try reflexivity; lia.
Qed.

(** [k] shifts of a mantissa drop its [k] lowest bits, and say so when one
    of them is set. *)
Lemma shr_iter (m : Z) (k : nat) :
  (0 <= m)%Z ->
  let mrs := Nat.iter k shr_1 (Build_shr_record m false false) in
  shr_m mrs = (m / 2 ^ Z.of_nat k)%Z
  /\ ((m mod 2 ^ Z.of_nat k = 0)%Z -> shr_r mrs = false /\ shr_s mrs = false).
Proof.
  intros Hm. induction k as [| k IH]; cbv zeta.
  - simpl. rewrite Z.div_1_r. auto.
  - cbv zeta in IH. destruct IH as [IHm IHl].
    rewrite Nat.iter_succ.
    destruct (Nat.iter k shr_1 _) as [mk rk sk]. simpl in IHm, IHl.
    assert (Hk : (0 < 2 ^ Z.of_nat k)%Z) by (apply Zpow2_pos; lia).
    assert (Hmk : (0 <= mk)%Z) by (subst mk; apply Z.div_pos; lia).
    rewrite shr_1_nonneg by exact Hmk. simpl.
    replace (Z.of_nat (S k)) with (Z.of_nat k + 1)%Z by lia.
    rewrite Z.pow_add_r, Z.pow_1_r by lia.
    split.
    + subst mk. rewrite Z.div_div by lia. reflexivity.
    + intros Hmod.
      rewrite Z.rem_mul_r in Hmod by lia.
      assert (H1 : (0 <= m mod 2 ^ Z.of_nat k < 2 ^ Z.of_nat k)%Z)
        by (apply Z.mod_pos_bound; lia).
      assert (H2 : (0 <= (m / 2 ^ Z.of_nat k) mod 2 < 2)%Z)
        by (apply Z.mod_pos_bound; lia).
      assert (H3 : (m mod 2 ^ Z.of_nat k = 0)%Z) by nia.
      assert (H4 : ((m / 2 ^ Z.of_nat k) mod 2 = 0)%Z) by nia.
      destruct (IHl H3) as [-> ->]. split; [| reflexivity].
      subst mk. rewrite Zmod_odd in H4.
      destruct (Z.odd (m / 2 ^ Z.of_nat k)); [discriminate | reflexivity].
Qed.

Lemma shr_exact (m e n : Z) :
  (0 <= m)%Z -> (0 <= n)%Z ->
  exists mrs,
    shr (Build_shr_record m false false) e n = (mrs, (e + n)%Z)
    /\ shr_m mrs = (m / 2 ^ n)%Z
    /\ ((m mod 2 ^ n = 0)%Z -> loc_of_shr_record mrs = loc_Exact).
Proof.
  intros Hm Hn. destruct n as [| p | p]; [| | lia].
  - eexists. split; [simpl; now rewrite Z.add_0_r |].
    simpl. rewrite Z.div_1_r. auto.
  - unfold shr. rewrite iter_pos_nat.
    pose proof (shr_iter m (Pos.to_nat p) Hm) as H. cbv zeta in H.
    rewrite positive_nat_Z in H.
    destruct H as [H1 H2]. eexists. split; [reflexivity |].
    split; [exact H1 |].
    intros Hmod. destruct (H2 Hmod) as [Hr Hs].
    destruct (Nat.iter _ _ _) as [m' r' s']. simpl in *. now subst.
Qed.

(** **** Digits *)

Lemma digits_bounds (m : Z) :
  (0 < m)%Z ->
  (0 < Zdigits2 m /\ 2 ^ (Zdigits2 m - 1) <= m < 2 ^ Zdigits2 m)%Z.
Proof.
  destruct m as [| p | p]; try lia. intros _. simpl.
  assert (E : forall q, digits2_pos q = Pos.size q)
    by (induction q; simpl; congruence).
  rewrite E. split; [lia |].
  pose proof (Pos.size_gt p) as Hgt. pose proof (Pos.size_le p) as Hle.
  apply Pos2Z.pos_lt_pos in Hgt. rewrite Pos2Z.inj_pow in Hgt.
  apply Pos2Z.pos_le_pos in Hle. rewrite Pos2Z.inj_pow in Hle.
  split; [| exact Hgt].
  replace (Z.pos (Pos.size p)) with (Z.succ (Z.pos (Pos.size p) - 1)) in Hle
    by lia.
  rewrite Z.pow_succ_r in Hle by lia. lia.
Qed.

Lemma digits_unique (m k : Z) :
  (2 ^ (k - 1) <= m < 2 ^ k)%Z -> (0 < k)%Z -> Zdigits2 m = k.
Proof.
  intros [Hlo Hhi] Hk.
  assert (Hm : (0 < m)%Z).
  { pose proof (Zpow2_pos (k - 1) ltac:(lia)). lia. }
  destruct (digits_bounds m Hm) as (Hd & Dlo & Dhi).
  destruct (Z.lt_trichotomy (Zdigits2 m) k) as [Hlt | [E | Hgt]];
    [| exact E |]; exfalso.
  - assert (2 ^ Zdigits2 m <= 2 ^ (k - 1))%Z
      by (apply Z.pow_le_mono_r; lia). lia.
  - assert (2 ^ k <= 2 ^ (Zdigits2 m - 1))%Z
      by (apply Z.pow_le_mono_r; lia). lia.
Qed.

Lemma round_nearest_even_near (m : Z) (l : location) :
  (m <= round_nearest_even m l <= m + 1)%Z
  /\ (l = loc_Exact -> round_nearest_even m l = m).
Proof.
  split; [| now intros ->].
  destruct l as [| []]; simpl; try lia. destruct (Z.even m); lia.
Qed.

Lemma fexp_eq (x : Z) : fexp 53 1024 x = Z.max (x - 53) (-1074).
Proof. reflexivity. Qed.

Lemma shr_fexp_keep (m e : Z) :
  (0 <= m)%Z -> (fexp 53 1024 (Zdigits2 m + e) <= e)%Z ->
  shr_fexp 53 1024 m e loc_Exact = (Build_shr_record m false false, e).
Proof.
  intros Hm Hk. unfold shr_fexp, shr. simpl shr_record_of_loc.
  destruct (fexp 53 1024 (Zdigits2 m + e) - e)%Z eqn:E; try reflexivity. lia.
Qed.

Lemma shr_fexp_shift (m e : Z) :
  (0 <= m)%Z -> (e <= fexp 53 1024 (Zdigits2 m + e))%Z ->
  exists mrs,
    shr_fexp 53 1024 m e loc_Exact = (mrs, fexp 53 1024 (Zdigits2 m + e))
    /\ shr_m mrs = (m / 2 ^ (fexp 53 1024 (Zdigits2 m + e) - e))%Z
    /\ ((m mod 2 ^ (fexp 53 1024 (Zdigits2 m + e) - e) = 0)%Z ->
        loc_of_shr_record mrs = loc_Exact).
Proof.
  intros Hm Hk. unfold shr_fexp. simpl shr_record_of_loc.
  destruct (shr_exact m e (fexp 53 1024 (Zdigits2 m + e) - e) Hm ltac:(lia))
    as (mrs & E & H1 & H2).
  exists mrs. rewrite E. split; [f_equal; lia | auto].
Qed.

Lemma mag_pow (k e : Z) : (0 <= k)%Z -> mag (2 ^ k) e == mag 1 (k + e).
Proof.
  intros Hk. rewrite (mag_shift 1 (k + e) e) by lia.
  replace (k + e - e)%Z with k by lia. now rewrite Z.mul_1_l.
Qed.

Lemma mag_1_le (a b : Z) : (a <= b)%Z -> mag 1 a <= mag 1 b.
Proof.
  intros Hab. rewrite (mag_shift 1 b a) by lia. apply mag_le.
  pose proof (Zpow2_pos (b - a) ltac:(lia)). lia.
Qed.

Lemma mag_mono_e (m a b : Z) : (0 <= m)%Z -> (a <= b)%Z -> mag m a <= mag m b.
Proof.
  intros Hm Hab. rewrite (mag_shift m b a) by lia. apply mag_le.
  pose proof (Zpow2_pos (b - a) ltac:(lia)). nia.
Qed.

Lemma mag_digits_lower (m e : Z) :
  (0 < m)%Z -> mag 1 (Zdigits2 m - 1 + e) <= mag m e.
Proof.
  intros Hm. destruct (digits_bounds m Hm) as (Hd & Dlo & _).
  rewrite <- mag_pow by lia. now apply mag_le.
Qed.

Lemma bounded_spec (m : positive) (e : Z) :
  bounded 53 1024 m e = true <->
  fexp 53 1024 (Zdigits2 (Z.pos m) + e) = e /\ (e <= 971)%Z.
Proof.
  unfold bounded, canonical_mantissa. simpl Zdigits2.
  rewrite andb_true_iff, Z.eqb_eq, Z.leb_le. reflexivity.
Qed.

(** What rounding a positive mantissa does. *)
Lemma binary_round_aux_spec (s : bool) (m e : Z) :
  (0 < m)%Z ->
  let e1 := fexp 53 1024 (Zdigits2 m + e) in
  (e <= e1)%Z ->
  let m1 := (m / 2 ^ (e1 - e))%Z in
  exists m2,
    (m1 <= m2 <= m1 + 1)%Z
    /\ ((m mod 2 ^ (e1 - e) = 0)%Z -> m2 = m1)
    /\ ((m2 = 0%Z
         /\ binary_round_aux 53 1024 s m e loc_Exact = S754_zero s)
        \/ (exists mr er,
              binary_round_aux 53 1024 s m e loc_Exact = S754_finite s mr er
              /\ bounded 53 1024 mr er = true
              /\ mag (Z.pos mr) er == mag m2 e1
              /\ (e1 <= er)%Z)
        \/ (binary_round_aux 53 1024 s m e loc_Exact = S754_infinity s
            /\ mag max_mantissa 971 < mag m e)).
Proof.
  intros Hm e1 He m1.
  destruct (digits_bounds m Hm) as (Hd & Dlo & Dhi).
  set (d := Zdigits2 m) in *.
  set (n := (e1 - e)%Z) in *.
  assert (Hn : (0 <= n)%Z) by (unfold n; lia).
  assert (Hpn : (0 < 2 ^ n)%Z) by now apply Zpow2_pos.
  assert (He1 : e1 = Z.max (d + e - 53) (-1074)) by reflexivity.
  (* the floor *)
  assert (Hfloor : (m1 * 2 ^ n <= m < (m1 + 1) * 2 ^ n)%Z).
  { unfold m1. pose proof (Z.div_mod m (2 ^ n) ltac:(lia)) as Hdm.
    pose proof (Z.mod_pos_bound m (2 ^ n) Hpn). nia. }
  assert (Hm1 : (0 <= m1)%Z) by (unfold m1; apply Z.div_pos; lia).
  unfold binary_round_aux.
  destruct (shr_fexp_shift m e ltac:(lia) He) as (mrs1 & -> & Hs1 & Hl1).
  fold d e1 n in Hs1, Hl1.
  destruct (round_nearest_even_near (shr_m mrs1) (loc_of_shr_record mrs1))
    as [Hnear Hexact].
  set (m2 := round_nearest_even (shr_m mrs1) (loc_of_shr_record mrs1)) in *.
  fold d e1. rewrite Hs1 in Hnear, Hexact. fold m1 in Hnear, Hexact.
  exists m2. split; [exact Hnear |]. split; [intros H; now apply Hexact, Hl1 |].
  destruct (Z.eq_dec m2 0%Z) as [E0 | Hne].
  { left. split; [exact E0 |]. rewrite E0.
    rewrite shr_fexp_keep;
      [reflexivity | lia
      | change (Zdigits2 0 + e1)%Z with e1; rewrite fexp_eq; lia]. }
  right.
  assert (Hm2 : (0 < m2)%Z) by lia.
  destruct (digits_bounds m2 Hm2) as (Hd2 & D2lo & D2hi).
  (* the digits of [m2] *)
  assert (Hcases :
    (fexp 53 1024 (Zdigits2 m2 + e1) = e1)
    \/ (fexp 53 1024 (Zdigits2 m2 + e1) = e1 + 1 /\ m2 = 2 ^ 53
        /\ m1 = 2 ^ 53 - 1 /\ -1074 <= e1)%Z).
  { destruct (Z_le_gt_dec d n) as [Hdn | Hdn].
    - (* everything was shifted out *)
      assert (m1 = 0)%Z.
      { unfold m1. apply Z.div_small. split; [lia |].
        assert (2 ^ d <= 2 ^ n)%Z by (apply Z.pow_le_mono_r; lia). lia. }
      assert (E2 : (m2 = 1)%Z) by lia.
      left. rewrite E2. change (Zdigits2 1) with 1%Z.
      rewrite fexp_eq. unfold n in Hdn. lia.
    - assert (Hlo1 : (2 ^ (d - n - 1) <= m1)%Z).
      { unfold m1. apply Z.div_le_lower_bound; [lia |].
        rewrite <- Z.pow_add_r by lia.
        replace (n + (d - n - 1))%Z with (d - 1)%Z by lia. exact Dlo. }
      assert (Hhi1 : (m1 < 2 ^ (d - n))%Z).
      { unfold m1. apply Z.div_lt_upper_bound; [lia |].
        rewrite <- Z.pow_add_r by lia.
        replace (n + (d - n))%Z with d by lia. exact Dhi. }
      destruct (Z_lt_le_dec m2 (2 ^ (d - n))) as [Hlt | Hge].
      + left.
        rewrite (digits_unique m2 (d - n) ltac:(lia) ltac:(lia)).
        unfold n. rewrite fexp_eq. lia.
      + assert (E2 : m2 = (2 ^ (d - n))%Z) by lia.
        assert (Ed2 : Zdigits2 m2 = (d - n + 1)%Z).
        { apply digits_unique; [| lia]. rewrite E2.
          replace (d - n + 1 - 1)%Z with (d - n)%Z by lia.
          split; [lia |]. apply Z.pow_lt_mono_r; lia. }
        rewrite Ed2. rewrite fexp_eq.
        destruct (Z_le_gt_dec (d + e - 52) (-1074)) as [Hsub | Hnorm].
        * left. unfold n. lia.
        * right. split; [unfold n; lia |].
          assert (Hdn53 : (d - n = 53)%Z) by (unfold n; lia).
          rewrite Hdn53 in E2, Hhi1. lia. }
  destruct Hcases as [Hcan | (Hcarry & E2 & E1 & Hemin)].
  - (* no second shift *)
    rewrite shr_fexp_keep by lia. simpl shr_m.
    destruct m2 as [| p2 | p2]; try lia.
    destruct (e1 <=? 1024 - 53)%Z eqn:Eb.
    + left. exists p2, e1. split; [reflexivity |].
      split; [apply bounded_spec; split; [exact Hcan | apply Z.leb_le; exact Eb] |].
      split; [reflexivity | lia].
    + right. split; [reflexivity |].
      apply Z.leb_gt in Eb.
      (* [e1 > 971]: the number is at least [2^1024] *)
      apply Qlt_le_trans with (mag (2 ^ 53) 971).
      * apply mag_lt. unfold max_mantissa. lia.
      * rewrite mag_pow by lia.
        apply Qle_trans with (mag 1 (Zdigits2 m - 1 + e)).
        -- apply mag_1_le. fold d. lia.
        -- now apply mag_digits_lower.
  - (* the mantissa was rounded up to [2^53] *)
    destruct (shr_fexp_shift m2 e1 ltac:(lia) ltac:(lia))
      as (mrs2 & -> & Hs2 & _).
    rewrite Hcarry in Hs2 |- *.
    replace (e1 + 1 - e1)%Z with 1%Z in Hs2 by lia.
    rewrite E2 in Hs2. change (2 ^ 53 / 2 ^ 1)%Z with (Z.pos (2 ^ 52)) in Hs2.
    rewrite Hs2.
    destruct (e1 + 1 <=? 1024 - 53)%Z eqn:Eb.
    + left. exists (2 ^ 52)%positive, (e1 + 1)%Z. split; [reflexivity |].
      apply Z.leb_le in Eb.
      split.
      { apply bounded_spec. split; [| lia].
        change (Zdigits2 (Z.pos (2 ^ 52))) with 53%Z. rewrite fexp_eq. lia. }
      split; [| lia].
      rewrite (mag_shift (Z.pos (2 ^ 52)) (e1 + 1) e1) by lia.
      replace (e1 + 1 - e1)%Z with 1%Z by lia. rewrite E2. reflexivity.
    + right. split; [reflexivity |].
      apply Z.leb_gt in Eb.
      assert (Hinexact : (m1 * 2 ^ n < m)%Z).
      { destruct (Z.eq_dec (m mod 2 ^ n)%Z 0%Z) as [Ez | Hnz].
        - assert (m2 = m1) by now apply Hexact, Hl1. lia.
        - pose proof (Z.div_mod m (2 ^ n) ltac:(lia)) as Hdm.
          pose proof (Z.mod_pos_bound m (2 ^ n) Hpn). fold m1 in Hdm. nia. }
      apply Qle_lt_trans with (mag m1 e1).
      * rewrite E1. apply mag_mono_e; [unfold max_mantissa |]; lia.
      * rewrite (mag_shift m1 e1 e) by lia. fold n. now apply mag_lt.
Qed.

(** **** Valid floats *)

Lemma bounded_range (mt : positive) (et : Z) :
  bounded 53 1024 mt et = true ->
  (-1074 <= et <= 971 /\ Z.pos mt < 2 ^ 53
   /\ (-1074 < et -> 2 ^ 52 <= Z.pos mt))%Z.
Proof.
  intros Hb. apply bounded_spec in Hb as [Hc He].
  destruct (digits_bounds (Z.pos mt) ltac:(lia)) as (Hd & Dlo & Dhi).
  rewrite fexp_eq in Hc.
  set (dt := Zdigits2 (Z.pos mt)) in *.
  split; [lia |]. split.
  - assert (2 ^ dt <= 2 ^ 53)%Z by (apply Z.pow_le_mono_r; lia). lia.
  - intros Hn. assert (dt = 53%Z) by lia.
    replace (dt - 1)%Z with 52%Z in Dlo by lia. exact Dlo.
Qed.

Lemma bounded_le_max (mt : positive) (et : Z) :
  bounded 53 1024 mt et = true ->
  mag (Z.pos mt) et <= mag max_mantissa 971.
Proof.
  intros Hb. destruct (bounded_range mt et Hb) as (He & Hm & _).
  apply Qle_trans with (mag (Z.pos mt) 971).
  - apply mag_mono_e; lia.
  - apply mag_le. unfold max_mantissa. lia.
Qed.

(** No [double] lies strictly between two neighbours of the grid on which
    a number is rounded. *)
Lemma no_double_between (m e : Z) (mt : positive) (et : Z) :
  (0 < m)%Z ->
  let e1 := fexp 53 1024 (Zdigits2 m + e) in
  (e <= e1)%Z ->
  let m1 := (m / 2 ^ (e1 - e))%Z in
  bounded 53 1024 mt et = true ->
  mag (Z.pos mt) et <= mag m1 e1 \/ mag (m1 + 1) e1 <= mag (Z.pos mt) et.
Proof.
  intros Hm e1 He m1 Hb.
  destruct (bounded_range mt et Hb) as (Het & Hmt & _).
  destruct (digits_bounds m Hm) as (Hd & Dlo & Dhi).
  set (d := Zdigits2 m) in *.
  assert (He1 : e1 = Z.max (d + e - 53) (-1074)) by reflexivity.
  destruct (Z_le_gt_dec e1 et) as [Hge | Hlt].
  - (* a multiple of the step *)
    rewrite (mag_shift (Z.pos mt) et e1) by lia.
    destruct (Z_le_gt_dec (Z.pos mt * 2 ^ (et - e1)) m1) as [H | H].
    + left. now apply mag_le.
    + right. apply mag_le. lia.
  - (* a smaller binade *)
    left. rewrite (mag_shift m1 e1 et) by lia. apply mag_le.
    assert (Hn : (e1 - e = d - 53)%Z) by lia.
    assert (Hlo1 : (2 ^ 52 <= m1)%Z).
    { unfold m1. rewrite Hn. apply Z.div_le_lower_bound.
      - apply Zpow2_pos. lia.
      - rewrite <- Z.pow_add_r by lia.
        replace (d - 53 + 52)%Z with (d - 1)%Z by lia. exact Dlo. }
    assert (Hp : (2 <= 2 ^ (e1 - et))%Z).
    { change 2%Z with (2 ^ 1)%Z at 1. apply Z.pow_le_mono_r; lia. }
    change (2 ^ 53)%Z with (2 ^ 52 * 2)%Z in Hmt. nia.
Qed.

Lemma mag_add (a b e : Z) : mag a e + mag b e == mag (a + b) e.
Proof. unfold mag. rewrite inject_Z_plus. ring. Qed.

(** **** Rounding to nearest *)

(** What [binary_round_aux] returns for a positive mantissa: zero for a
    number below every positive [double], infinity for a number above every
    finite one, and otherwise a [double] that no other [double] separates
    from the number. *)
Lemma round_mag (s : bool) (m e : Z) :
  (0 < m)%Z -> (e <= fexp 53 1024 (Zdigits2 m + e))%Z ->
  let r := binary_round_aux 53 1024 s m e loc_Exact in
  (r = S754_zero s
   /\ forall mt et, bounded 53 1024 mt et = true ->
        mag m e < mag (Z.pos mt) et)
  \/ (exists mr er,
        r = S754_finite s mr er
        /\ bounded 53 1024 mr er = true
        /\ (forall mt et, bounded 53 1024 mt et = true ->
              (mag (Z.pos mt) et <= mag m e ->
               mag (Z.pos mt) et <= mag (Z.pos mr) er)
              /\ (mag m e <= mag (Z.pos mt) et ->
                  mag (Z.pos mr) er <= mag (Z.pos mt) et))
        /\ ((m mod 2 ^ (fexp 53 1024 (Zdigits2 m + e) - e) = 0)%Z ->
            mag (Z.pos mr) er == mag m e)
        /\ mag m e < mag 1 1024)
  \/ (r = S754_infinity s /\ mag max_mantissa 971 < mag m e).
Proof.
  intros Hm He. cbv zeta.
  destruct (binary_round_aux_spec s m e Hm He) as (m2 & Hnear & Hexact & Hr).
  set (e1 := fexp 53 1024 (Zdigits2 m + e)) in *.
  set (n := (e1 - e)%Z) in *.
  set (m1 := (m / 2 ^ n)%Z) in *.
  assert (Hn : (0 <= n)%Z) by (unfold n; lia).
  assert (Hpn : (0 < 2 ^ n)%Z) by now apply Zpow2_pos.
  assert (Hdm : (m = 2 ^ n * m1 + m mod 2 ^ n)%Z)
    by (apply Z.div_mod; lia).
  pose proof (Z.mod_pos_bound m (2 ^ n) Hpn) as Hmod.
  assert (Hlo : mag m1 e1 <= mag m e).
  { rewrite (mag_shift m1 e1 e) by lia. fold n. apply mag_le. nia. }
  assert (Hhi : mag m e < mag (m1 + 1) e1).
  { rewrite (mag_shift (m1 + 1) e1 e) by lia. fold n. apply mag_lt. nia. }
  assert (Hex : (m mod 2 ^ n = 0)%Z -> mag m1 e1 == mag m e).
  { intros E. rewrite (mag_shift m1 e1 e) by lia. fold n.
    replace (m1 * 2 ^ n)%Z with m by lia. reflexivity. }
  assert (H12 : mag m1 e1 <= mag m2 e1) by (apply mag_le; lia).
  assert (H21 : mag m2 e1 <= mag (m1 + 1) e1) by (apply mag_le; lia).
  assert (Hbetween : forall mt et, bounded 53 1024 mt et = true ->
            (mag (Z.pos mt) et <= mag m e ->
             mag (Z.pos mt) et <= mag m2 e1)
            /\ (mag m e <= mag (Z.pos mt) et ->
                mag m2 e1 <= mag (Z.pos mt) et)).
  { intros mt et Hb.
    destruct (no_double_between m e mt et Hm He Hb) as [Hg | Hg];
      fold e1 n m1 in Hg.
    - split; intros H; [lra |].
      assert (Emag : mag m1 e1 == mag m e) by lra.
      assert (Ez : (m mod 2 ^ n = 0)%Z).
      { rewrite (mag_shift m1 e1 e) in Emag by lia. fold n in Emag.
        assert (m1 * 2 ^ n <= m)%Z by nia.
        assert (m <= m1 * 2 ^ n)%Z
          by (apply (mag_le _ _ e); rewrite Emag; apply Qle_refl).
        lia. }
      rewrite (Hexact Ez). lra.
    - split; intros H; lra. }
  destruct Hr as [[E0 ->] | [(mr & er & -> & Hb & Hv & Her) | [-> Hinf]]].
  - left. split; [reflexivity |]. intros mt et Hb.
    destruct (Hbetween mt et Hb) as [H1 _].
    destruct (Qlt_le_dec (mag m e) (mag (Z.pos mt) et)) as [|Hle];
      [assumption |].
    specialize (H1 Hle). rewrite E0, mag_0 in H1.
    pose proof (mag_pos (Z.pos mt) et ltac:(lia)). lra.
  - right; left. exists mr, er. split; [reflexivity |]. split; [exact Hb |].
    split; [| split].
    + intros mt et Hbt. rewrite Hv. now apply Hbetween.
    + intros Ez. rewrite Hv, (Hexact Ez). now apply Hex.
    + pose proof (bounded_le_max mr er Hb) as Hmax.
      destruct (bounded_range mr er Hb) as (Hr1 & _).
      assert (mag (m1 + 1) e1 <= mag m2 e1 + mag 1 e1).
      { unfold mag. rewrite inject_Z_plus.
        assert (inject_Z m1 <= inject_Z m2) by (rewrite <- Zle_Qle; lia).
        pose proof (pow2_pos e1). nra. }
      assert (mag 1 e1 <= mag 1 971) by (apply mag_1_le; lia).
      assert (mag max_mantissa 971 + mag 1 971 == mag 1 1024).
      { rewrite mag_add. change (max_mantissa + 1)%Z with (2 ^ 53)%Z.
        now rewrite mag_pow by lia. }
      lra.
  - right; right. split; [reflexivity | exact Hinf].
Qed.

Lemma value_finite (s : bool) (m : positive) (e : Z) :
  value (S754_finite s m e)
  == if s then - mag (Z.pos m) e else mag (Z.pos m) e.
Proof.
  unfold value. fold (mag (cond_Zopp s (Z.pos m)) e).
  destruct s; simpl cond_Zopp; [| reflexivity].
  change (Z.neg m) with (- Z.pos m)%Z. apply mag_opp.
Qed.

Lemma max_lt_pow : mag max_mantissa 971 < mag 1 1024.
Proof.
  rewrite <- (mag_pow 53 971) by lia. apply mag_lt. unfold max_mantissa. lia.
Qed.

Lemma valid_value_bounds (t : double) :
  valid t -> finite_or_zero t ->
  - mag max_mantissa 971 <= value t <= mag max_mantissa 971.
Proof.
  intros Hv Hf. pose proof max_lt_pow.
  assert (0 < mag max_mantissa 971) by (apply mag_pos; reflexivity).
  destruct t as [s | s | | s m e]; try contradiction.
  - simpl. lra.
  - rewrite value_finite. pose proof (bounded_le_max m e Hv).
    pose proof (mag_pos (Z.pos m) e ltac:(lia)). destruct s; lra.
Qed.

(** **** Comparison *)

Lemma bounded_lt_exponent (m1 m2 : positive) (e1 e2 : Z) :
  bounded 53 1024 m1 e1 = true -> bounded 53 1024 m2 e2 = true ->
  (e1 < e2)%Z -> mag (Z.pos m1) e1 < mag (Z.pos m2) e2.
Proof.
  intros H1 H2 He.
  destruct (bounded_range m1 e1 H1) as (He1 & Hm1 & _).
  destruct (bounded_range m2 e2 H2) as (He2 & _ & Hm2).
  apply Qlt_le_trans with (mag (2 ^ 53) e1); [apply mag_lt; lia |].
  apply Qle_trans with (mag (2 ^ 52) e2); [| apply mag_le; lia].
  rewrite !mag_pow by lia. apply mag_1_le. lia.
Qed.

Lemma rank_finite (s : bool) (m : positive) (e : Z) :
  rank (S754_finite s m e)
  == if s then - mag (Z.pos m) e else mag (Z.pos m) e.
Proof. apply value_finite. Qed.

Lemma valid_rank_bounds (f : double) :
  valid f -> finite_or_zero f -> - mag 1 1024 < rank f < mag 1 1024.
Proof.
  intros Hv Hf. pose proof (valid_value_bounds f Hv Hf).
  pose proof max_lt_pow.
  destruct f; try contradiction; unfold rank; lra.
Qed.

Lemma SFltb_rank (t r : double) :
  valid t -> valid r -> SFltb t r = true -> rank t < rank r.
Proof.
  intros Ht Hr. unfold SFltb.
  assert (Hpow : 0 < mag 1 1024) by (apply mag_pos; lia).
  destruct t as [s1 | s1 | | s1 m1 e1], r as [s2 | s2 | | s2 m2 e2];
    simpl SFcompare; try discriminate.
  - destruct s2; [discriminate |]. intros _.
    change (0 < mag 1 1024). exact Hpow.
  - destruct s2; [discriminate |]. intros _.
    change (rank (S754_zero s1)) with 0. rewrite rank_finite.
    apply mag_pos. lia.
  - destruct s1; [| discriminate]. intros _.
    change (- mag 1 1024 < 0). lra.
  - destruct s1, s2; try discriminate. intros _.
    change (- mag 1 1024 < mag 1 1024). lra.
  - destruct s1; [| discriminate]. intros _.
    pose proof (valid_rank_bounds (S754_finite s2 m2 e2) Hr I).
    change (rank (S754_infinity true)) with (- mag 1 1024). lra.
  - destruct s1; [| discriminate]. intros _.
    change (rank (S754_zero s2)) with 0. rewrite rank_finite.
    pose proof (mag_pos (Z.pos m1) e1 ltac:(lia)). lra.
  - destruct s2; [discriminate |]. intros _.
    pose proof (valid_rank_bounds (S754_finite s1 m1 e1) Ht I).
    change (rank (S754_infinity false)) with (mag 1 1024). lra.
  - rewrite !rank_finite.
    pose proof (mag_pos (Z.pos m1) e1 ltac:(lia)).
    pose proof (mag_pos (Z.pos m2) e2 ltac:(lia)).
    destruct s1, s2; try discriminate.
    + destruct (Z.compare_spec e1 e2) as [E | Hlt | Hgt]; try discriminate.
      * subst e2. intros Hc.
        change (Pos.compare_cont Eq m1 m2) with (m1 ?= m2)%positive in Hc.
        destruct (Pos.compare_spec m1 m2) as [E | Hlt | Hgt];
          try discriminate.
        assert (mag (Z.pos m2) e1 < mag (Z.pos m1) e1)
          by (apply mag_lt; simpl in Hgt; lia).
        lra.
      * intros _.
        pose proof (bounded_lt_exponent m2 m1 e2 e1 Hr Ht Hgt). lra.
    + intros _. lra.
    + destruct (Z.compare_spec e1 e2) as [E | Hlt | Hgt]; try discriminate.
      * subst e2. intros Hc.
        change (Pos.compare_cont Eq m1 m2) with (m1 ?= m2)%positive in Hc.
        destruct (Pos.compare_spec m1 m2) as [E | Hlt | Hgt];
          try discriminate.
        apply mag_lt. simpl in Hlt. lia.
      * intros _. now apply bounded_lt_exponent.
Qed.

Lemma SFltb_false_rank (t r : double) :
  valid t -> valid r -> t <> S754_nan -> r <> S754_nan ->
  SFltb t r = false -> rank r <= rank t.
Proof.
  intros Ht Hr Nt Nr. unfold SFltb.
  assert (Hpow : 0 < mag 1 1024) by (apply mag_pos; lia).
  destruct t as [s1 | s1 | | s1 m1 e1], r as [s2 | s2 | | s2 m2 e2];
    try contradiction; simpl SFcompare.
  - intros _. change (0 <= 0). lra.
  - destruct s2; [| discriminate]. intros _.
    change (- mag 1 1024 <= 0). lra.
  - destruct s2; [| discriminate]. intros _.
    change (rank (S754_zero s1)) with 0. rewrite rank_finite.
    pose proof (mag_pos (Z.pos m2) e2 ltac:(lia)). lra.
  - destruct s1; [discriminate |]. intros _.
    change (0 <= mag 1 1024). lra.
  - destruct s1, s2; intros Hc; try discriminate Hc.
    + change (- mag 1 1024 <= - mag 1 1024). lra.
    + change (- mag 1 1024 <= mag 1 1024). lra.
    + change (mag 1 1024 <= mag 1 1024). lra.
  - destruct s1; [discriminate |]. intros _.
    pose proof (valid_rank_bounds (S754_finite s2 m2 e2) Hr I).
    change (rank (S754_infinity false)) with (mag 1 1024). lra.
  - destruct s1; [discriminate |]. intros _.
    change (rank (S754_zero s2)) with 0. rewrite rank_finite.
    pose proof (mag_pos (Z.pos m1) e1 ltac:(lia)). lra.
  - destruct s2; [| discriminate]. intros _.
    pose proof (valid_rank_bounds (S754_finite s1 m1 e1) Ht I).
    change (rank (S754_infinity true)) with (- mag 1 1024). lra.
  - rewrite !rank_finite.
    pose proof (mag_pos (Z.pos m1) e1 ltac:(lia)).
    pose proof (mag_pos (Z.pos m2) e2 ltac:(lia)).
    destruct s1, s2; try discriminate.
    + destruct (Z.compare_spec e1 e2) as [E | Hlt | Hgt]; try discriminate.
      * subst e2. intros Hc.
        change (Pos.compare_cont Eq m1 m2) with (m1 ?= m2)%positive in Hc.
        destruct (Pos.compare_spec m1 m2) as [E | Hlt | Hgt];
          try discriminate.
        -- subst m2. lra.
        -- assert (mag (Z.pos m1) e1 < mag (Z.pos m2) e1)
             by (apply mag_lt; lia).
           lra.
      * intros _.
        pose proof (bounded_lt_exponent m1 m2 e1 e2 Ht Hr Hlt). lra.
    + intros _. lra.
    + destruct (Z.compare_spec e1 e2) as [E | Hlt | Hgt]; try discriminate.
      * subst e2. intros Hc.
        change (Pos.compare_cont Eq m1 m2) with (m1 ?= m2)%positive in Hc.
        destruct (Pos.compare_spec m1 m2) as [E | Hlt | Hgt];
          try discriminate.
        -- subst m2. lra.
        -- assert (mag (Z.pos m2) e1 < mag (Z.pos m1) e1)
             by (apply mag_lt; lia).
           lra.
      * intros _.
        pose proof (bounded_lt_exponent m2 m1 e2 e1 Hr Ht Hgt). lra.
Qed.

Lemma iter_xO_mul (p d : positive) :
  Z.pos (Pos.iter xO p d) = (Z.pos p * 2 ^ Z.pos d)%Z.
Proof.
  induction d as [| d IH] using Pos.peano_ind.
  - simpl. lia.
  - rewrite Pos.iter_succ, Pos2Z.inj_xO, IH, Pos2Z.inj_succ, Z.pow_succ_r
      by lia.
    lia.
Qed.

Lemma shl_align_spec (mx : positive) (ex ex' : Z) :
  Z.pos (fst (shl_align mx ex ex'))
  = (Z.pos mx * 2 ^ (ex - Z.min ex ex'))%Z
  /\ snd (shl_align mx ex ex') = Z.min ex ex'.
Proof.
  unfold shl_align. destruct (ex' - ex)%Z as [| d | d] eqn:E; simpl.
  - replace (ex - Z.min ex ex')%Z with 0%Z by lia. split; lia.
  - replace (ex - Z.min ex ex')%Z with 0%Z by lia. split; lia.
  - rewrite iter_xO_mul. split; [f_equal; f_equal; lia | lia].
Qed.

Lemma digits_shift (m k : Z) :
  (0 < m)%Z -> (0 <= k)%Z -> Zdigits2 (m * 2 ^ k) = (Zdigits2 m + k)%Z.
Proof.
  intros Hm Hk. destruct (digits_bounds m Hm) as (Hd & Dlo & Dhi).
  pose proof (Zpow2_pos k Hk) as Hp.
  apply digits_unique; [| lia]. split.
  - replace (Zdigits2 m + k - 1)%Z with ((Zdigits2 m - 1) + k)%Z by lia.
    rewrite Z.pow_add_r by lia. nia.
  - rewrite Z.pow_add_r by lia. nia.
Qed.

(** [binary_round] is [binary_round_aux] on an aligned mantissa. *)
Lemma binary_round_aligned (s : bool) (mx : positive) (ex : Z) :
  exists mz ez,
    binary_round 53 1024 s mx ex
    = binary_round_aux 53 1024 s mz ez loc_Exact
    /\ (0 < mz)%Z
    /\ (ez <= fexp 53 1024 (Zdigits2 mz + ez))%Z
    /\ mag mz ez == mag (Z.pos mx) ex.
Proof.
  unfold binary_round.
  change (Z.pos (digits2_pos mx)) with (Zdigits2 (Z.pos mx)).
  set (f := fexp 53 1024 (Zdigits2 (Z.pos mx) + ex)).
  destruct (shl_align_spec mx ex f) as [Hm He].
  destruct (shl_align mx ex f) as [mz ez]. simpl in Hm, He.
  exists (Z.pos mz), ez. split; [reflexivity |]. split; [lia |].
  assert (Hd : (Zdigits2 (Z.pos mz) + ez = Zdigits2 (Z.pos mx) + ex)%Z).
  { rewrite Hm, digits_shift by lia. lia. }
  split.
  - rewrite Hd. fold f. lia.
  - rewrite Hm. symmetry. rewrite He. apply mag_shift. lia.
Qed.

(** Rounding the number [M * 2^e]: the result is a valid [double] or an
    infinity; it is not above any [double] that is not below the number;
    and it is [-infinity] only below [-2^1024]. *)
Lemma binary_normalize_spec (M e : Z) :
  let r := binary_normalize 53 1024 M e false in
  valid r
  /\ (forall t, valid t -> finite_or_zero t ->
        (mag M e <= value t -> rank r <= value t)
        /\ (value t <= mag M e -> value t <= rank r))
  /\ (r <> S754_infinity true -> - mag 1 1024 < mag M e)
  /\ (r = S754_nan -> False)
  /\ ((M = 0)%Z -> r = S754_zero false).
Proof.
  cbv zeta.
  assert (Hpow : 0 < mag 1 1024) by (apply mag_pos; lia).
  pose proof max_lt_pow as Hmax.
  assert (Hone : bounded 53 1024 (2 ^ 52) (-52) = true) by reflexivity.
  assert (Hone' : mag (Z.pos (2 ^ 52)) (-52) <= mag 1 1024).
  { change (Z.pos (2 ^ 52)) with (2 ^ 52)%Z. rewrite mag_pow by lia.
    apply mag_1_le. lia. }
  destruct M as [| p | p]; unfold binary_normalize.
  - split; [reflexivity |]. split; [| split; [| split]].
    + intros t _ _. rewrite mag_0. change (rank (S754_zero false)) with 0.
      split; intros Hc; exact Hc.
    + intros _. rewrite mag_0. lra.
    + discriminate.
    + reflexivity.
  - destruct (binary_round_aligned false p e) as (mz & ez & -> & Hmz & Hez & Hv).
    pose proof (mag_pos (Z.pos p) e ltac:(lia)) as Hx.
    destruct (round_mag false mz ez Hmz Hez)
      as [[-> Hz] | [(mr & er & -> & Hb & Hbet & _ & _) | [-> Hinf]]];
      (split; [| split; [| split; [intros _; lra
                                  | split; [discriminate | discriminate]]]]).
    + reflexivity.
    + intros t Ht Hf. change (rank (S754_zero false)) with 0.
      split; intros Hc; [lra |].
      destruct t as [st | st | | st mt et]; try contradiction.
      * change (value (S754_zero st)) with 0. lra.
      * rewrite value_finite in *.
        pose proof (mag_pos (Z.pos mt) et ltac:(lia)).
        destruct st; [lra |].
        specialize (Hz mt et Ht). rewrite Hv in Hz. lra.
    + exact Hb.
    + intros t Ht Hf. rewrite rank_finite.
      pose proof (mag_pos (Z.pos mr) er ltac:(lia)).
      destruct t as [st | st | | st mt et]; try contradiction.
      * change (value (S754_zero st)) with 0 in *. split; intros Hc; lra.
      * rewrite value_finite in *.
        pose proof (mag_pos (Z.pos mt) et ltac:(lia)).
        destruct (Hbet mt et Ht) as [Hb1 Hb2]. rewrite Hv in Hb1, Hb2.
        destruct st; split; intros Hc; lra.
    + reflexivity.
    + intros t Ht Hf.
      pose proof (valid_value_bounds t Ht Hf). rewrite Hv in Hinf.
      change (rank (S754_infinity false)) with (mag 1 1024).
      split; intros Hc; lra.
  - destruct (binary_round_aligned true p e) as (mz & ez & -> & Hmz & Hez & Hv).
    pose proof (mag_pos (Z.pos p) e ltac:(lia)) as Hx.
    assert (Hneg : mag (Z.neg p) e == - mag (Z.pos p) e)
      by (change (Z.neg p) with (- Z.pos p)%Z; apply mag_opp).
    rewrite Hneg.
    destruct (round_mag true mz ez Hmz Hez)
      as [[-> Hz] | [(mr & er & -> & Hb & Hbet & _ & Hlt) | [-> Hinf]]];
      (split; [| split; [| split; [| split; [discriminate | discriminate]]]]).
    + reflexivity.
    + intros t Ht Hf. change (rank (S754_zero true)) with 0.
      split; intros Hc; [| lra].
      destruct t as [st | st | | st mt et]; try contradiction.
      * change (value (S754_zero st)) with 0. lra.
      * rewrite value_finite in *.
        pose proof (mag_pos (Z.pos mt) et ltac:(lia)).
        destruct st; [| lra].
        specialize (Hz mt et Ht). rewrite Hv in Hz. lra.
    + intros _. specialize (Hz _ _ Hone). rewrite Hv in Hz. lra.
    + exact Hb.
    + intros t Ht Hf. rewrite rank_finite.
      pose proof (mag_pos (Z.pos mr) er ltac:(lia)).
      destruct t as [st | st | | st mt et]; try contradiction.
      * change (value (S754_zero st)) with 0 in *. split; intros Hc; lra.
      * rewrite value_finite in *.
        pose proof (mag_pos (Z.pos mt) et ltac:(lia)).
        destruct (Hbet mt et Ht) as [Hb1 Hb2]. rewrite Hv in Hb1, Hb2.
        destruct st; split; intros Hc; lra.
    + intros _. rewrite Hv in Hlt. lra.
    + reflexivity.
    + intros t Ht Hf.
      pose proof (valid_value_bounds t Ht Hf). rewrite Hv in Hinf.
      change (rank (S754_infinity true)) with (- mag 1 1024).
      split; intros Hc; lra.
    + intros Hc. now contradiction Hc.
Qed.

Lemma value_mag (s : bool) (m : positive) (e : Z) :
  value (S754_finite s m e) = mag (cond_Zopp s (Z.pos m)) e.
Proof. reflexivity. Qed.

(** The sum of two [double]s is the rounding of their exact sum. *)
Lemma double_add_spec (a b : double) :
  valid a -> valid b -> finite_or_zero a -> finite_or_zero b ->
  valid (double_add a b)
  /\ double_add a b <> S754_nan
  /\ (forall t, valid t -> finite_or_zero t ->
        (value a + value b <= value t -> rank (double_add a b) <= value t)
        /\ (value t <= value a + value b ->
            value t <= rank (double_add a b)))
  /\ (double_add a b <> S754_infinity true ->
      - mag 1 1024 < value a + value b).
Proof.
  intros Va Vb Fa Fb.
  pose proof max_lt_pow as Hmax.
  destruct a as [sa | sa | | sa ma ea]; try contradiction;
    destruct b as [sb | sb | | sb mb eb]; try contradiction.
  - assert (E : rank (double_add (S754_zero sa) (S754_zero sb)) = 0)
      by (destruct sa, sb; reflexivity).
    split; [destruct sa, sb; reflexivity |].
    split; [destruct sa, sb; discriminate |]. rewrite E.
    change (value (S754_zero sa)) with 0. change (value (S754_zero sb)) with 0.
    split; [intros t _ _; split; intros Ht; lra |].
    intros _. pose proof (mag_pos 1 1024 ltac:(lia)). lra.
  - change (double_add (S754_zero sa) (S754_finite sb mb eb))
      with (S754_finite sb mb eb).
    change (value (S754_zero sa)) with 0.
    pose proof (valid_value_bounds _ Vb I).
    split; [exact Vb |]. split; [discriminate |].
    split; [| intros _; lra].
    intros t _ _. change (rank (S754_finite sb mb eb))
      with (value (S754_finite sb mb eb)). split; intros Ht; lra.
  - change (double_add (S754_finite sa ma ea) (S754_zero sb))
      with (S754_finite sa ma ea).
    change (value (S754_zero sb)) with 0.
    pose proof (valid_value_bounds _ Va I).
    split; [exact Va |]. split; [discriminate |].
    split; [| intros _; lra].
    intros t _ _. change (rank (S754_finite sa ma ea))
      with (value (S754_finite sa ma ea)). split; intros Ht; lra.
  - unfold double_add, SFadd.
    set (ez := Z.min ea eb).
    destruct (shl_align_spec ma ea ez) as [Ha _].
    destruct (shl_align_spec mb eb ez) as [Hb _].
    rewrite Ha, Hb.
    replace (Z.min ea ez) with ez by (unfold ez; lia).
    replace (Z.min eb ez) with ez by (unfold ez; lia).
    set (S := (cond_Zopp sa (Z.pos ma * 2 ^ (ea - ez))
               + cond_Zopp sb (Z.pos mb * 2 ^ (eb - ez)))%Z).
    assert (Hsum : mag S ez
                   == value (S754_finite sa ma ea)
                      + value (S754_finite sb mb eb)).
    { rewrite !value_mag. unfold S. rewrite <- mag_add.
      rewrite (mag_shift (cond_Zopp sa (Z.pos ma)) ea ez) by (unfold ez; lia).
      rewrite (mag_shift (cond_Zopp sb (Z.pos mb)) eb ez) by (unfold ez; lia).
      destruct sa, sb; simpl cond_Zopp;
        rewrite ?Z.mul_opp_l; reflexivity. }
    destruct (binary_normalize_spec S ez) as (Hv & Hle & Hinf & Hnan & _).
    split; [exact Hv |]. split; [exact Hnan |]. split.
    + intros t Vt Ft. destruct (Hle t Vt Ft) as [H1 H2].
      split; intros Ht; [apply H1 | apply H2]; rewrite Hsum; exact Ht.
    + intros Hn. rewrite <- Hsum. exact (Hinf Hn).
Qed.

(** Twice a [double] is exact, unless it overflows. *)
Lemma double_mul_two_spec (c : double) :
  valid c -> finite_or_zero c ->
  let t := double_mul (double_of_int 2) c in
  valid t
  /\ ((finite_or_zero t /\ value t == 2 * value c)
      \/ (t = S754_infinity false /\ mag 1 1024 <= 2 * value c)
      \/ (t = S754_infinity true /\ 2 * value c <= - mag 1 1024)).
Proof.
  intros Vc Fc. cbv zeta.
  destruct c as [sc | sc | | sc mc ec]; try contradiction.
  - split; [reflexivity |]. left. split; [exact I |].
    change (value (S754_zero sc)) with 0.
    change (value (double_mul (double_of_int 2) (S754_zero sc))) with 0.
    ring.
  - change (double_mul (double_of_int 2) (S754_finite sc mc ec))
      with (binary_round_aux 53 1024 sc (Z.pos (2 ^ 52 * mc)) (-51 + ec)
              loc_Exact).
    destruct (bounded_range mc ec Vc) as (Hec & Hmc & Hnorm).
    pose proof (proj1 (bounded_spec mc ec) Vc) as [Hcan _].
    rewrite fexp_eq in Hcan.
    assert (Em : Z.pos (2 ^ 52 * mc) = (Z.pos mc * 2 ^ 52)%Z) by lia.
    assert (Hd : Zdigits2 (Z.pos (2 ^ 52 * mc))
                 = (Zdigits2 (Z.pos mc) + 52)%Z)
      by (rewrite Em; apply digits_shift; lia).
    set (n := (fexp 53 1024 (Zdigits2 (Z.pos (2 ^ 52 * mc)) + (-51 + ec))
               - (-51 + ec))%Z).
    assert (Hn : (0 <= n <= 52)%Z).
    { unfold n. rewrite Hd, fexp_eq. lia. }
    assert (Hx : mag (Z.pos (2 ^ 52 * mc)) (-51 + ec)
                 == 2 * mag (Z.pos mc) ec).
    { rewrite Em.
      rewrite (mag_shift (Z.pos mc) ec (-51 + ec)) by lia.
      replace (ec - (-51 + ec))%Z with 51%Z by lia.
      unfold mag. rewrite !inject_Z_mult.
      change (inject_Z (2 ^ 52)) with (2 * inject_Z (2 ^ 51)). ring. }
    pose proof (mag_pos (Z.pos mc) ec ltac:(lia)) as Hpos.
    destruct (round_mag sc (Z.pos (2 ^ 52 * mc)) (-51 + ec) ltac:(lia)
                ltac:(unfold n in Hn; lia))
      as [[_ Hz] | [(mr & er & -> & Hb & _ & Hexact & _) | [-> Hinf]]].
    + exfalso. specialize (Hz mc ec Vc). rewrite Hx in Hz. lra.
    + split; [exact Hb |]. left. split; [exact I |].
      fold n in Hexact.
      assert (Hdiv : (Z.pos (2 ^ 52 * mc) mod 2 ^ n = 0)%Z).
      { rewrite Em.
        replace (2 ^ 52)%Z with (2 ^ (52 - n) * 2 ^ n)%Z
          by (rewrite <- Z.pow_add_r by lia; f_equal; lia).
        rewrite Z.mul_assoc. apply Z.mod_mul.
        pose proof (Zpow2_pos n ltac:(lia)). lia. }
      specialize (Hexact Hdiv). rewrite Hx in Hexact.
      rewrite !value_finite. destruct sc; lra.
    + split; [reflexivity |].
      assert (Hgoal : mag 1 1024 <= 2 * mag (Z.pos mc) ec);
        [| destruct sc; [right; right | right; left];
           (split; [reflexivity |]); rewrite value_finite; lra].
      rewrite Hx in Hinf.
      (* the double is at least [2^1023] *)
      assert (Hbig : mag 1 1023 <= mag (Z.pos mc) ec).
      { destruct (Z_le_gt_dec ec 970) as [Hsmall | Hlarge].
        - exfalso.
          assert (2 * mag (Z.pos mc) ec <= mag max_mantissa 971); [| lra].
          apply Qle_trans with (mag (Z.pos mc) 971).
          + rewrite (mag_shift (Z.pos mc) 971 ec) by lia.
            assert (Hp : (2 <= 2 ^ (971 - ec))%Z).
            { change 2%Z with (2 ^ 1)%Z at 1. apply Z.pow_le_mono_r; lia. }
            assert (H2 : 2 * mag (Z.pos mc) ec == mag (Z.pos mc * 2) ec)
              by (unfold mag; rewrite inject_Z_mult; ring).
            rewrite H2. apply mag_le. nia.
          + apply mag_le. unfold max_mantissa. lia.
        - assert (ec = 971%Z) by lia. subst ec.
          rewrite <- (mag_pow 52 971) by lia. apply mag_le. apply Hnorm. lia. }
      assert (H2 : mag 1 1024 == 2 * mag 1 1023).
      { rewrite (mag_shift 1 1024 1023) by lia.
        unfold mag. change (inject_Z (1 * 2 ^ (1024 - 1023))) with 2.
        change (inject_Z 1) with 1. ring. }
      lra.
Qed.

(** The [double] of a coordinate that is a [double]. *)
Lemma to_double_valid (q : Q) :
  is_double q -> valid (to_double q) /\ finite_or_zero (to_double q).
Proof.
  unfold is_double, to_double. cbv zeta. intros Hq.
  set (M := Qnum (Qred q)) in *. set (e := (- Z.log2 (Z.pos (Qden (Qred q))))%Z) in *.
  destruct (binary_normalize_spec M e) as (Hv & _ & _ & Hnan & Hzero).
  split; [exact Hv |].
  destruct (binary_normalize 53 1024 M e false) as [s | s | | s m' e'] eqn:E;
    try exact I.
  - (* an infinity has no value *)
    change (value (S754_infinity s)) with 0 in Hq.
    assert (HM : M = 0%Z).
    { unfold M. rewrite <- (Qred_complete 0 q Hq). reflexivity. }
    discriminate (Hzero HM).
  - now apply Hnan.
Qed.

Lemma rank_le_top (f : double) : valid f -> rank f <= mag 1 1024.
Proof.
  intros Hv. pose proof (mag_pos 1 1024 ltac:(lia)) as Hp.
  destruct f as [s | [|] | | s m e].
  - change (rank (S754_zero s)) with 0. lra.
  - change (rank (S754_infinity true)) with (- mag 1 1024). lra.
  - apply Qle_refl.
  - change (rank S754_nan) with 0. lra.
  - pose proof (valid_rank_bounds (S754_finite s m e) Hv I). lra.
Qed.

(** The test of the code holds only for a point strictly below the middle
    height. *)
Lemma double_test_sound (z lo hi : Q) :
  is_double z -> is_double lo -> is_double hi ->
  double_lt (double_mul (double_of_int 2) (to_double z))
    (double_add (to_double hi) (to_double lo)) = true ->
  2 * z < hi + lo.
Proof.
  intros Dz Dlo Dhi Hlt.
  destruct (to_double_valid z Dz) as [Vz Fz].
  destruct (to_double_valid lo Dlo) as [Vlo Flo].
  destruct (to_double_valid hi Dhi) as [Vhi Fhi].
  unfold is_double in Dz, Dlo, Dhi.
  destruct (double_mul_two_spec (to_double z) Vz Fz) as [Vt Ht].
  destruct (double_add_spec (to_double hi) (to_double lo) Vhi Vlo Fhi Flo)
    as (Vr & _ & Hle & Hinf).
  cbv zeta in Vt, Ht.
  set (t := double_mul (double_of_int 2) (to_double z)) in *.
  set (r := double_add (to_double hi) (to_double lo)) in *.
  pose proof (SFltb_rank t r Vt Vr Hlt) as Hrank.
  destruct (Qlt_le_dec (2 * z) (hi + lo)) as [| Hge]; [assumption |].
  exfalso.
  destruct Ht as [[Ft Et] | [[Et _] | [Et Hbig]]].
  - assert (rank t == value t) by (destruct t; try contradiction; reflexivity).
    assert (Hp : value (to_double hi) + value (to_double lo) <= value t)
      by lra.
    pose proof (proj1 (Hle t Vt Ft) Hp). lra.
  - rewrite Et in Hrank.
    change (rank (S754_infinity false)) with (mag 1 1024) in Hrank.
    pose proof (rank_le_top r Vr). lra.
  - rewrite Et in Hrank.
    change (rank (S754_infinity true)) with (- mag 1 1024) in Hrank.
    assert (Hdec : forall f : double,
              f = S754_infinity true \/ f <> S754_infinity true)
      by (intros [s | [|] | | s m e];
          (left; reflexivity) || (right; discriminate)).
    destruct (Hdec r) as [Er | Hne].
    + rewrite Er in Hrank.
      change (rank (S754_infinity true)) with (- mag 1 1024) in Hrank.
      lra.
    + specialize (Hinf Hne). lra.
Qed.

(** When the sum of the two bounds is a [double], the test of the code is
    the comparison with the middle height. *)
Lemma double_test_complete (z lo hi : Q) :
  is_double z -> is_double lo -> is_double hi -> is_double (hi + lo) ->
  2 * z < hi + lo ->
  double_lt (double_mul (double_of_int 2) (to_double z))
    (double_add (to_double hi) (to_double lo)) = true.
Proof.
  intros Dz Dlo Dhi Dsum Hlt.
  destruct (to_double_valid z Dz) as [Vz Fz].
  destruct (to_double_valid lo Dlo) as [Vlo Flo].
  destruct (to_double_valid hi Dhi) as [Vhi Fhi].
  destruct (to_double_valid (hi + lo) Dsum) as [Vs Fs].
  unfold is_double in Dz, Dlo, Dhi, Dsum.
  destruct (double_mul_two_spec (to_double z) Vz Fz) as [Vt Ht].
  destruct (double_add_spec (to_double hi) (to_double lo) Vhi Vlo Fhi Flo)
    as (Vr & Nr & Hle & _).
  cbv zeta in Vt, Ht.
  set (t := double_mul (double_of_int 2) (to_double z)) in *.
  set (r := double_add (to_double hi) (to_double lo)) in *.
  destruct (Hle (to_double (hi + lo)) Vs Fs) as [Hup Hdown].
  assert (Er : rank r == hi + lo).
  { assert (H1 : rank r <= value (to_double (hi + lo))) by (apply Hup; lra).
    assert (H2 : value (to_double (hi + lo)) <= rank r)
      by (apply Hdown; lra).
    lra. }
  pose proof (valid_value_bounds _ Vs Fs) as Hb. pose proof max_lt_pow.
  destruct (double_lt t r) eqn:E; [reflexivity | exfalso].
  assert (Nt : t <> S754_nan).
  { destruct Ht as [[Ft _] | [[-> _] | [-> _]]]; try discriminate.
    intros ->. exact Ft. }
  pose proof (SFltb_false_rank t r Vt Vr Nt Nr E) as Hrank.
  destruct Ht as [[Ft Et] | [[Et Hbig] | [Et Hbig]]].
  - assert (rank t == value t) by (destruct t; try contradiction; reflexivity).
    lra.
  - lra.
  - rewrite Et in Hrank.
    change (rank (S754_infinity true)) with (- mag 1 1024) in Hrank. lra.
Qed.

(** C4: for a point of the box whose height, like the two heights of the
    box, is a [double], the first ray is cast from the point, with the
    traits for vertical rays, in direction [(0,0,-1)] when the test
    [2*z < zmax+zmin] of the code holds in [double] arithmetic and in
    direction [(0,0,1)] otherwise.  The test holds only for a point strictly
    below the middle height of the box, so that a point at middle height or
    above is sent upward; and when the sum of the two heights of the box is
    itself a [double], the test holds for every point strictly below the
    middle height. *)
Theorem initial_ray_is_vertical (fuel : nat) (point : Point)
    (tree : AABBTree) :
  within_box point (bbox tree) ->
  is_double (pz point) ->
  is_double (zmin (bbox tree)) -> is_double (zmax (bbox tree)) ->
  let mid := (zmax (bbox tree) + zmin (bbox tree)) / 2 in
  let below :=
    double_lt (double_mul (double_of_int 2) (to_double (pz point)))
      (double_add (to_double (zmax (bbox tree)))
         (to_double (zmin (bbox tree)))) in
  (exists rest,
     calls (operator_call fuel point tree)
     = (true, mkRay point (mkVector 0 0 (if below then -1 else 1))) :: rest)
  /\ (below = true -> pz point < mid)
  /\ (mid <= pz point -> below = false)
  /\ (is_double (zmax (bbox tree) + zmin (bbox tree)) ->
      pz point < mid -> below = true).
Proof.
  intros Hin Dz Dlo Dhi mid below.
  assert (Hmid : forall z lo hi : Q, z < (hi + lo) / 2 <-> 2 * z < hi + lo).
  { intros z lo hi. split; intros H.
    - assert (E : hi + lo == ((hi + lo) / 2) * 2) by field.
      rewrite E. lra.
    - apply Qlt_shift_div_l; [reflexivity |]. lra. }
  assert (Hsound : below = true -> pz point < mid).
  { intros Hb. apply Hmid. now apply double_test_sound. }
  split; [| split; [exact Hsound | split]].
  - destruct (operator_call_first_call fuel _ _ Hin) as [rest Hrest].
    exists rest. rewrite Hrest. unfold vertical_ray. fold below.
    destruct below; reflexivity.
  - intros Hz. destruct below; [| reflexivity].
    exfalso. exact (Qlt_not_le _ _ (Hsound eq_refl) Hz).
  - intros Dsum Hz. apply double_test_complete; try assumption.
    now apply Hmid.
Qed.

(** *** The retry loop *)

Lemma attempt_succ (point : Point) (tree : AABBTree) (g : Generator)
    (k : nat) :
  attempt point tree g (S k) = attempt point tree (snd (next g)) k.
Proof. reflexivity. Qed.

Lemma first_determinate_succ (point : Point) (tree : AABBTree)
    (g : Generator) (k : nat) (v : Bounded_side) :
  first_determinate point tree g (S k) v ->
  attempt point tree g 0 = None
  /\ first_determinate point tree (snd (next g)) k v.
Proof.
  intros [Hbefore Hk]. split; [apply Hbefore; lia |].
  split; [| exact Hk].
  intros j Hj. rewrite <- attempt_succ. apply Hbefore. lia.
Qed.

Lemma retry_loop_unfold (fuel : nat) (point : Point) (tree : AABBTree)
    (g : Generator) :
  retry_loop (S fuel) point tree g =
    match attempt point tree g 0 with
    | Some res => mkRun (retry_calls point g 1) (Some res)
    | None =>
        let r := retry_loop fuel point tree (snd (next g)) in
        mkRun ((false, retry_ray point g 0) :: calls r) (returned r)
    end.
Proof.
  simpl. unfold attempt, retry_ray, nth_point. simpl.
  destruct (next g) as [p g']. reflexivity.
Qed.

(** Enough iterations reach the first determinate traversal and stop
    there. *)
Lemma retry_loop_stops (point : Point) (tree : AABBTree) (k : nat) :
  forall (fuel : nat) (g : Generator) (v : Bounded_side),
    first_determinate point tree g k v ->
    (k < fuel)%nat ->
    retry_loop fuel point tree g
    = mkRun (retry_calls point g (S k)) (Some v).
Proof.
  induction k as [| k IH]; intros fuel g v Hfirst Hlt;
    (destruct fuel as [| fuel]; [lia |]); rewrite retry_loop_unfold.
  - destruct Hfirst as [_ H0]. now rewrite H0.
  - apply first_determinate_succ in Hfirst as [H0 Hrest].
    rewrite H0. cbv zeta.
    rewrite (IH fuel _ v Hrest) by lia. reflexivity.
Qed.

(** The loop returns only from a determinate traversal. *)
Lemma retry_loop_returned (point : Point) (tree : AABBTree) (fuel : nat) :
  forall (g : Generator) (v : Bounded_side),
    returned (retry_loop fuel point tree g) = Some v ->
    exists k, (k < fuel)%nat /\ first_determinate point tree g k v.
Proof.
  induction fuel as [| fuel IH]; intros g v Hret; [discriminate |].
  rewrite retry_loop_unfold in Hret.
  destruct (attempt point tree g 0) as [res |] eqn:E0.
  - simpl in Hret. injection Hret as ->.
    exists O. split; [lia |]. split; [intros j Hj; lia | exact E0].
  - simpl in Hret. apply IH in Hret as (k & Hk & Hbefore & Hat).
    exists (S k). split; [lia |]. split.
    + intros [| j] Hj; [exact E0 |].
      rewrite attempt_succ. apply Hbefore. lia.
    + rewrite attempt_succ. exact Hat.
Qed.

(** Whatever the loop does, the rays it casts are the first points of the
    stream of its generator, in order. *)
Lemma retry_loop_calls (point : Point) (tree : AABBTree) (fuel : nat) :
  forall g : Generator,
    exists k, (k <= fuel)%nat
      /\ calls (retry_loop fuel point tree g) = retry_calls point g k.
Proof.
  induction fuel as [| fuel IH]; intros g.
  - exists O. split; [lia | reflexivity].
  - rewrite retry_loop_unfold.
    destruct (attempt point tree g 0).
    + exists 1%nat. split; [lia | reflexivity].
    + destruct (IH (snd (next g))) as (k & Hk & Hcalls).
      exists (S k). split; [lia |]. simpl. now rewrite Hcalls.
Qed.

(** C5: when the vertical traversal is indeterminate, the loop casts rays
    from the same point towards the successive points of the generator; if
    retry [k] is the first determinate one, every budget above [k] makes the
    call return after exactly [k + 1] retries, with the verdict of that last
    traversal alone; and the call returns in no other way, so that it never
    returns when no traversal is determinate. *)
Theorem retry_until_determinate (point : Point) (tree : AABBTree) :
  within_box point (bbox tree) ->
  is_inside_ray_tree_traversal true (vertical_ray point tree) tree = None ->
  let g0 := Random_points_on_sphere_3 seed in
  (forall k v,
     first_determinate point tree g0 k v ->
     forall fuel, (k < fuel)%nat ->
       operator_call fuel point tree
       = mkRun ((true, vertical_ray point tree) :: retry_calls point g0 (S k))
               (attempt point tree g0 k))
  /\ (forall fuel v,
        returned (operator_call fuel point tree) = Some v ->
        exists k, (k < fuel)%nat /\ first_determinate point tree g0 k v).
Proof.
  intros Hin Hvert g0. split.
  - intros k v Hfirst fuel Hlt.
    rewrite (operator_call_inside fuel _ _ Hin), Hvert. cbv zeta.
    fold g0. rewrite (retry_loop_stops _ _ k fuel g0 v Hfirst Hlt).
    destruct Hfirst as [_ ->]. reflexivity.
  - intros fuel v Hret.
    rewrite (operator_call_inside fuel _ _ Hin), Hvert in Hret.
    simpl in Hret. now apply retry_loop_returned.
Qed.

(** C2, as the code has it: every call that needs a retry builds its own
    generator from the constant [seed], so the retry rays of every call are
    the first points of one and the same stream, whatever was queried
    before. *)
Theorem retries_drawn_from_fixed_seed (fuel : nat) (point : Point)
    (tree : AABBTree) :
  calls (operator_call fuel point tree) = []
  \/ exists k, (k <= fuel)%nat
       /\ calls (operator_call fuel point tree)
          = (true, vertical_ray point tree)
              :: retry_calls point (Random_points_on_sphere_3 1340818006) k.
Proof.
  unfold operator_call. cbv zeta.
  destruct (Qltb (px point) (xmin (bbox tree)) || _ || _ || _ || _ || _);
    [left; reflexivity | right].
  destruct (is_inside_ray_tree_traversal true _ tree).
  - exists O. split; [lia | reflexivity].
  - destruct (retry_loop_calls point tree fuel
                (Random_points_on_sphere_3 seed)) as (k & Hk & Hcalls).
    exists k. split; [exact Hk |]. simpl. now rewrite Hcalls.
Qed.

(** *** Further properties of the test *)

(** A traversal of the log was indeterminate. *)
Definition indeterminate_call (tree : AABBTree) (c : call) : Prop :=
  is_inside_ray_tree_traversal (fst c) (snd c) tree = None.

(** A traversal of the retry loop: a ray from [point], traversed with the
    traits for arbitrary rays. *)
Definition retry_call (point : Point) (c : call) : Prop :=
  fst c = false /\ source (snd c) = point.

(** The log of the retry loop: every traversal is a retry from the query
    point; when the loop returns, the last traversal gave the verdict and
    the others were indeterminate; when the budget runs out, all of them
    were. *)
Lemma retry_loop_log (point : Point) (tree : AABBTree) (fuel : nat) :
  forall g : Generator,
    let r := retry_loop fuel point tree g in
    Forall (retry_call point) (calls r)
    /\ match returned r with
       | Some v =>
           exists init last,
             calls r = init ++ [last]
             /\ Forall (indeterminate_call tree) init
             /\ is_inside_ray_tree_traversal (fst last) (snd last) tree
                = Some v
       | None =>
           Forall (indeterminate_call tree) (calls r)
           /\ length (calls r) = fuel
       end.
Proof.
  induction fuel as [| fuel IH]; intros g; cbv zeta.
  - simpl. split; [constructor |]. split; [constructor | reflexivity].
  - rewrite retry_loop_unfold.
    destruct (attempt point tree g 0) as [res |] eqn:E.
    + simpl. split; [repeat constructor |].
      exists [], (false, retry_ray point g 0).
      split; [reflexivity |]. split; [constructor | exact E].
    + specialize (IH (snd (next g))). cbv zeta in IH.
      destruct IH as [Hretry Hlog]. cbn [calls returned].
      split; [constructor; [split; reflexivity | exact Hretry] |].
      destruct (returned (retry_loop fuel point tree (snd (next g)))).
      * destruct Hlog as (init & last & Hcalls & Hinit & Hlast).
        exists ((false, retry_ray point g 0) :: init), last.
        split; [now rewrite Hcalls |].
        split; [constructor; [exact E | exact Hinit] | exact Hlast].
      * destruct Hlog as [Hall Hlen].
        split; [constructor; [exact E | exact Hall] |].
        simpl. now rewrite Hlen.
Qed.

(** X15: when the traversal of the vertical ray is determinate it is the
    only traversal: the call returns its verdict without drawing a random
    point, whatever the budget of the model. *)
Theorem vertical_ray_decides (fuel : nat) (point : Point) (tree : AABBTree)
    (v : Bounded_side) :
  within_box point (bbox tree) ->
  is_inside_ray_tree_traversal true (vertical_ray point tree) tree = Some v ->
  operator_call fuel point tree
  = mkRun [(true, vertical_ray point tree)] (Some v).
Proof.
  intros Hin Hvert. now rewrite (operator_call_inside fuel _ _ Hin), Hvert.
Qed.

(** X16: every ray the call casts starts at the query point, and only the
    first one is traversed with the traits for vertical rays. *)
Theorem rays_start_at_query_point (fuel : nat) (point : Point)
    (tree : AABBTree) :
  Forall (fun c : call => source (snd c) = point)
    (calls (operator_call fuel point tree))
  /\ forall c rest,
       calls (operator_call fuel point tree) = c :: rest ->
       c = (true, vertical_ray point tree)
       /\ Forall (fun c : call => fst c = false) rest.
Proof.
  unfold operator_call. cbv zeta.
  destruct (Qltb (px point) (xmin (bbox tree)) || _ || _ || _ || _ || _).
  { split; [constructor | discriminate]. }
  destruct (is_inside_ray_tree_traversal true _ tree).
  { split; [repeat constructor |].
    intros c rest [= <- <-]. split; [reflexivity | constructor]. }
  destruct (retry_loop_log point tree fuel (Random_points_on_sphere_3 seed))
    as [Hretry _].
  cbn [calls]. split.
  - constructor; [reflexivity |].
    eapply Forall_impl; [exact Hretry |]. intros c [_ Hc]. exact Hc.
  - intros c rest [= <- <-]. split; [reflexivity |].
    eapply Forall_impl; [exact Hretry |]. intros c [Hc _]. exact Hc.
Qed.

(** A verdict does not depend on the budget of the model: once a call
    returns with some budget, it does exactly the same with any larger
    one. *)
Theorem verdict_independent_of_budget (fuel fuel' : nat) (point : Point)
    (tree : AABBTree) (v : Bounded_side) :
  returned (operator_call fuel point tree) = Some v ->
  (fuel <= fuel')%nat ->
  operator_call fuel' point tree = operator_call fuel point tree.
Proof.
  unfold operator_call. cbv zeta.
  destruct (Qltb (px point) (xmin (bbox tree)) || _ || _ || _ || _ || _);
    [reflexivity |].
  destruct (is_inside_ray_tree_traversal true _ tree); [reflexivity |].
  cbn [returned]. intros Hret Hle.
  apply retry_loop_returned in Hret as (k & Hk & Hfirst).
  rewrite (retry_loop_stops point tree k fuel _ v Hfirst Hk).
  rewrite (retry_loop_stops point tree k fuel' _ v Hfirst ltac:(lia)).
  reflexivity.
Qed.

(** X17: a call that traverses the tree returns at the first determinate
    traversal: the last traversal of its log gave the verdict and all the
    others were indeterminate; a call that runs out of budget has made one
    traversal more than the budget, all of them indeterminate. *)
Theorem returns_at_first_determinate (fuel : nat) (point : Point)
    (tree : AABBTree) :
  within_box point (bbox tree) ->
  match returned (operator_call fuel point tree) with
  | Some v =>
      exists init last,
        calls (operator_call fuel point tree) = init ++ [last]
        /\ Forall (indeterminate_call tree) init
        /\ is_inside_ray_tree_traversal (fst last) (snd last) tree = Some v
  | None =>
      Forall (indeterminate_call tree) (calls (operator_call fuel point tree))
      /\ length (calls (operator_call fuel point tree)) = S fuel
  end.
Proof.
  intros Hin. rewrite (operator_call_inside fuel _ _ Hin).
  destruct (is_inside_ray_tree_traversal true _ tree) as [v |] eqn:Hvert.
  { cbn [returned calls]. exists [], (true, vertical_ray point tree).
    split; [reflexivity |]. split; [constructor | exact Hvert]. }
  cbv zeta. cbn [returned calls].
  destruct (retry_loop_log point tree fuel (Random_points_on_sphere_3 seed))
    as [_ Hlog].
  destruct (returned (retry_loop fuel point tree _)).
  - destruct Hlog as (init & last & Hcalls & Hinit & Hlast).
    exists ((true, vertical_ray point tree) :: init), last.
    split; [now rewrite Hcalls |].
    split; [constructor; [exact Hvert | exact Hinit] | exact Hlast].
  - destruct Hlog as [Hall Hlen].
    split; [constructor; [exact Hvert | exact Hall] |].
    simpl. now rewrite Hlen.
Qed.

End Test.

(** ** The definitions evaluated on the concrete tree *)

Definition demo_call : nat -> Point -> demo_tree -> run :=
  operator_call demo_tree demo_bbox demo_traversal
    demo_generator demo_sphere demo_next.

Example demo_call_centre :
  demo_call 5 (mkPoint 0 0 0) unit_cube
  = mkRun [ (true, mkRay (mkPoint 0 0 0) (mkVector 0 0 1));
            (false, mkRay (mkPoint 0 0 0) (mkVector 1 0 0));
            (false, mkRay (mkPoint 0 0 0) (mkVector 0 1 0)) ]
          (Some ON_BOUNDED_SIDE).
Proof. reflexivity. Qed.

Example demo_call_far :
  demo_call 5 (mkPoint 10 10 10) unit_cube
  = mkRun [] (Some ON_UNBOUNDED_SIDE).
Proof. reflexivity. Qed.

Example demo_call_out_of_budget :
  demo_call 1 (mkPoint 0 0 0) unit_cube
  = mkRun [ (true, mkRay (mkPoint 0 0 0) (mkVector 0 0 1));
            (false, mkRay (mkPoint 0 0 0) (mkVector 1 0 0)) ]
          None.
Proof. reflexivity. Qed.

Lemma centre_within_unit_cube : within_box (mkPoint 0 0 0) unit_cube.
Proof. unfold within_box; simpl. repeat split; discriminate. Qed.

Lemma face_within_unit_cube : within_box (mkPoint 0 0 (1 # 2)) unit_cube.
Proof. unfold within_box; simpl. repeat split; discriminate. Qed.

Lemma far_not_within_unit_cube : ~ within_box (mkPoint 10 10 10) unit_cube.
Proof. unfold within_box; simpl. intros [[_ H] _]. now apply H. Qed.

(** The gate at a far point and at a point on the top face of the cube. *)
Lemma bounding_box_gate_witness :
  demo_call 5 (mkPoint 10 10 10) unit_cube = mkRun [] (Some ON_UNBOUNDED_SIDE)
  /\ exists rest,
       calls (demo_call 5 (mkPoint 0 0 (1 # 2)) unit_cube)
       = (true, vertical_ray demo_tree demo_bbox
                  (mkPoint 0 0 (1 # 2)) unit_cube) :: rest.
Proof.
  split.
  - apply (proj1 (bounding_box_gate demo_tree demo_bbox demo_traversal
                    demo_generator demo_sphere demo_next
                    5 (mkPoint 10 10 10) unit_cube)).
    exact far_not_within_unit_cube.
  - apply (proj2 (bounding_box_gate demo_tree demo_bbox demo_traversal
                    demo_generator demo_sphere demo_next
                    5 (mkPoint 0 0 (1 # 2)) unit_cube)).
    exact face_within_unit_cube.
Defined.

Lemma low_within_unit_cube : within_box (mkPoint 0 0 (-1 # 4)) unit_cube.
Proof. unfold within_box; simpl. repeat split; discriminate. Qed.

Lemma unit_cube_is_double :
  is_double (-1 # 4) /\ is_double 0 /\ is_double (-1 # 2)
  /\ is_double (1 # 2) /\ is_double ((1 # 2) + (-1 # 2)).
Proof. repeat split. Qed.

(** The first ray at a point of the lower half of the cube, and at its
    centre, which is at middle height. *)
Lemma initial_ray_is_vertical_witness :
  (exists rest,
     calls (demo_call 5 (mkPoint 0 0 (-1 # 4)) unit_cube)
     = (true, mkRay (mkPoint 0 0 (-1 # 4)) (mkVector 0 0 (-1))) :: rest)
  /\ (exists rest,
        calls (demo_call 5 (mkPoint 0 0 0) unit_cube)
        = (true, mkRay (mkPoint 0 0 0) (mkVector 0 0 1)) :: rest).
Proof.
  destruct unit_cube_is_double as (Dlow & Dzero & Dmin & Dmax & Dsum).
  split.
  - destruct (initial_ray_is_vertical demo_tree demo_bbox demo_traversal
                demo_generator demo_sphere demo_next
                5 (mkPoint 0 0 (-1 # 4)) unit_cube low_within_unit_cube
                Dlow Dmin Dmax) as (Hcall & _ & _ & Hbelow).
    rewrite (Hbelow Dsum eq_refl) in Hcall. exact Hcall.
  - destruct (initial_ray_is_vertical demo_tree demo_bbox demo_traversal
                demo_generator demo_sphere demo_next
                5 (mkPoint 0 0 0) unit_cube centre_within_unit_cube
                Dzero Dmin Dmax) as (Hcall & _ & Habove & _).
    rewrite Habove in Hcall by discriminate. exact Hcall.
Defined.

(** A box of heights [0.1] to [0.7] and a point of height
    [0.39999999999999997], as the [double]s nearest to these decimals. *)
Definition shallow_box : demo_tree :=
  mkBbox (-1) (-1) (3602879701896397 # 36028797018963968)
         1 1 (3152519739159347 # 4503599627370496).

Definition near_middle : Point :=
  mkPoint 0 0 (7205759403792793 # 18014398509481984).

Example near_middle_below_midpoint :
  within_box near_middle shallow_box
  /\ pz near_middle < (zmax shallow_box + zmin shallow_box) / 2
  /\ double_add (to_double (zmax shallow_box)) (to_double (zmin shallow_box))
     = double_mul (double_of_int 2) (to_double (pz near_middle)).
Proof.
  split; [| split; reflexivity].
  unfold within_box; simpl. repeat split; discriminate.
Qed.

(** C4, as the specification words it, fails: [near_middle] lies strictly
    below the middle height of [shallow_box], but the sum of the two heights
    of the box rounds to twice the height of the point, the test of the code
    fails and the first ray goes upward. *)
Lemma initial_ray_upward_below_midpoint :
  ~ downward_below_midpoint demo_tree demo_bbox demo_traversal
      demo_generator demo_sphere demo_next.
Proof.
  intros H.
  destruct near_middle_below_midpoint as (Hin & Hlt & _).
  destruct (H 0%nat near_middle shallow_box Hin) as [rest Hrest];
    [reflexivity | reflexivity | reflexivity | exact Hlt |].
  vm_compute in Hrest. discriminate Hrest.
Qed.

(** At the centre of the cube the vertical ray and the first retry are
    indeterminate and the second retry decides. *)
Lemma retry_until_determinate_witness :
  demo_call 7 (mkPoint 0 0 0) unit_cube
  = mkRun [ (true, mkRay (mkPoint 0 0 0) (mkVector 0 0 1));
            (false, mkRay (mkPoint 0 0 0) (mkVector 1 0 0));
            (false, mkRay (mkPoint 0 0 0) (mkVector 0 1 0)) ]
          (Some ON_BOUNDED_SIDE).
Proof.
  apply (proj1 (retry_until_determinate demo_tree demo_bbox demo_traversal
                  demo_generator demo_sphere demo_next
                  (mkPoint 0 0 0) unit_cube centre_within_unit_cube
                  eq_refl) 1%nat ON_BOUNDED_SIDE).
  - split; [| reflexivity].
    intros [| j] Hj; [reflexivity | lia].
  - lia.
Defined.

(** C2, as the specification words it, fails: two queries at the centre of
    the cube each restart the stream at its first point, whereas a generator
    seeded once would hand the second query the third and fourth points. *)
Lemma generator_is_reseeded_per_query :
  ~ generator_not_reseeded_per_query demo_tree demo_bbox demo_traversal
      demo_generator demo_sphere demo_next.
Proof.
  intros H.
  specialize (H 5%nat [(mkPoint 0 0 0, unit_cube); (mkPoint 0 0 0, unit_cube)]).
  vm_compute in H. discriminate H.
Qed.

(** ** The further properties on the concrete tree *)

(** A traversal that counts one crossing for every ray. *)
Definition one_crossing_traversal (ray_is_vertical : bool) (r : Ray)
    (t : demo_tree) : tribool * Z :=
  (tb_true, 1%Z).

Lemma vertical_ray_decides_witness :
  operator_call demo_tree demo_bbox one_crossing_traversal
    demo_generator demo_sphere demo_next 0 (mkPoint 0 0 0) unit_cube
  = mkRun [(true, mkRay (mkPoint 0 0 0) (mkVector 0 0 1))]
          (Some ON_BOUNDED_SIDE).
Proof.
  apply (vertical_ray_decides demo_tree demo_bbox one_crossing_traversal
           demo_generator demo_sphere demo_next
           0 (mkPoint 0 0 0) unit_cube ON_BOUNDED_SIDE
           centre_within_unit_cube).
  reflexivity.
Defined.

Lemma verdict_independent_of_budget_witness :
  demo_call 9 (mkPoint 0 0 0) unit_cube
  = demo_call 2 (mkPoint 0 0 0) unit_cube.
Proof.
  apply (verdict_independent_of_budget demo_tree demo_bbox demo_traversal
           demo_generator demo_sphere demo_next
           2 9 (mkPoint 0 0 0) unit_cube ON_BOUNDED_SIDE).
  - reflexivity.
  - lia.
Defined.

Lemma returns_at_first_determinate_witness :
  (exists init last,
     calls (demo_call 5 (mkPoint 0 0 0) unit_cube) = init ++ [last]
     /\ Forall (indeterminate_call demo_tree demo_traversal unit_cube) init
     /\ is_inside_ray_tree_traversal demo_tree demo_traversal
          (fst last) (snd last) unit_cube
        = Some ON_BOUNDED_SIDE)
  /\ (Forall (indeterminate_call demo_tree demo_traversal unit_cube)
        (calls (demo_call 1 (mkPoint 0 0 0) unit_cube))
      /\ length (calls (demo_call 1 (mkPoint 0 0 0) unit_cube)) = 2%nat).
Proof.
  split.
  - exact (returns_at_first_determinate demo_tree demo_bbox demo_traversal
             demo_generator demo_sphere demo_next
             5 (mkPoint 0 0 0) unit_cube centre_within_unit_cube).
  - exact (returns_at_first_determinate demo_tree demo_bbox demo_traversal
             demo_generator demo_sphere demo_next
             1 (mkPoint 0 0 0) unit_cube centre_within_unit_cube).
Defined.

End PointInside.

(* ===================================================================== *)
(** * Evaluation of a classification                                      *)
(* ===================================================================== *)

Module Evaluation.

Local Open Scope Z_scope.

(** ** Machine types *)

(** [std::size_t]: the integers below [2^64]; [wrap] is the reduction that
    unsigned arithmetic and the conversion [std::size_t(int)] perform. *)
Definition size_modulus : Z := 2 ^ 64.
Definition wrap (z : Z) : Z := z mod size_modulus.

(** [int]: the range a value of the index ranges lies in. *)
Definition is_int (z : Z) : Prop := - 2 ^ 31 <= z < 2 ^ 31.

(** [float]: IEEE-754 binary32, 24 bits of precision and exponents below
    128, rounding to nearest even. *)
Definition float : Set := spec_float.
Definition quiet_NaN : float := S754_nan.
Definition float_zero : float := S754_zero false.
Definition float_one : float := S754_finite false 8388608 (-23).
(** [float(n)] for [n] of type [std::size_t], and the division of floats. *)
Definition float_of_size_t (n : Z) : float := binary_normalize 24 128 n 0 false.
Definition float_div : float -> float -> float := SFdiv 24 128.

(** ** Accesses that can leave the bounds of a vector *)

Inductive container : Set :=
  | Confusion_matrix   (* [m_confusion] or one of its rows *)
  | Result_range.      (* the range [result] of [append] *)

Inductive outcome (A : Type) : Type :=
  | Ok (a : A)
  | Out_of_bounds (c : container).
Arguments Ok {A} a.
Arguments Out_of_bounds {A} c.

Definition bind {A B : Type} (m : outcome A) (k : A -> outcome B)
    : outcome B :=
  match m with
  | Ok a => k a
  | Out_of_bounds c => Out_of_bounds c
  end.

Notation "'let*' x ':=' m 'in' k" := (bind m (fun x => k))
  (at level 10, x name, m at level 100, k at level 200).

(** [for (std::size_t i = first; i < first + count; ++ i) body]. *)
Fixpoint for_loop {S : Type} (body : nat -> S -> outcome S)
    (first count : nat) (s : S) : outcome S :=
  match count with
  | O => Ok s
  | Datatypes.S count' =>
      let* s' := body first s in
      for_loop body (Datatypes.S first) count' s'
  end.

(** [v.resize(n, d)]. *)
Definition resize {A : Type} (n : nat) (d : A) (v : list A) : list A :=
  take n v ++ replicate (n - length v) d.

(** ** The class *)

(** A [Label_handle] is identified by the address it holds. *)
Definition Label_handle : Set := nat.

Record Evaluation : Type := mkEvaluation
  { m_labels : list Label_handle;
    m_map_labels : gmap Label_handle nat;
    m_confusion : list (list Z) }.

(** [v[i]] for an index [i] of type [std::size_t]. *)
Definition at_size_t {A : Type} (v : list A) (i : Z) : option A :=
  if i <? Z.of_nat (length v) then v !! Z.to_nat i else None.

(** [m_confusion[i][j]], read. *)
Definition confusion_at (c : list (list Z)) (i j : nat) : outcome Z :=
  match c !! i with
  | Some row =>
      match row !! j with
      | Some x => Ok x
      | None => Out_of_bounds Confusion_matrix
      end
  | None => Out_of_bounds Confusion_matrix
  end.

(** The first loop of [init]: [m_map_labels[m_labels[i]] = i]. *)
Fixpoint init_map (labels : list Label_handle) (i : nat)
    (m : gmap Label_handle nat) : gmap Label_handle nat :=
  match labels with
  | [] => m
  | l :: labels' => init_map labels' (S i) (<[l := i]> m)
  end.

Definition init (ev : Evaluation) : Evaluation :=
  let n := length (m_labels ev) in
  {| m_labels := m_labels ev;
     m_map_labels := init_map (m_labels ev) 0 (m_map_labels ev);
     m_confusion := map (resize n 0) (resize n [] (m_confusion ev)) |}.

(** [Evaluation (const Label_set& labels)]. *)
Definition new_Evaluation (labels : list Label_handle) : Evaluation :=
  init {| m_labels := labels; m_map_labels := ∅; m_confusion := [] |}.

(** [m_map_labels[label]]: a handle the map does not hold is entered with
    the value [0], which is what this read and every later one returns. *)
Definition label_index (ev : Evaluation) (label : Label_handle) : nat :=
  default O (m_map_labels ev !! label).

Fixpoint label_has_ground_truth_loop (c : list (list Z)) (label_idx : nat)
    (i count : nat) : outcome bool :=
  match count with
  | O => Ok false
  | S count' =>
      let* x := confusion_at c i label_idx in
      if negb (x =? 0) then Ok true
      else label_has_ground_truth_loop c label_idx (S i) count'
  end.

Definition label_has_ground_truth (ev : Evaluation) (label_idx : nat)
    : outcome bool :=
  label_has_ground_truth_loop (m_confusion ev) label_idx 0
    (length (m_labels ev)).

(** One iteration of the loop of [append].  The elements of the two ranges
    are [int]s, which [static_cast<int>] leaves unchanged. *)
Definition append_step (ground_truth result : list Z) (i : nat)
    (c : list (list Z)) : outcome (list (list Z)) :=
  match ground_truth !! i with
  | None => Ok c   (* not reached: [i < ground_truth.size()] *)
  | Some gt =>
      match result !! i with
      | None => Out_of_bounds Result_range
      | Some res =>
          if (gt =? -1) || (res =? -1) then Ok c
          else
            match at_size_t c (wrap res) with
            | None => Out_of_bounds Confusion_matrix
            | Some row =>
                match at_size_t row (wrap gt) with
                | None => Out_of_bounds Confusion_matrix
                | Some x =>
                    Ok (<[Z.to_nat (wrap res) :=
                            <[Z.to_nat (wrap gt) := wrap (x + 1)]> row]> c)
                end
            end
      end
  end.

(** [append (ground_truth, result)]; the two ranges hold [int]s. *)
Definition append (ev : Evaluation) (ground_truth result : list Z)
    : outcome Evaluation :=
  let* c := for_loop (append_step ground_truth result) 0 (length ground_truth)
         (m_confusion ev) in
  Ok {| m_labels := m_labels ev;
        m_map_labels := m_map_labels ev;
        m_confusion := c |}.

(** [Evaluation (labels, ground_truth, result)]. *)
Definition new_Evaluation_with (labels : list Label_handle)
    (ground_truth result : list Z) : outcome Evaluation :=
  append (new_Evaluation labels) ground_truth result.

Definition precision (ev : Evaluation) (label : Label_handle)
    : outcome float :=
  let idx := label_index ev label in
  let* has := label_has_ground_truth ev idx in
  if negb has then Ok quiet_NaN
  else
    let* total := for_loop
               (fun i total =>
                  let* x := confusion_at (m_confusion ev) idx i in
                  Ok (wrap (total + x)))
               0 (length (m_labels ev)) 0 in
    if total =? 0 then Ok float_zero
    else
      let* tp := confusion_at (m_confusion ev) idx idx in
      Ok (float_div (float_of_size_t tp) (float_of_size_t total)).

Definition recall (ev : Evaluation) (label : Label_handle)
    : outcome float :=
  let idx := label_index ev label in
  let* has := label_has_ground_truth ev idx in
  if negb has then Ok quiet_NaN
  else
    let* total := for_loop
               (fun i total =>
                  let* x := confusion_at (m_confusion ev) i idx in
                  Ok (wrap (total + x)))
               0 (length (m_labels ev)) 0 in
    let* tp := confusion_at (m_confusion ev) idx idx in
    Ok (float_div (float_of_size_t tp) (float_of_size_t total)).

Definition intersection_over_union (ev : Evaluation) (label : Label_handle)
    : outcome float :=
  let idx := label_index ev label in
  let* total := for_loop
             (fun i total =>
                let* x := confusion_at (m_confusion ev) i idx in
                let total := wrap (total + x) in
                if negb (i =? idx)%nat then
                  let* y := confusion_at (m_confusion ev) idx i in
                  Ok (wrap (total + y))
                else Ok total)
             0 (length (m_labels ev)) 0 in
  let* tp := confusion_at (m_confusion ev) idx idx in
  Ok (float_div (float_of_size_t tp) (float_of_size_t total)).

Definition accuracy (ev : Evaluation) : outcome float :=
  let n := length (m_labels ev) in
  let* sums := for_loop
            (fun i (sums : Z * Z) =>
               let '(true_positives, total) := sums in
               let* d := confusion_at (m_confusion ev) i i in
               let true_positives := wrap (true_positives + d) in
               let* total := for_loop
                          (fun j total =>
                             let* x := confusion_at (m_confusion ev) i j in
                             Ok (wrap (total + x)))
                          0 n total in
               Ok (true_positives, total))
            0 n (0, 0) in
  let '(true_positives, total) := sums in
  Ok (float_div (float_of_size_t true_positives) (float_of_size_t total)).

(** ** The other member functions *)

(** [2.f], the product, the sum and the comparison [==] of floats, and
    [std::isnan]. *)
Definition float_two : float := S754_finite false 8388608 (-22).
Definition float_mul : float -> float -> float := SFmul 24 128.
Definition float_add : float -> float -> float := SFadd 24 128.
Definition float_eqb : float -> float -> bool := SFeqb.
Definition isnan (f : float) : bool :=
  match f with S754_nan => true | _ => false end.

Definition f1_score (ev : Evaluation) (label : Label_handle)
    : outcome float :=
  let* p := precision ev label in
  let* r := recall ev label in
  if float_eqb p float_zero && float_eqb r float_zero then Ok float_zero
  else Ok (float_div (float_mul (float_mul float_two p) r) (float_add p r)).

Definition number_of_misclassified_items (ev : Evaluation) : outcome Z :=
  let n := length (m_labels ev) in
  for_loop
    (fun i total =>
       for_loop
         (fun j total =>
            if negb (i =? j)%nat then
              let* x := confusion_at (m_confusion ev) i j in
              Ok (wrap (total + x))
            else Ok total)
         0 n total)
    0 n 0.

Definition number_of_items (ev : Evaluation) : outcome Z :=
  let n := length (m_labels ev) in
  for_loop
    (fun i total =>
       for_loop
         (fun j total =>
            let* x := confusion_at (m_confusion ev) i j in
            Ok (wrap (total + x)))
         0 n total)
    0 n 0.

Definition mean_f1_score (ev : Evaluation) : outcome float :=
  let* acc :=
    for_loop
      (fun i (acc : float * Z) =>
         let '(mean, nb) := acc in
         let* has := label_has_ground_truth ev i in
         if has then
           match m_labels ev !! i with
           | Some label =>
               let* f := f1_score ev label in
               Ok (float_add mean f, wrap (nb + 1))
           | None => Ok acc   (* not reached: [i < m_labels.size()] *)
           end
         else Ok acc)
      0 (length (m_labels ev)) (float_zero, 0) in
  let '(mean, nb) := acc in
  Ok (float_div mean (float_of_size_t nb)).

Definition mean_intersection_over_union (ev : Evaluation)
    : outcome float :=
  let* acc :=
    for_loop
      (fun i (acc : float * Z) =>
         let '(mean, nb) := acc in
         match m_labels ev !! i with
         | Some label =>
             let* iou := intersection_over_union ev label in
             if negb (isnan iou) then Ok (float_add mean iou, wrap (nb + 1))
             else Ok acc
         | None => Ok acc   (* not reached: [i < m_labels.size()] *)
         end)
      0 (length (m_labels ev)) (float_zero, 0) in
  let '(mean, nb) := acc in
  Ok (float_div mean (float_of_size_t nb)).

(** ** Notions used in the statements *)

(** The entry in row [i] (the result) and column [j] (the ground truth). *)
Definition entry (c : list (list Z)) (i j : nat) : Z := (c !!! i) !!! j.

(** [f 0 + ... + f (n - 1)]. *)
Fixpoint sum_upto (f : nat -> Z) (n : nat) : Z :=
  match n with
  | O => 0
  | S n' => sum_upto f n' + f n'
  end.

Definition is_size_t (z : Z) : Prop := 0 <= z < size_modulus.

(** An [n] by [n] matrix. *)
Definition square (n : nat) (c : list (list Z)) : Prop :=
  length c = n /\ Forall (fun row => length row = n) c.

(** The state of an object that was constructed for its labels. *)
Definition well_formed (ev : Evaluation) : Prop :=
  square (length (m_labels ev)) (m_confusion ev)
  /\ Forall (Forall is_size_t) (m_confusion ev)
  /\ (forall l i, m_map_labels ev !! l = Some i ->
        (i < length (m_labels ev))%nat).

(** No item was given label [idx] as ground truth. *)
Definition no_ground_truth (ev : Evaluation) (idx : nat) : Prop :=
  forall i, (i < length (m_labels ev))%nat -> entry (m_confusion ev) i idx = 0.

(** The number of items whose result is label [idx]. *)
Definition predicted_as (ev : Evaluation) (idx : nat) : Z :=
  sum_upto (entry (m_confusion ev) idx) (length (m_labels ev)).

(** A value of an index range that [append] may receive for [n] labels. *)
Definition valid_index (n : nat) (z : Z) : Prop :=
  z = -1 \/ 0 <= z < Z.of_nat n.

(** The matrix after [++ m_confusion[r][g]]. *)
Definition increment (c : list (list Z)) (r g : nat) : list (list Z) :=
  <[r := <[g := wrap (entry c r g + 1)]> (c !!! r)]> c.

(** The number of values of a range other than the sentinel [-1]. *)
Definition items (l : list Z) : Z :=
  Z.of_nat (length (filter (fun z => z <> -1) l)).

(** Every counted item lies on the diagonal, and there are [k] of them. *)
Definition diagonal (n : nat) (c : list (list Z)) (k : Z) : Prop :=
  square n c
  /\ (forall i j, (i < n)%nat -> (j < n)%nat -> i <> j -> entry c i j = 0)
  /\ (forall i, (i < n)%nat -> 0 <= entry c i i)
  /\ sum_upto (fun i => entry c i i) n = k.

(** The number of positions at which [ground_truth] holds the index [g] and
    [result] the index [r]. *)
Definition counted (ground_truth result : list Z) (r g : nat) : Z :=
  Z.of_nat (length (filter (fun p => p.1 = Z.of_nat g /\ p.2 = Z.of_nat r)
                      (zip ground_truth result))).

(** The pairs of values [append] counts, and those it counts as
    misclassified. *)
Definition included (ground_truth result : list Z) : list (Z * Z) :=
  filter (fun p => p.1 <> -1 /\ p.2 <> -1) (zip ground_truth result).

Definition misclassified (ground_truth result : list Z) : list (Z * Z) :=
  filter (fun p => p.1 <> p.2) (included ground_truth result).

(** The sum of all entries, and of the entries off the diagonal. *)
Definition matrix_total (n : nat) (c : list (list Z)) : Z :=
  sum_upto (fun i => sum_upto (entry c i) n) n.

Definition off_diagonal_total (n : nat) (c : list (list Z)) : Z :=
  sum_upto (fun i => sum_upto (fun j => if decide (i = j) then 0
                                        else entry c i j) n) n.

Definition trace (n : nat) (c : list (list Z)) : Z :=
  sum_upto (fun i => entry c i i) n.

(** A pair of values [append] may receive for [n] labels. *)
Definition valid_pair (n : nat) (p : Z * Z) : Prop :=
  valid_index n p.1 /\ valid_index n p.2.

(** The occurrences of the pair of indices [(r, g)] in a list of pairs of
    values. *)
Definition occurrences (l : list (Z * Z)) (r g : nat) : Z :=
  Z.of_nat (length (filter (fun p => p.1 = Z.of_nat g /\ p.2 = Z.of_nat r) l)).

(** The number of items whose ground truth is label [idx]. *)
Definition ground_truth_of (ev : Evaluation) (idx : nat) : Z :=
  sum_upto (fun i => entry (m_confusion ev) i idx) (length (m_labels ev)).

(** The claim "NaN for a label without ground truth", for the three scores
    the class computes per label. *)
Definition nan_without_ground_truth : Prop :=
  forall ev label,
    well_formed ev ->
    label ∈ m_labels ev ->
    no_ground_truth ev (label_index ev label) ->
    precision ev label = Ok quiet_NaN
    /\ recall ev label = Ok quiet_NaN
    /\ intersection_over_union ev label = Ok quiet_NaN.

(** A position of the two ranges that [append] does not skip, with a value
    that is not the index of one of the [n] labels. *)
Definition unsafe_position (n : nat) (ground_truth result : list Z)
    (i : nat) : Prop :=
  exists gt res,
    ground_truth !! i = Some gt /\ result !! i = Some res
    /\ gt <> -1 /\ res <> -1
    /\ (~ valid_index n gt \/ ~ valid_index n res).

(** The claim "an index out of range, other than the sentinel, violates the
    safety condition", for two ranges of [int]s of the same length. *)
Definition out_of_range_index_is_unsafe : Prop :=
  forall ev ground_truth result,
    well_formed ev ->
    Forall is_int ground_truth -> Forall is_int result ->
    length ground_truth = length result ->
    Exists (fun z => ~ valid_index (length (m_labels ev)) z)
      (ground_truth ++ result) ->
    append ev ground_truth result = Out_of_bounds Confusion_matrix.

(** The claim "accuracy is 1 when the result equals the ground truth". *)
Definition accuracy_one_on_equal_ranges : Prop :=
  forall labels indices,
    Forall (valid_index (length labels)) indices ->
    (let* ev := new_Evaluation_with labels indices indices in accuracy ev)
    = Ok float_one.

(** ** Machine arithmetic *)

Lemma size_modulus_pos : 0 < size_modulus.
Proof. reflexivity. Qed.

Lemma wrap_is_size_t z : is_size_t (wrap z).
Proof. apply Z.mod_pos_bound, size_modulus_pos. Qed.

Lemma wrap_small z : is_size_t z -> wrap z = z.
Proof. apply Z.mod_small. Qed.

Lemma wrap_add_l a b : wrap (wrap a + b) = wrap (a + b).
Proof. apply Zplus_mod_idemp_l. Qed.

Lemma for_loop_split {S : Type} (body : nat -> S -> outcome S) (a b : nat) :
  forall (first : nat) (s : S),
    for_loop body first (a + b) s
    = let* s' := for_loop body first a s in for_loop body (first + a) b s'.
Proof.
  induction a as [| a IH]; intros first s; simpl.
  - now rewrite Nat.add_0_r.
  - destruct (body first s) as [s' | w]; simpl; [| reflexivity].
    rewrite IH. now rewrite Nat.add_succ_r.
Qed.

Lemma for_loop_snoc {S : Type} (body : nat -> S -> outcome S)
    (first count : nat) (s : S) :
  for_loop body first (Datatypes.S count) s
  = let* s' := for_loop body first count s in body (first + count)%nat s'.
Proof.
  replace (Datatypes.S count) with (count + 1)%nat by lia.
  rewrite for_loop_split. destruct (for_loop body first count s); simpl; [| reflexivity].
  now destruct (body _ a).
Qed.

(** A loop that adds [f i] to a [std::size_t] accumulator. *)
Lemma for_loop_sum (body : nat -> Z -> outcome Z) (f : nat -> Z) (n : nat) :
  (forall i acc, (i < n)%nat -> body i acc = Ok (wrap (acc + f i))) ->
  forall acc, is_size_t acc ->
    for_loop body 0 n acc = Ok (wrap (acc + sum_upto f n)).
Proof.
  intros Hbody acc Hacc. induction n as [| n IH].
  - simpl. now rewrite Z.add_0_r, wrap_small.
  - rewrite for_loop_snoc, IH by (intros; apply Hbody; lia).
    simpl. rewrite Hbody by lia. rewrite wrap_add_l. f_equal. f_equal. lia.
Qed.

Lemma sum_upto_ext (f g : nat -> Z) (n : nat) :
  (forall i, (i < n)%nat -> f i = g i) -> sum_upto f n = sum_upto g n.
Proof.
  induction n as [| n IH]; intros H; simpl; [reflexivity |].
  rewrite IH, H by (intros; try apply H; lia). reflexivity.
Qed.

Lemma sum_upto_nonneg (f : nat -> Z) (n : nat) :
  (forall i, (i < n)%nat -> 0 <= f i) -> 0 <= sum_upto f n.
Proof.
  induction n as [| n IH]; intros H; simpl; [lia |].
  specialize (IH ltac:(intros; apply H; lia)). specialize (H n ltac:(lia)). lia.
Qed.

Lemma sum_upto_zero (f : nat -> Z) (n : nat) :
  (forall i, (i < n)%nat -> f i = 0) -> sum_upto f n = 0.
Proof.
  induction n as [| n IH]; intros H; simpl; [reflexivity |].
  rewrite IH, H by (intros; try apply H; lia). reflexivity.
Qed.

Lemma sum_upto_ge (f : nat -> Z) (n k : nat) :
  (forall i, (i < n)%nat -> 0 <= f i) -> (k < n)%nat -> f k <= sum_upto f n.
Proof.
  induction n as [| n IH]; intros H Hk; [lia |]. simpl.
  pose proof (sum_upto_nonneg f n ltac:(intros; apply H; lia)).
  pose proof (H n ltac:(lia)).
  destruct (decide (k = n)) as [-> | Hne]; [lia |].
  specialize (IH ltac:(intros; apply H; lia) ltac:(lia)). lia.
Qed.

(** A sum whose terms vanish except at [k]. *)
Lemma sum_upto_single (f : nat -> Z) (n k : nat) :
  (forall i, (i < n)%nat -> i <> k -> f i = 0) -> (k < n)%nat ->
  sum_upto f n = f k.
Proof.
  induction n as [| n IH]; intros H Hk; [lia |]. simpl.
  destruct (decide (k = n)) as [-> | Hne].
  - rewrite sum_upto_zero by (intros; apply H; lia). lia.
  - rewrite IH, (H n) by (intros; try apply H; lia). lia.
Qed.

(** Adding one to the term at [k] adds one to the sum. *)
Lemma sum_upto_incr (f g : nat -> Z) (n k : nat) :
  (forall i, (i < n)%nat -> g i = if decide (i = k) then f i + 1 else f i) ->
  (k < n)%nat ->
  sum_upto g n = sum_upto f n + 1.
Proof.
  induction n as [| n IH]; intros H Hk; [lia |]. simpl.
  rewrite (H n) by lia.
  destruct (decide (n = k)) as [-> | Hne].
  - rewrite (sum_upto_ext g f).
    + lia.
    + intros i Hi. rewrite H by lia. destruct (decide (i = k)); [lia | reflexivity].
  - rewrite IH by (intros; try apply H; lia). lia.
Qed.

(** ** The confusion matrix *)

Lemma square_row (n : nat) (c : list (list Z)) (i : nat) :
  square n c -> (i < n)%nat ->
  c !! i = Some (c !!! i) /\ length (c !!! i) = n.
Proof.
  intros [Hlen Hrows] Hi.
  assert (E : c !! i = Some (c !!! i))
    by (apply list_lookup_lookup_total_lt; lia).
  split; [exact E |]. exact (proj1 (Forall_lookup _ _) Hrows _ _ E).
Qed.

Lemma confusion_at_square (n : nat) (c : list (list Z)) (i j : nat) :
  square n c -> (i < n)%nat -> (j < n)%nat ->
  confusion_at c i j = Ok (entry c i j).
Proof.
  intros Hsq Hi Hj. destruct (square_row n c i Hsq Hi) as [E Hlen].
  unfold confusion_at, entry. rewrite E.
  now rewrite (list_lookup_lookup_total_lt (c !!! i) j) by lia.
Qed.

Lemma at_size_t_lookup {A : Type} (v : list A) (i : Z) :
  0 <= i -> at_size_t v i = v !! Z.to_nat i.
Proof.
  intros Hi. unfold at_size_t. destruct (i <? Z.of_nat (length v)) eqn:E;
    [reflexivity |].
  symmetry. apply lookup_ge_None. apply Z.ltb_ge in E. lia.
Qed.

Lemma at_size_t_None {A : Type} (v : list A) (i : Z) :
  Z.of_nat (length v) <= i -> at_size_t v i = None.
Proof.
  intros Hi. unfold at_size_t.
  now replace (i <? Z.of_nat (length v)) with false by (symmetry; apply Z.ltb_ge; lia).
Qed.

Lemma increment_square (n : nat) (c : list (list Z)) (r g : nat) :
  square n c -> square n (increment c r g).
Proof.
  intros [Hlen Hrows]. unfold increment. split; [now rewrite length_insert |].
  destruct (decide (r < length c)%nat) as [Hr | Hr].
  - apply Forall_insert; [exact Hrows |].
    rewrite length_insert.
    apply (proj1 (Forall_lookup _ _) Hrows r).
    apply list_lookup_lookup_total_lt; lia.
  - now rewrite list_insert_ge by lia.
Qed.

Lemma increment_is_size_t (c : list (list Z)) (r g : nat) :
  Forall (Forall is_size_t) c -> Forall (Forall is_size_t) (increment c r g).
Proof.
  intros H. unfold increment.
  destruct (decide (r < length c)%nat) as [Hr | Hr].
  - apply Forall_insert; [exact H |].
    assert (Hrow : Forall is_size_t (c !!! r))
      by (apply (proj1 (Forall_lookup _ _) H r), list_lookup_lookup_total_lt; lia).
    destruct (decide (g < length (c !!! r))%nat) as [Hg | Hg].
    + apply Forall_insert; [exact Hrow | apply wrap_is_size_t].
    + now rewrite list_insert_ge by lia.
  - now rewrite list_insert_ge by lia.
Qed.

Lemma entry_increment (n : nat) (c : list (list Z)) (r g i j : nat) :
  square n c -> (r < n)%nat -> (g < n)%nat ->
  entry (increment c r g) i j
  = if decide (i = r /\ j = g) then wrap (entry c r g + 1) else entry c i j.
Proof.
  intros Hsq Hr Hg. destruct (square_row n c r Hsq Hr) as [E Hlen].
  destruct Hsq as [Hc _]. unfold increment, entry.
  destruct (decide (i = r)) as [-> | Hi].
  - rewrite list_lookup_total_insert_eq by lia.
    destruct (decide (j = g)) as [-> | Hj].
    + rewrite list_lookup_total_insert_eq by lia.
      now rewrite decide_True by done.
    + rewrite list_lookup_total_insert_ne by done.
      rewrite decide_False by (intros []; done). reflexivity.
  - rewrite list_lookup_total_insert_ne by done.
    rewrite decide_False by (intros []; done). reflexivity.
Qed.

(** What one iteration of [append] does on a square matrix. *)
Lemma append_step_spec (n : nat) (c : list (list Z)) (ground_truth result : list Z)
    (i : nat) (gt res : Z) :
  square n c ->
  ground_truth !! i = Some gt -> result !! i = Some res ->
  append_step ground_truth result i c =
    if (gt =? -1) || (res =? -1) then Ok c
    else if (wrap res <? Z.of_nat n) && (wrap gt <? Z.of_nat n)
         then Ok (increment c (Z.to_nat (wrap res)) (Z.to_nat (wrap gt)))
         else Out_of_bounds Confusion_matrix.
Proof.
  intros Hsq Hgt Hres. unfold append_step. rewrite Hgt, Hres.
  destruct ((gt =? -1) || (res =? -1)); [reflexivity |].
  pose proof (wrap_is_size_t res) as [Hr0 _].
  pose proof (wrap_is_size_t gt) as [Hg0 _].
  destruct (wrap res <? Z.of_nat n) eqn:Er; simpl.
  - apply Z.ltb_lt in Er.
    destruct (square_row n c (Z.to_nat (wrap res)) Hsq ltac:(lia)) as [E Hlen].
    rewrite at_size_t_lookup, E by lia.
    destruct (wrap gt <? Z.of_nat n) eqn:Eg.
    + apply Z.ltb_lt in Eg.
      rewrite at_size_t_lookup by lia.
      rewrite (list_lookup_lookup_total_lt (c !!! _) (Z.to_nat (wrap gt))) by lia.
      reflexivity.
    + apply Z.ltb_ge in Eg. now rewrite at_size_t_None by lia.
  - apply Z.ltb_ge in Er. destruct Hsq as [Hlen _].
    now rewrite at_size_t_None by lia.
Qed.

(** The map built by [init] sends a handle to a position of the label
    set. *)
Lemma init_map_lookup (labels : list Label_handle) :
  forall (k : nat) (m : gmap Label_handle nat) (l : Label_handle) (i : nat),
    init_map labels k m !! l = Some i ->
    (k <= i < k + length labels)%nat \/ m !! l = Some i.
Proof.
  induction labels as [| l0 labels IH]; intros k m l i H; simpl in *.
  - now right.
  - apply IH in H as [H | H]; [left; lia |].
    destruct (decide (l0 = l)) as [-> | Hne].
    + rewrite lookup_insert_eq in H. injection H as <-. left; lia.
    + rewrite lookup_insert_ne in H by done. now right.
Qed.

Lemma new_Evaluation_confusion (labels : list Label_handle) :
  m_confusion (new_Evaluation labels)
  = replicate (length labels) (replicate (length labels) 0).
Proof.
  unfold new_Evaluation, init, resize. simpl.
  rewrite take_nil, Nat.sub_0_r. simpl.
  change (map ?f ?l) with (f <$> l). rewrite fmap_replicate.
  now rewrite take_nil, Nat.sub_0_r.
Qed.

Lemma new_Evaluation_entry (labels : list Label_handle) (i j : nat) :
  (i < length labels)%nat -> (j < length labels)%nat ->
  entry (m_confusion (new_Evaluation labels)) i j = 0.
Proof.
  intros Hi Hj. rewrite new_Evaluation_confusion. unfold entry.
  now rewrite !lookup_total_replicate_2.
Qed.

Lemma new_Evaluation_well_formed (labels : list Label_handle) :
  well_formed (new_Evaluation labels).
Proof.
  unfold well_formed. rewrite new_Evaluation_confusion.
  change (m_labels (new_Evaluation labels)) with labels.
  repeat split.
  - apply length_replicate.
  - apply Forall_replicate, length_replicate.
  - apply Forall_replicate, Forall_replicate. split; [lia | reflexivity].
  - intros l i H. unfold new_Evaluation, init in H. simpl in H.
    apply init_map_lookup in H as [H | H]; [lia |].
    now rewrite lookup_empty in H.
Qed.

Lemma wrap_valid (n : nat) (z : Z) :
  valid_index n z -> z <> -1 ->
  (wrap z <? Z.of_nat n) = true /\ (Z.to_nat (wrap z) < n)%nat.
Proof.
  intros [-> | Hz] Hne; [done |].
  pose proof (wrap_is_size_t z) as [H0 _].
  assert (wrap z <= z) by (apply Z.mod_le; [lia | reflexivity]).
  split; [apply Z.ltb_lt |]; lia.
Qed.

Lemma wrap_negative (z : Z) :
  - size_modulus <= z < 0 -> wrap z = z + size_modulus.
Proof.
  intros Hz. unfold wrap.
  rewrite <- (Z.mod_add z 1 size_modulus) by discriminate.
  rewrite Z.mul_1_l. apply Z.mod_small. lia.
Qed.

(** [std::size_t(z)] for an [int] that is not the index of a label is not
    below the number of labels. *)
Lemma wrap_invalid (n : nat) (z : Z) :
  Z.of_nat n < 2 ^ 32 -> is_int z -> z <> -1 -> ~ valid_index n z ->
  (wrap z <? Z.of_nat n) = false.
Proof.
  intros Hn [Hlo Hhi] Hne Hinv. apply Z.ltb_ge.
  unfold valid_index in Hinv.
  destruct (Z_lt_le_dec z 0) as [Hneg | Hpos].
  - rewrite wrap_negative by (unfold size_modulus; lia).
    unfold size_modulus. lia.
  - rewrite wrap_small by (unfold is_size_t, size_modulus; lia). lia.
Qed.

(** The loop of [append] over positions that both ranges have. *)
Lemma append_loop_prefix (n : nat) (ground_truth result : list Z)
    (count : nat) :
  forall (first : nat) (c : list (list Z)),
    square n c -> Forall (Forall is_size_t) c ->
    (first + count <= length ground_truth)%nat ->
    (first + count <= length result)%nat ->
    for_loop (append_step ground_truth result) first count c
    = Out_of_bounds Confusion_matrix
    \/ exists c',
         for_loop (append_step ground_truth result) first count c = Ok c'
         /\ square n c' /\ Forall (Forall is_size_t) c'.
Proof.
  induction count as [| count IH]; intros first c Hsq Hc Hgt Hres; simpl.
  - right. eauto.
  - destruct (lookup_lt_is_Some_2 ground_truth first ltac:(lia)) as [gt Egt].
    destruct (lookup_lt_is_Some_2 result first ltac:(lia)) as [res Eres].
    rewrite (append_step_spec n c _ _ first gt res Hsq Egt Eres).
    destruct ((gt =? -1) || (res =? -1)); simpl.
    + apply IH; (assumption || lia).
    + destruct ((wrap res <? Z.of_nat n) && (wrap gt <? Z.of_nat n)); simpl.
      * apply IH; try lia.
        -- now apply increment_square.
        -- now apply increment_is_size_t.
      * now left.
Qed.

(** With indices of the label set, no access to the matrix is out of
    bounds, and the loop only stops early when [result] is too short. *)
Lemma append_loop_valid (n : nat) (ground_truth result : list Z)
    (count : nat) :
  Forall (valid_index n) ground_truth -> Forall (valid_index n) result ->
  forall (first : nat) (c : list (list Z)),
    square n c -> Forall (Forall is_size_t) c ->
    (first + count <= length ground_truth)%nat ->
    match for_loop (append_step ground_truth result) first count c with
    | Ok c' => square n c' /\ Forall (Forall is_size_t) c'
    | Out_of_bounds w =>
        w = Result_range /\ (length result < first + count)%nat
    end.
Proof.
  intros Vgt Vres.
  induction count as [| count IH]; intros first c Hsq Hc Hgt; simpl.
  - now split.
  - destruct (lookup_lt_is_Some_2 ground_truth first ltac:(lia)) as [gt Egt].
    destruct (result !! first) as [res |] eqn:Eres.
    + rewrite (append_step_spec n c _ _ first gt res Hsq Egt Eres).
      destruct ((gt =? -1) || (res =? -1)) eqn:Es; simpl.
      * specialize (IH (S first) c Hsq Hc ltac:(lia)).
        destruct (for_loop _ (S first) count c); [exact IH |].
        split; [apply IH | lia].
      * apply orb_false_iff in Es as [Eg Er].
        apply Z.eqb_neq in Eg, Er.
        destruct (wrap_valid n gt) as [-> _];
          [exact (proj1 (Forall_lookup _ _) Vgt _ _ Egt) | exact Eg |].
        destruct (wrap_valid n res) as [-> _];
          [exact (proj1 (Forall_lookup _ _) Vres _ _ Eres) | exact Er |].
        simpl.
        set (r := Z.to_nat (wrap res)). set (g := Z.to_nat (wrap gt)).
        specialize (IH (S first) (increment c r g)
                      (increment_square n c r g Hsq)
                      (increment_is_size_t c r g Hc) ltac:(lia)).
        destruct (for_loop _ (S first) count _); [exact IH |].
        split; [apply IH | lia].
    + unfold append_step. rewrite Egt, Eres. simpl.
      apply lookup_ge_None in Eres. split; [reflexivity | lia].
Qed.

Lemma append_valid_ok (ev : Evaluation) (ground_truth result : list Z) :
  well_formed ev ->
  Forall (valid_index (length (m_labels ev))) ground_truth ->
  Forall (valid_index (length (m_labels ev))) result ->
  (length ground_truth <= length result)%nat ->
  exists ev', append ev ground_truth result = Ok ev' /\ well_formed ev'
              /\ m_labels ev' = m_labels ev.
Proof.
  intros (Hsq & Hc & Hmap) Vgt Vres Hlen.
  pose proof (append_loop_valid _ _ _ (length ground_truth) Vgt Vres
                0%nat _ Hsq Hc ltac:(lia)) as H.
  unfold append.
  destruct (for_loop _ 0 (length ground_truth) (m_confusion ev)) as [c' | w].
  - eexists. split; [reflexivity |]. split; [| reflexivity].
    destruct H as [Hsq' Hc'].
    split; [exact Hsq' | split; [exact Hc' | exact Hmap]].
  - destruct H as [_ H]. simpl in H. lia.
Qed.

(** An access to the matrix that leaves its bounds is made for a position
    that is not skipped and holds a value that is not the index of a
    label. *)
Lemma append_loop_unsafe (n : nat) (ground_truth result : list Z)
    (count : nat) :
  forall (first : nat) (c : list (list Z)),
    square n c ->
    (first + count <= length ground_truth)%nat ->
    for_loop (append_step ground_truth result) first count c
    = Out_of_bounds Confusion_matrix ->
    exists i, unsafe_position n ground_truth result i.
Proof.
  induction count as [| count IH]; intros first c Hsq Hgt Hloop;
    simpl in Hloop; [discriminate |].
  destruct (lookup_lt_is_Some_2 ground_truth first ltac:(lia)) as [gt Egt].
  destruct (result !! first) as [res |] eqn:Eres.
  - rewrite (append_step_spec n c _ _ first gt res Hsq Egt Eres) in Hloop.
    destruct ((gt =? -1) || (res =? -1)) eqn:Es; simpl in Hloop.
    + apply (IH (S first) c Hsq ltac:(lia) Hloop).
    + apply orb_false_iff in Es as [Eg Er]. apply Z.eqb_neq in Eg, Er.
      destruct ((wrap res <? Z.of_nat n) && (wrap gt <? Z.of_nat n)) eqn:Ei;
        simpl in Hloop.
      * apply (IH (S first) _ (increment_square n c _ _ Hsq) ltac:(lia)
                 Hloop).
      * exists first, gt, res. repeat (split; [assumption |]).
        apply andb_false_iff in Ei as [Ei | Ei]; [right | left];
          intros Hv; destruct (wrap_valid n _ Hv ltac:(assumption)) as [E _];
          congruence.
  - unfold append_step in Hloop. rewrite Egt, Eres in Hloop.
    discriminate Hloop.
Qed.

(** C9: [append] checks no index.  For two ranges of [int]s: when every
    value is the sentinel [-1] or the index of a label, no access to the
    confusion matrix leaves its bounds; and an access leaves the bounds
    exactly when some position holds two values different from [-1], one of
    which is not the index of a label.  A value that is not the index of a
    label does no harm at a position whose other value is [-1]: the
    position is skipped. *)
Theorem append_in_bounds (ev : Evaluation) (ground_truth result : list Z) :
  well_formed ev ->
  Forall is_int ground_truth -> Forall is_int result ->
  (Forall (valid_index (length (m_labels ev))) ground_truth ->
   Forall (valid_index (length (m_labels ev))) result ->
   append ev ground_truth result <> Out_of_bounds Confusion_matrix)
  /\ (Z.of_nat (length (m_labels ev)) < 2 ^ 32 ->
      (append ev ground_truth result = Out_of_bounds Confusion_matrix
       <-> exists i,
             unsafe_position (length (m_labels ev)) ground_truth result i)).
Proof.
  intros (Hsq & Hc & Hmap) Igt Ires. split.
  - intros Vgt Vres.
    pose proof (append_loop_valid _ _ _ (length ground_truth) Vgt Vres
                  0%nat _ Hsq Hc ltac:(lia)) as H.
    unfold append.
    destruct (for_loop _ 0 (length ground_truth) (m_confusion ev)) as [c' | w];
      simpl; [discriminate |].
    destruct H as [-> _]. discriminate.
  - intros Hn. split.
    + intros Happ. unfold append in Happ.
      destruct (for_loop _ 0 (length ground_truth) (m_confusion ev))
        as [c' | w] eqn:Hloop; simpl in Happ; [discriminate |].
      injection Happ as ->.
      exact (append_loop_unsafe _ ground_truth result (length ground_truth)
               0%nat _ Hsq ltac:(lia) Hloop).
    + intros (i & gt & res & Egt & Eres & Ngt & Nres & Hinv).
      pose proof (lookup_lt_Some _ _ _ Egt) as Hi.
      pose proof (lookup_lt_Some _ _ _ Eres) as Hi'.
      pose proof (proj1 (Forall_lookup _ _) Igt _ _ Egt) as Hgt_int.
      pose proof (proj1 (Forall_lookup _ _) Ires _ _ Eres) as Hres_int.
      unfold append.
      replace (length ground_truth)
        with (i + S (length ground_truth - S i))%nat by lia.
      rewrite for_loop_split.
      destruct (append_loop_prefix (length (m_labels ev)) ground_truth result
                  i 0%nat _ Hsq Hc ltac:(lia) ltac:(lia))
        as [-> | (c' & -> & Hsq' & _)]; [reflexivity |].
      simpl.
      rewrite (append_step_spec _ c' _ _ i gt res Hsq' Egt Eres).
      replace (gt =? -1) with false by (symmetry; now apply Z.eqb_neq).
      replace (res =? -1) with false by (symmetry; now apply Z.eqb_neq).
      simpl.
      destruct Hinv as [Hinv | Hinv].
      * rewrite (wrap_invalid _ gt Hn Hgt_int Ngt Hinv), andb_false_r.
        reflexivity.
      * rewrite (wrap_invalid _ res Hn Hres_int Nres Hinv). reflexivity.
Qed.

(** ** Conversion to [float] and division *)

Lemma new_location_zero m : new_location (Zpos m) 0 = loc_Exact.
Proof. unfold new_location. destruct (Z.even (Zpos m)); reflexivity. Qed.

(** A finite float divided by itself is exactly [1.0]. *)
Lemma float_div_same s m e :
  float_div (S754_finite s m e) (S754_finite s m e) = float_one.
Proof.
  unfold float_div, SFdiv, SFdiv_core_binary.
  rewrite Z.sub_diag, Z.sub_diag.
  change (Z.min (fexp 24 128 0) 0) with (-24).
  change (0 - -24) with 24.
  cbv beta iota zeta.
  rewrite Z.shiftl_mul_pow2 by lia.
  assert (E : Z.div_eucl (Z.pos m * 2 ^ 24) (Z.pos m) = (2 ^ 24, 0)).
  { rewrite (surjective_pairing (Z.div_eucl _ _)).
    change (fst (Z.div_eucl ?a ?b)) with (a / b).
    change (snd (Z.div_eucl ?a ?b)) with (a mod b).
    rewrite (Z.mul_comm (Z.pos m)), Z.div_mul, Z.mod_mul by lia.
    reflexivity. }
  rewrite E. rewrite new_location_zero.
  destruct s; reflexivity.
Qed.

Lemma digits2_pos_size p : digits2_pos p = Pos.size p.
Proof. induction p; simpl; congruence. Qed.

(** A positive number of [d] binary digits lies between [2^(d-1)] and
    [2^d]. *)
Lemma digits2_pos_bounds p :
  2 ^ (Z.pos (digits2_pos p) - 1) <= Z.pos p < 2 ^ Z.pos (digits2_pos p).
Proof.
  rewrite digits2_pos_size.
  pose proof (Pos.size_gt p) as Hgt. pose proof (Pos.size_le p) as Hle.
  split.
  - apply Pos2Z.pos_le_pos in Hle. rewrite Pos2Z.inj_pow in Hle.
    replace (Z.pos (Pos.size p)) with (Z.succ (Z.pos (Pos.size p) - 1)) in Hle by lia.
    rewrite Z.pow_succ_r in Hle by lia. lia.
  - apply Pos2Z.pos_lt_pos in Hgt. now rewrite Pos2Z.inj_pow in Hgt.
Qed.

Lemma shr_1_m mrs : 0 <= shr_m mrs -> shr_m (shr_1 mrs) = Z.shiftr (shr_m mrs) 1.
Proof.
  destruct mrs as [m r s]. simpl. intros Hm.
  destruct m as [| [p | p |] | p]; simpl; try reflexivity; lia.
Qed.

(** Shifting a mantissa right by [p] bits. *)
Lemma iter_pos_shr_1_m p : forall mrs,
  0 <= shr_m mrs ->
  shr_m (SpecFloat.iter_pos shr_1 p mrs) = Z.shiftr (shr_m mrs) (Z.pos p).
Proof.
  induction p as [p IH | p IH |]; intros mrs Hm; simpl SpecFloat.iter_pos.
  - assert (H1 : 0 <= shr_m (shr_1 mrs))
      by (rewrite shr_1_m by lia; apply Z.shiftr_nonneg; lia).
    assert (H2 : 0 <= shr_m (SpecFloat.iter_pos shr_1 p (shr_1 mrs)))
      by (rewrite IH by lia; apply Z.shiftr_nonneg; lia).
    rewrite IH, IH, shr_1_m, !Z.shiftr_shiftr by lia.
    f_equal. lia.
  - assert (H2 : 0 <= shr_m (SpecFloat.iter_pos shr_1 p mrs))
      by (rewrite IH by lia; apply Z.shiftr_nonneg; lia).
    rewrite IH, IH, !Z.shiftr_shiftr by lia.
    f_equal. lia.
  - now apply shr_1_m.
Qed.

Lemma shr_spec mrs e n :
  0 <= shr_m mrs ->
  let '(mrs', e') := shr mrs e n in
  shr_m mrs' = shr_m mrs / 2 ^ Z.max 0 n /\ e' = e + Z.max 0 n.
Proof.
  intros Hm. destruct n as [| p | p]; simpl.
  - rewrite Z.div_1_r. lia.
  - rewrite iter_pos_shr_1_m by lia. rewrite Z.shiftr_div_pow2 by lia.
    split; [reflexivity | lia].
  - rewrite Z.div_1_r. lia.
Qed.

Lemma shr_record_of_loc_m m l : shr_m (shr_record_of_loc m l) = m.
Proof. destruct l as [| []]; reflexivity. Qed.

Lemma Zdigits2_pos_bounds m :
  0 < m -> 2 ^ (Zdigits2 m - 1) <= m < 2 ^ Zdigits2 m /\ 0 < Zdigits2 m.
Proof.
  destruct m as [| p | p]; try lia. intros _. simpl.
  split; [apply digits2_pos_bounds | lia].
Qed.

Lemma Zdigits2_le m k : 0 < m -> m < 2 ^ k -> 0 <= k -> Zdigits2 m <= k.
Proof.
  intros Hm Hk Hk0. destruct (Zdigits2_pos_bounds m Hm) as [[Hlo _] Hd].
  destruct (Z_le_gt_dec (Zdigits2 m) k) as [|Hgt]; [assumption |].
  exfalso. assert (2 ^ k <= 2 ^ (Zdigits2 m - 1)) by (apply Z.pow_le_mono_r; lia).
  lia.
Qed.

(** The shift that brings a positive mantissa to 24 bits leaves it
    positive and moves the exponent by at most the number of bits dropped. *)
Lemma shr_fexp_spec m e l :
  0 < m -> -149 <= e ->
  let '(mrs', e') := shr_fexp 24 128 m e l in
  0 < shr_m mrs' <= m /\ e <= e' <= Z.max e (Zdigits2 m + e - 24).
Proof.
  intros Hm He. unfold shr_fexp.
  pose proof (shr_spec (shr_record_of_loc m l) e
                (fexp 24 128 (Zdigits2 m + e) - e)) as H.
  rewrite shr_record_of_loc_m in H. specialize (H ltac:(lia)).
  destruct (shr _ e _) as [mrs' e']. destruct H as [Hm' He'].
  destruct (Zdigits2_pos_bounds m Hm) as [[Hlo Hhi] Hd].
  unfold fexp, emin in *.
  set (n := Z.max 0 (Z.max (Zdigits2 m + e - 24) (3 - 128 - 24) - e)) in *.
  assert (Hn : 0 <= n <= Zdigits2 m - 1) by lia.
  rewrite Hm', He'. split; [| lia].
  split.
  - apply Z.div_str_pos. split; [apply Z.pow_pos_nonneg; lia |].
    transitivity (2 ^ (Zdigits2 m - 1)); [apply Z.pow_le_mono_r; lia | lia].
  - apply Z.div_le_upper_bound; [apply Z.pow_pos_nonneg; lia |].
    pose proof (Z.pow_pos_nonneg 2 n ltac:(lia) ltac:(lia)). nia.
Qed.

Lemma round_nearest_even_bounds m l :
  0 < m -> m <= round_nearest_even m l <= m + 1.
Proof.
  intros Hm. destruct l as [| []]; simpl; try lia.
  destruct (Z.even m); lia.
Qed.

(** Rounding a positive integer below [2^64], scaled by an exponent between
    [-149] and [0], neither underflows to zero nor overflows to infinity. *)
Lemma binary_round_aux_finite s m e l :
  0 < m < 2 ^ 64 -> -149 <= e <= 0 ->
  exists m' e', binary_round_aux 24 128 s m e l = S754_finite s m' e'.
Proof.
  intros Hm He. unfold binary_round_aux.
  pose proof (shr_fexp_spec m e l ltac:(lia) ltac:(lia)) as H1.
  destruct (shr_fexp 24 128 m e l) as [mrs1 e1].
  destruct H1 as [Hm1 He1].
  pose proof (Zdigits2_le m 64 ltac:(lia) ltac:(lia) ltac:(lia)) as Hd.
  pose proof (round_nearest_even_bounds (shr_m mrs1) (loc_of_shr_record mrs1)
                ltac:(lia)) as Hr.
  set (m2 := round_nearest_even (shr_m mrs1) (loc_of_shr_record mrs1)) in *.
  pose proof (shr_fexp_spec m2 e1 loc_Exact ltac:(lia) ltac:(lia)) as H2.
  destruct (shr_fexp 24 128 m2 e1 loc_Exact) as [mrs2 e2].
  destruct H2 as [Hm2 He2].
  pose proof (Zdigits2_le m2 65 ltac:(lia) ltac:(change (2^65) with (2 * 2^64); lia) ltac:(lia)) as Hd2.
  destruct (shr_m mrs2) as [| p | p] eqn:Ep; try lia.
  replace (e2 <=? 128 - 24) with true by (symmetry; apply Z.leb_le; lia).
  eauto.
Qed.

Lemma iter_xO_pow p n : Z.pos (Pos.iter xO p n) = Z.pos p * 2 ^ Z.pos n.
Proof.
  induction n as [| n IH] using Pos.peano_ind.
  - simpl. lia.
  - rewrite Pos.iter_succ, Pos2Z.inj_xO, IH, Pos2Z.inj_succ, Z.pow_succ_r by lia.
    lia.
Qed.

(** [float(n)] is a finite positive float for every non-zero [std::size_t]. *)
Lemma float_of_size_t_finite n :
  0 < n < 2 ^ 64 -> exists m e, float_of_size_t n = S754_finite false m e.
Proof.
  intros Hn. unfold float_of_size_t, binary_normalize.
  destruct n as [| p | p]; try lia.
  unfold binary_round, shl_align.
  pose proof (digits2_pos_bounds p) as [_ Hhi].
  unfold fexp, emin. rewrite Z.add_0_r, Z.sub_0_r.
  set (d := Z.pos (digits2_pos p)) in *.
  destruct (Z.max (d - 24) (3 - 128 - 24)) as [| q | q] eqn:E;
    try (apply binary_round_aux_finite; lia).
  apply binary_round_aux_finite; [| lia].
  rewrite iter_xO_pow. split; [lia |].
  assert (Hq : Z.pos q = 24 - d) by lia.
  assert (Z.pos p * 2 ^ Z.pos q < 2 ^ d * 2 ^ Z.pos q)
    by (apply Z.mul_lt_mono_pos_r; [apply Z.pow_pos_nonneg; lia | lia]).
  rewrite <- Z.pow_add_r in H by lia.
  replace (d + Z.pos q) with 24 in H by lia.
  change (2 ^ 24) with 16777216 in H. change (2 ^ 64) with 18446744073709551616. lia.
Qed.

Lemma float_div_zero_size_t (n : Z) :
  0 < n < 2 ^ 64 -> float_div float_zero (float_of_size_t n) = float_zero.
Proof.
  intros Hn. destruct (float_of_size_t_finite n Hn) as (m & e & ->).
  reflexivity.
Qed.

Lemma float_div_size_t_same (n : Z) :
  0 < n < 2 ^ 64 ->
  float_div (float_of_size_t n) (float_of_size_t n) = float_one.
Proof.
  intros Hn. destruct (float_of_size_t_finite n Hn) as (m & e & ->).
  apply float_div_same.
Qed.

Lemma diagonal_increment (n : nat) (c : list (list Z)) (k : Z) (g : nat) :
  diagonal n c k -> (g < n)%nat -> k + 1 < size_modulus ->
  diagonal n (increment c g g) (k + 1).
Proof.
  intros (Hsq & Hoff & Hpos & Hsum) Hg Hk.
  assert (Hwrap : wrap (entry c g g + 1) = entry c g g + 1).
  { apply wrap_small. pose proof (Hpos g Hg) as Hg0.
    pose proof (sum_upto_ge (fun i => entry c i i) n g Hpos Hg) as Hle.
    simpl in Hle. split; lia. }
  split; [now apply increment_square |]. split; [| split].
  - intros i j Hi Hj Hne. rewrite (entry_increment n) by assumption.
    rewrite decide_False by (intros [-> ->]; done). now apply Hoff.
  - intros i Hi. rewrite (entry_increment n) by assumption.
    specialize (Hpos i Hi). destruct (decide (i = g /\ i = g)) as [[-> _] | _];
      [rewrite Hwrap |]; lia.
  - rewrite <- Hsum.
    apply (sum_upto_incr (fun i => entry c i i) _ n g); [| exact Hg].
    intros i Hi. rewrite (entry_increment n) by assumption.
    destruct (decide (i = g)) as [-> | Hne].
    + rewrite decide_True by done. exact Hwrap.
    + rewrite decide_False by (intros [? _]; done). reflexivity.
Qed.

Lemma items_snoc (l : list Z) (z : Z) :
  items (l ++ [z]) = items l + (if decide (z = -1) then 0 else 1).
Proof.
  unfold items. rewrite filter_app, length_app. cbn.
  destruct (decide (z <> -1)) as [H | H]; destruct (decide (z = -1)); cbn;
    try lia; contradiction.
Qed.

Lemma items_le_length (l : list Z) : items l <= Z.of_nat (length l).
Proof. unfold items. pose proof (length_filter (fun z => z <> -1) l). lia. Qed.

Lemma items_nonneg (l : list Z) : 0 <= items l.
Proof. unfold items. lia. Qed.

Lemma items_take_le (l : list Z) (count : nat) :
  items (take count l) <= Z.of_nat (length l).
Proof.
  pose proof (items_le_length (take count l)). rewrite length_take in H. lia.
Qed.

(** Appending a range to itself keeps every item on the diagonal. *)
Lemma append_loop_same (n : nat) (indices : list Z) (c : list (list Z))
    (count : nat) :
  Forall (valid_index n) indices ->
  Z.of_nat (length indices) < size_modulus ->
  diagonal n c 0 ->
  (count <= length indices)%nat ->
  exists c',
    for_loop (append_step indices indices) 0 count c = Ok c'
    /\ diagonal n c' (items (take count indices)).
Proof.
  intros Hvalid Hlen Hdiag. induction count as [| count IH]; intros Hcount.
  - exists c. split; [reflexivity | exact Hdiag].
  - destruct (IH ltac:(lia)) as (c1 & Hloop & Hdiag1).
    destruct (lookup_lt_is_Some_2 indices count ltac:(lia)) as [z Ez].
    rewrite for_loop_snoc, Hloop. simpl.
    rewrite (append_step_spec n c1 _ _ count z z (proj1 Hdiag1) Ez Ez).
    rewrite (take_S_r _ _ _ Ez), items_snoc.
    destruct (decide (z = -1)) as [-> | Hz].
    + exists c1. split; [reflexivity | now rewrite Z.add_0_r].
    + replace (z =? -1) with false by (symmetry; now apply Z.eqb_neq).
      destruct (wrap_valid n z) as [-> Hr];
        [exact (proj1 (Forall_lookup _ _) Hvalid _ _ Ez) | exact Hz |].
      simpl. eexists. split; [reflexivity |].
      apply diagonal_increment; [exact Hdiag1 | exact Hr |].
      pose proof (items_take_le indices count).
      pose proof (items_snoc (take count indices) z) as Hs.
      rewrite decide_False in Hs by done.
      pose proof (items_take_le indices (S count)) as Hle.
      rewrite (take_S_r _ _ _ Ez), Hs in Hle. lia.
Qed.

Lemma take_all {A : Type} (l : list A) : take (length l) l = l.
Proof. apply firstn_all. Qed.

(** On such a matrix both sums of [accuracy] are the number of items. *)
Lemma accuracy_diagonal (ev : Evaluation) (k : Z) :
  diagonal (length (m_labels ev)) (m_confusion ev) k ->
  is_size_t k ->
  accuracy ev = Ok (float_div (float_of_size_t k) (float_of_size_t k)).
Proof.
  intros (Hsq & Hoff & Hpos & Hsum) Hk. unfold accuracy.
  set (n := length (m_labels ev)) in *. set (c := m_confusion ev) in *.
  set (body := fun (i : nat) (sums : Z * Z) => _).
  assert (Hloop : forall m, (m <= n)%nat ->
            for_loop body 0 m (0, 0)
            = Ok (wrap (sum_upto (fun i => entry c i i) m),
                  wrap (sum_upto (fun i => entry c i i) m))).
  { induction m as [| m IH]; intros Hm; [reflexivity |].
    rewrite for_loop_snoc, IH by lia. simpl.
    rewrite (confusion_at_square n) by (assumption || lia). simpl.
    rewrite (for_loop_sum _ (entry c m) n).
    - simpl. rewrite !wrap_add_l.
      rewrite (sum_upto_single (entry c m) n m) by (intros; try apply Hoff; lia).
      reflexivity.
    - intros j acc Hj.
      now rewrite (confusion_at_square n) by (assumption || lia).
    - apply wrap_is_size_t. }
  rewrite Hloop by lia. simpl. rewrite Hsum, wrap_small by exact Hk.
  reflexivity.
Qed.

Lemma items_all_excluded (l : list Z) :
  Forall (fun z => z = -1) l -> items l = 0.
Proof.
  induction 1 as [| z l Hz _ IH]; [reflexivity |].
  unfold items in *. rewrite filter_cons_False by (intros H; now apply H).
  exact IH.
Qed.

Lemma items_some_counted (l : list Z) :
  Exists (fun z => z <> -1) l -> 0 < items l.
Proof.
  induction 1 as [z l Hz | z l _ IH]; unfold items in *.
  - rewrite filter_cons_True by exact Hz. cbn. lia.
  - rewrite filter_cons. destruct (decide (z <> -1)); cbn; lia.
Qed.

Lemma new_Evaluation_diagonal (labels : list Label_handle) :
  diagonal (length labels) (m_confusion (new_Evaluation labels)) 0.
Proof.
  destruct (new_Evaluation_well_formed labels) as (Hsq & _ & _).
  split; [exact Hsq |]. split; [| split].
  - intros i j Hi Hj _. now apply new_Evaluation_entry.
  - intros i Hi. now rewrite new_Evaluation_entry.
  - apply sum_upto_zero. intros i Hi. now apply new_Evaluation_entry.
Qed.

(** C7, as the code has it: a range of label indices is appended, as
    ground truth and as result, to a newly constructed object.  When at
    least one value is not the sentinel [-1], [accuracy] returns exactly
    [1.0]; when every value is [-1] (or the range is empty), no item is
    counted and [accuracy] returns NaN. *)
Theorem accuracy_of_equal_ranges (labels : list Label_handle)
    (indices : list Z) :
  Forall (valid_index (length labels)) indices ->
  Z.of_nat (length indices) < 2 ^ 64 ->
  (Exists (fun z => z <> -1) indices ->
     (let* ev := new_Evaluation_with labels indices indices in accuracy ev)
     = Ok float_one)
  /\ (Forall (fun z => z = -1) indices ->
        (let* ev := new_Evaluation_with labels indices indices in accuracy ev)
        = Ok quiet_NaN).
Proof.
  intros Hvalid Hlen.
  destruct (append_loop_same (length labels) indices
              (m_confusion (new_Evaluation labels)) (length indices)
              Hvalid Hlen (new_Evaluation_diagonal labels) ltac:(lia))
    as (c' & Hloop & Hdiag).
  rewrite take_all in Hdiag.
  assert (Hacc :
    (let* ev := new_Evaluation_with labels indices indices in accuracy ev)
    = Ok (float_div (float_of_size_t (items indices))
                    (float_of_size_t (items indices)))).
  { unfold new_Evaluation_with, append. rewrite Hloop. simpl.
    apply accuracy_diagonal; [exact Hdiag |].
    pose proof (items_le_length indices). pose proof (items_nonneg indices).
    split; [lia |]. unfold size_modulus. lia. }
  rewrite Hacc. split; intros H.
  - rewrite float_div_size_t_same; [reflexivity |].
    pose proof (items_some_counted _ H). pose proof (items_le_length indices).
    lia.
  - now rewrite (items_all_excluded _ H).
Qed.

Lemma label_index_lt (ev : Evaluation) (label : Label_handle) :
  well_formed ev -> label ∈ m_labels ev ->
  (label_index ev label < length (m_labels ev))%nat.
Proof.
  intros (_ & _ & Hmap) Hin. unfold label_index.
  destruct (m_map_labels ev !! label) as [i |] eqn:E; simpl.
  - exact (Hmap _ _ E).
  - destruct (m_labels ev); [inversion Hin | simpl; lia].
Qed.

Lemma label_has_ground_truth_false (ev : Evaluation) (idx : nat) :
  square (length (m_labels ev)) (m_confusion ev) ->
  (idx < length (m_labels ev))%nat ->
  no_ground_truth ev idx ->
  label_has_ground_truth ev idx = Ok false.
Proof.
  intros Hsq Hidx Hno. unfold label_has_ground_truth.
  assert (H : forall count i, (i + count <= length (m_labels ev))%nat ->
            label_has_ground_truth_loop (m_confusion ev) idx i count = Ok false).
  { induction count as [| count IH]; intros i Hi; [reflexivity |]. simpl.
    rewrite (confusion_at_square _ _ _ _ Hsq) by lia.
    rewrite Hno by lia. simpl. apply IH. lia. }
  apply H. lia.
Qed.

(** C6, as the code has it: for a label of the label set without ground
    truth, [precision] and [recall] return NaN; [intersection_over_union]
    returns NaN when no item was predicted as the label either, and [0.0]
    when some item was. *)
Theorem scores_without_ground_truth (ev : Evaluation) (label : Label_handle) :
  well_formed ev ->
  label ∈ m_labels ev ->
  no_ground_truth ev (label_index ev label) ->
  precision ev label = Ok quiet_NaN
  /\ recall ev label = Ok quiet_NaN
  /\ (predicted_as ev (label_index ev label) = 0 ->
        intersection_over_union ev label = Ok quiet_NaN)
  /\ (0 < predicted_as ev (label_index ev label) < 2 ^ 64 ->
        intersection_over_union ev label = Ok float_zero).
Proof.
  intros Hwf Hin Hno.
  pose proof (label_index_lt ev label Hwf Hin) as Hidx.
  destruct Hwf as (Hsq & Hc & _).
  pose proof (label_has_ground_truth_false ev _ Hsq Hidx Hno) as Hhas.
  split; [| split].
  - unfold precision. cbv zeta. now rewrite Hhas.
  - unfold recall. cbv zeta. now rewrite Hhas.
  - unfold no_ground_truth in Hno. unfold predicted_as.
    set (idx := label_index ev label) in *.
    set (n := length (m_labels ev)) in *. set (c := m_confusion ev) in *.
    assert (Hiou : intersection_over_union ev label
                   = Ok (float_div float_zero
                           (float_of_size_t (wrap (sum_upto (entry c idx) n))))).
    { unfold intersection_over_union. cbv zeta. fold idx n c.
      rewrite (for_loop_sum _ (entry c idx) n).
      - cbn [bind]. rewrite (confusion_at_square n) by assumption.
        cbn [bind]. rewrite (Hno idx Hidx), Z.add_0_l. reflexivity.
      - intros i acc Hi.
        rewrite (confusion_at_square n) by assumption. cbn [bind].
        rewrite (Hno i Hi), Z.add_0_r.
        destruct (Nat.eqb_spec i idx) as [-> | Hne]; cbn [negb].
        + now rewrite (Hno idx Hidx), Z.add_0_r.
        + rewrite (confusion_at_square n) by assumption. cbn [bind].
          now rewrite wrap_add_l.
      - split; [lia | reflexivity]. }
    rewrite Hiou. split; intros HP.
    + rewrite HP. reflexivity.
    + rewrite wrap_small by (split; [lia | apply HP]).
      now rewrite float_div_zero_size_t.
Qed.

(** ** Further properties of the class *)

Lemma entry_is_size_t (n : nat) (c : list (list Z)) (i j : nat) :
  square n c -> Forall (Forall is_size_t) c -> (i < n)%nat -> (j < n)%nat ->
  is_size_t (entry c i j).
Proof.
  intros Hsq Hc Hi Hj. destruct (square_row n c i Hsq Hi) as [E Hlen].
  unfold entry.
  apply (proj1 (Forall_lookup _ _) (proj1 (Forall_lookup _ _) Hc _ _ E) j).
  apply list_lookup_lookup_total_lt; lia.
Qed.

(** Two square matrices with the same entries are equal. *)
Lemma square_ext (n : nat) (c1 c2 : list (list Z)) :
  square n c1 -> square n c2 ->
  (forall i j, (i < n)%nat -> (j < n)%nat -> entry c1 i j = entry c2 i j) ->
  c1 = c2.
Proof.
  intros H1 H2 Hext. apply list_eq. intros i.
  destruct (decide (i < n)%nat) as [Hi | Hi].
  - destruct (square_row n c1 i H1 Hi) as [E1 L1].
    destruct (square_row n c2 i H2 Hi) as [E2 L2].
    rewrite E1, E2. f_equal. apply list_eq. intros j.
    destruct (decide (j < n)%nat) as [Hj | Hj].
    + rewrite (list_lookup_lookup_total_lt (c1 !!! i) j) by lia.
      rewrite (list_lookup_lookup_total_lt (c2 !!! i) j) by lia.
      f_equal. now apply Hext.
    + rewrite !lookup_ge_None_2 by lia. reflexivity.
  - destruct H1 as [L1 _], H2 as [L2 _].
    rewrite !lookup_ge_None_2 by lia. reflexivity.
Qed.

Lemma counted_snoc (gt res : list Z) (x y : Z) (r g : nat) :
  length gt = length res ->
  counted (gt ++ [x]) (res ++ [y]) r g
  = counted gt res r g
    + (if decide (x = Z.of_nat g /\ y = Z.of_nat r) then 1 else 0).
Proof.
  intros Hlen. unfold counted.
  rewrite (zip_with_app pair gt [x] res [y] Hlen).
  rewrite filter_app, length_app.
  simpl zip_with. rewrite filter_cons, filter_nil. simpl.
  destruct (decide (x = Z.of_nat g /\ y = Z.of_nat r)); simpl; lia.
Qed.

Lemma valid_index_nat (n : nat) (z : Z) :
  Z.of_nat n < 2 ^ 64 -> valid_index n z -> z <> -1 ->
  z = Z.of_nat (Z.to_nat (wrap z)) /\ (Z.to_nat (wrap z) < n)%nat.
Proof.
  intros Hn [-> | Hz] Hne; [done |].
  rewrite wrap_small by (unfold is_size_t, size_modulus; lia). lia.
Qed.

(** The matrix after the first [count] iterations of the loop of
    [append]. *)
Lemma append_loop_counts (n : nat) (ground_truth result : list Z)
    (c : list (list Z)) (count : nat) :
  Z.of_nat n < 2 ^ 64 ->
  Forall (valid_index n) ground_truth -> Forall (valid_index n) result ->
  square n c -> Forall (Forall is_size_t) c ->
  (count <= length ground_truth)%nat -> (count <= length result)%nat ->
  exists c',
    for_loop (append_step ground_truth result) 0 count c = Ok c'
    /\ square n c' /\ Forall (Forall is_size_t) c'
    /\ forall r g, (r < n)%nat -> (g < n)%nat ->
         entry c' r g
         = wrap (entry c r g
                 + counted (take count ground_truth) (take count result) r g).
Proof.
  intros Hn Vgt Vres Hsq Hc.
  induction count as [| count IH]; intros Hgt Hres.
  - exists c. split; [reflexivity |]. split; [assumption |].
    split; [assumption |].
    intros r g Hr Hg. rewrite !take_0. unfold counted. simpl.
    rewrite Z.add_0_r. symmetry. apply wrap_small.
    now apply (entry_is_size_t n).
  - destruct (IH ltac:(lia) ltac:(lia)) as (c1 & Hloop & Hsq1 & Hc1 & Hent).
    destruct (lookup_lt_is_Some_2 ground_truth count ltac:(lia)) as [x Ex].
    destruct (lookup_lt_is_Some_2 result count ltac:(lia)) as [y Ey].
    rewrite for_loop_snoc, Hloop. cbn [bind]. simpl Nat.add.
    rewrite (append_step_spec n c1 _ _ count x y Hsq1 Ex Ey).
    rewrite (take_S_r _ _ _ Ex), (take_S_r _ _ _ Ey).
    assert (Hlen : length (take count ground_truth)
                   = length (take count result))
      by (rewrite !length_take; lia).
    pose proof (proj1 (Forall_lookup _ _) Vgt _ _ Ex) as Vx.
    pose proof (proj1 (Forall_lookup _ _) Vres _ _ Ey) as Vy.
    destruct ((x =? -1) || (y =? -1)) eqn:Es.
    + exists c1. split; [reflexivity |]. split; [assumption |].
      split; [assumption |].
      intros r g Hr Hg. rewrite counted_snoc by exact Hlen.
      rewrite decide_False, Z.add_0_r; [now apply Hent |].
      intros [-> ->]. apply orb_true_iff in Es as [Es | Es];
        apply Z.eqb_eq in Es; lia.
    + apply orb_false_iff in Es as [Ex1 Ey1].
      apply Z.eqb_neq in Ex1, Ey1.
      destruct (wrap_valid n x Vx Ex1) as [-> _].
      destruct (wrap_valid n y Vy Ey1) as [-> _]. simpl.
      destruct (valid_index_nat n x Hn Vx Ex1) as [Hx Hxn].
      destruct (valid_index_nat n y Hn Vy Ey1) as [Hy Hyn].
      set (g0 := Z.to_nat (wrap x)) in *. set (r0 := Z.to_nat (wrap y)) in *.
      exists (increment c1 r0 g0). split; [reflexivity |].
      split; [now apply increment_square |].
      split; [now apply increment_is_size_t |].
      intros r g Hr Hg. rewrite (entry_increment n) by assumption.
      rewrite counted_snoc by exact Hlen.
      destruct (decide (r = r0 /\ g = g0)) as [[-> ->] | Hne].
      * rewrite decide_True by (split; assumption).
        rewrite Hent by assumption. rewrite wrap_add_l. f_equal. lia.
      * rewrite decide_False, Z.add_0_r; [now apply Hent |].
        intros [Hxg Hyr]. apply Hne. split; lia.
Qed.

Lemma zip_take_length (l k : list Z) :
  zip l (take (length l) k) = zip l k.
Proof.
  revert k. induction l as [| x l IH]; intros [| y k]; simpl;
    try reflexivity.
  f_equal. apply IH.
Qed.

(** The matrix after a call of [append] that stays in bounds. *)
Lemma append_entries (ev : Evaluation) (ground_truth result : list Z) :
  well_formed ev ->
  Z.of_nat (length (m_labels ev)) < 2 ^ 64 ->
  Forall (valid_index (length (m_labels ev))) ground_truth ->
  Forall (valid_index (length (m_labels ev))) result ->
  (length ground_truth <= length result)%nat ->
  exists ev',
    append ev ground_truth result = Ok ev'
    /\ well_formed ev'
    /\ m_labels ev' = m_labels ev
    /\ m_map_labels ev' = m_map_labels ev
    /\ forall r g,
         (r < length (m_labels ev))%nat -> (g < length (m_labels ev))%nat ->
         entry (m_confusion ev') r g
         = wrap (entry (m_confusion ev) r g + counted ground_truth result r g).
Proof.
  intros (Hsq & Hc & Hmap) Hn Vgt Vres Hlen.
  destruct (append_loop_counts _ _ _ _ (length ground_truth)
              Hn Vgt Vres Hsq Hc ltac:(lia) Hlen)
    as (c' & Hloop & Hsq' & Hc' & Hent).
  unfold append. rewrite Hloop. cbn [bind].
  eexists. split; [reflexivity |].
  split; [split; [exact Hsq' | split; [exact Hc' | exact Hmap]] |].
  split; [reflexivity |]. split; [reflexivity |].
  intros r g Hr Hg. cbn [m_confusion]. rewrite (Hent r g Hr Hg).
  unfold counted. now rewrite firstn_all, zip_take_length.
Qed.

(** X3: what [append] computes: each entry grows by the number of items
    of the batch with that result and that ground truth, and nothing else
    of the object changes. *)
Theorem append_counts (ev : Evaluation) (ground_truth result : list Z) :
  well_formed ev ->
  Z.of_nat (length (m_labels ev)) < 2 ^ 64 ->
  Forall (valid_index (length (m_labels ev))) ground_truth ->
  Forall (valid_index (length (m_labels ev))) result ->
  (length ground_truth <= length result)%nat ->
  exists ev',
    append ev ground_truth result = Ok ev'
    /\ well_formed ev'
    /\ m_labels ev' = m_labels ev
    /\ m_map_labels ev' = m_map_labels ev
    /\ forall r g,
         (r < length (m_labels ev))%nat -> (g < length (m_labels ev))%nat ->
         entry (m_confusion ev') r g
         = wrap (entry (m_confusion ev) r g + counted ground_truth result r g).
Proof. exact (append_entries ev ground_truth result). Qed.

Lemma for_loop_ext {S : Type} (body1 body2 : nat -> S -> outcome S)
    (count : nat) :
  forall (first : nat) (s : S),
    (forall i s', (first <= i < first + count)%nat ->
       body1 i s' = body2 i s') ->
    for_loop body1 first count s = for_loop body2 first count s.
Proof.
  induction count as [| count IH]; intros first s H; simpl; [reflexivity |].
  rewrite H by lia. destruct (body2 first s) as [s' | w]; simpl;
    [| reflexivity].
  apply IH. intros i s'' Hi. apply H. lia.
Qed.

Lemma for_loop_shift {S : Type} (body : nat -> S -> outcome S)
    (k count : nat) :
  forall (first : nat) (s : S),
    for_loop body (k + first) count s
    = for_loop (fun i => body (k + i)%nat) first count s.
Proof.
  induction count as [| count IH]; intros first s; simpl; [reflexivity |].
  destruct (body (k + first)%nat s) as [s' | w]; simpl; [| reflexivity].
  rewrite <- IH. f_equal. lia.
Qed.

Lemma append_step_app_l (g1 g2 r1 r2 : list Z) (i : nat)
    (c : list (list Z)) :
  length g1 = length r1 -> (i < length g1)%nat ->
  append_step (g1 ++ g2) (r1 ++ r2) i c = append_step g1 r1 i c.
Proof.
  intros Hlen Hi. unfold append_step.
  now rewrite !lookup_app_l by lia.
Qed.

Lemma append_step_app_r (g1 g2 r1 r2 : list Z) (i : nat)
    (c : list (list Z)) :
  length g1 = length r1 ->
  append_step (g1 ++ g2) (r1 ++ r2) (length g1 + i) c
  = append_step g2 r2 i c.
Proof.
  intros Hlen. unfold append_step.
  rewrite (lookup_app_r g1) by lia. rewrite (lookup_app_r r1) by lia.
  now replace (length g1 + i - length g1)%nat with i by lia;
    replace (length g1 + i - length r1)%nat with i by lia.
Qed.

(** X4: appending two batches one after the other is appending their
    concatenation. *)
Theorem append_app (ev : Evaluation) (g1 g2 r1 r2 : list Z) :
  length g1 = length r1 ->
  append ev (g1 ++ g2) (r1 ++ r2)
  = let* ev1 := append ev g1 r1 in append ev1 g2 r2.
Proof.
  intros Hlen. unfold append. rewrite length_app, for_loop_split.
  rewrite (for_loop_ext _ (append_step g1 r1) (length g1))
    by (intros; apply append_step_app_l; [assumption | lia]).
  destruct (for_loop (append_step g1 r1) 0 (length g1) (m_confusion ev))
    as [c1 | w]; cbn [bind]; [| reflexivity].
  cbn [m_confusion m_labels m_map_labels].
  rewrite <- (Nat.add_0_r (0 + length g1)), Nat.add_0_l.
  rewrite for_loop_shift.
  rewrite (for_loop_ext _ (append_step g2 r2) (length g2))
    by (intros; now apply append_step_app_r).
  reflexivity.
Qed.

(** X5: the order of two batches does not matter. *)
Theorem append_comm (ev : Evaluation) (gA rA gB rB : list Z) :
  well_formed ev ->
  Z.of_nat (length (m_labels ev)) < 2 ^ 64 ->
  Forall (valid_index (length (m_labels ev))) gA ->
  Forall (valid_index (length (m_labels ev))) rA ->
  Forall (valid_index (length (m_labels ev))) gB ->
  Forall (valid_index (length (m_labels ev))) rB ->
  (length gA <= length rA)%nat -> (length gB <= length rB)%nat ->
  (let* ev1 := append ev gA rA in append ev1 gB rB)
  = (let* ev1 := append ev gB rB in append ev1 gA rA).
Proof.
  intros Hwf Hn VgA VrA VgB VrB LA LB.
  destruct (append_entries ev gA rA Hwf Hn VgA VrA LA)
    as (eA & -> & HwfA & HlA & HmA & HeA).
  destruct (append_entries ev gB rB Hwf Hn VgB VrB LB)
    as (eB & -> & HwfB & HlB & HmB & HeB).
  cbn [bind].
  destruct (append_entries eA gB rB HwfA)
    as (eAB & -> & HwfAB & HlAB & HmAB & HeAB);
    [rewrite HlA; assumption .. | exact LB |].
  destruct (append_entries eB gA rA HwfB)
    as (eBA & -> & HwfBA & HlBA & HmBA & HeBA);
    [rewrite HlB; assumption .. | exact LA |].
  f_equal.
  destruct eAB as [l1 m1 c1], eBA as [l2 m2 c2]. simpl in *.
  rewrite HlAB, HlA, HmAB, HmA, HlBA, HlB, HmBA, HmB. f_equal.
  destruct HwfAB as (Hsq1 & _), HwfBA as (Hsq2 & _). simpl in *.
  rewrite HlAB, HlA in Hsq1. rewrite HlBA, HlB in Hsq2.
  apply (square_ext _ _ _ Hsq1 Hsq2). intros i j Hi Hj.
  rewrite HeAB, HeA, HeBA, HeB by (rewrite ?HlA, ?HlB; assumption).
  rewrite !wrap_add_l. f_equal. lia.
Qed.

(** X6: a result range shorter than the ground truth is read past its
    end. *)
Theorem append_result_too_short (ev : Evaluation)
    (ground_truth result : list Z) :
  well_formed ev ->
  Forall (valid_index (length (m_labels ev))) ground_truth ->
  Forall (valid_index (length (m_labels ev))) result ->
  (length result < length ground_truth)%nat ->
  append ev ground_truth result = Out_of_bounds Result_range.
Proof.
  intros (Hsq & Hc & _) Vgt Vres Hlen. unfold append.
  replace (length ground_truth)
    with (length result + S (length ground_truth - S (length result)))%nat
    by lia.
  rewrite for_loop_split.
  pose proof (append_loop_valid _ _ _ (length result) Vgt Vres
                0%nat _ Hsq Hc ltac:(lia)) as H.
  destruct (for_loop _ 0 (length result) (m_confusion ev)) as [c1 | w].
  - cbn [bind for_loop]. unfold append_step at 1.
    destruct (lookup_lt_is_Some_2 ground_truth (0 + length result)
                ltac:(lia)) as [x ->].
    now rewrite (lookup_ge_None_2 result) by lia.
  - destruct H as [_ H]. simpl in H. lia.
Qed.

Lemma label_has_ground_truth_loop_spec (n : nat) (c : list (list Z))
    (idx : nat) :
  square n c -> (idx < n)%nat ->
  forall count i, (i + count <= n)%nat ->
    exists b,
      label_has_ground_truth_loop c idx i count = Ok b
      /\ (b = true <->
          exists k, (i <= k < i + count)%nat /\ entry c k idx <> 0).
Proof.
  intros Hsq Hidx. induction count as [| count IH]; intros i Hi; simpl.
  - exists false. split; [reflexivity |]. split; [discriminate |].
    intros (k & Hk & _). lia.
  - rewrite (confusion_at_square n) by (assumption || lia). cbn [bind].
    destruct (Z.eqb_spec (entry c i idx) 0) as [E | E]; simpl.
    + destruct (IH (S i) ltac:(lia)) as (b & -> & Hb).
      exists b. split; [reflexivity |]. rewrite Hb. split.
      * intros (k & Hk & Hne). exists k. split; [lia | exact Hne].
      * intros (k & Hk & Hne). exists k. split; [| exact Hne].
        destruct (decide (k = i)) as [-> | ?]; [contradiction | lia].
    + exists true. split; [reflexivity |]. split; [| reflexivity].
      intros _. exists i. split; [lia | exact E].
Qed.

(** What [label_has_ground_truth] returns for a column of the matrix. *)
Lemma label_has_ground_truth_column (ev : Evaluation) (idx : nat) :
  well_formed ev -> (idx < length (m_labels ev))%nat ->
  exists b,
    label_has_ground_truth ev idx = Ok b
    /\ (b = false <-> no_ground_truth ev idx).
Proof.
  intros (Hsq & _ & _) Hidx. unfold label_has_ground_truth.
  destruct (label_has_ground_truth_loop_spec _ _ idx Hsq Hidx
              (length (m_labels ev)) 0%nat ltac:(lia)) as (b & -> & Hb).
  exists b. split; [reflexivity |]. unfold no_ground_truth. split.
  - intros -> i Hi.
    destruct (Z.eq_dec (entry (m_confusion ev) i idx) 0) as [E | E];
      [exact E |].
    assert (false = true) by (apply Hb; exists i; split; [lia | exact E]).
    discriminate.
  - intros Hno. destruct b; [| reflexivity].
    destruct (proj1 Hb eq_refl) as (k & Hk & Hne).
    exfalso. apply Hne, Hno. lia.
Qed.

(** X2: [label_has_ground_truth] tells whether some item has the label as
    ground truth. *)
Theorem label_has_ground_truth_spec (ev : Evaluation) (idx : nat) :
  well_formed ev -> (idx < length (m_labels ev))%nat ->
  exists b,
    label_has_ground_truth ev idx = Ok b
    /\ (b = false <-> no_ground_truth ev idx).
Proof. exact (label_has_ground_truth_column ev idx). Qed.

(** The map built by the first loop of [init]: a handle of the list is
    sent to its last position, other handles keep their entry. *)
Lemma init_map_last (labels : list Label_handle) :
  forall (k : nat) (m : gmap Label_handle nat) (l : Label_handle),
    (l ∉ labels -> init_map labels k m !! l = m !! l)
    /\ (l ∈ labels ->
        exists i, init_map labels k m !! l = Some (k + i)%nat
                  /\ labels !! i = Some l
                  /\ forall j, labels !! j = Some l -> (j <= i)%nat).
Proof.
  induction labels as [| l0 labels IH]; intros k m l; simpl.
  - split; [reflexivity |]. intros H. inversion H.
  - destruct (IH (S k) (<[l0 := k]> m) l) as [IHout IHin]. split.
    + intros Hnot. apply not_elem_of_cons in Hnot as [Hne Hnot].
      rewrite IHout by exact Hnot. now rewrite lookup_insert_ne.
    + intros Hin. destruct (decide (l ∈ labels)) as [Hl | Hl].
      * destruct (IHin Hl) as (i & Hi & Hat & Hlast).
        exists (S i). split; [rewrite Hi; f_equal; lia |].
        split; [exact Hat |].
        intros [| j] Hj; [lia |]. simpl in Hj. apply Hlast in Hj. lia.
      * apply elem_of_cons in Hin as [-> | Hin]; [| contradiction].
        exists 0%nat. rewrite IHout by exact Hl.
        rewrite lookup_insert_eq. split; [f_equal; lia |].
        split; [reflexivity |].
        intros [| j] Hj; [lia |]. simpl in Hj.
        exfalso. apply Hl. apply list_elem_of_lookup. eauto.
Qed.

(** X1: the index of a handle. *)
Theorem label_index_new_Evaluation (labels : list Label_handle)
    (l : Label_handle) :
  (l ∈ labels ->
     labels !! label_index (new_Evaluation labels) l = Some l
     /\ forall j, labels !! j = Some l ->
          (j <= label_index (new_Evaluation labels) l)%nat)
  /\ (l ∉ labels -> label_index (new_Evaluation labels) l = 0%nat).
Proof.
  unfold label_index, new_Evaluation, init. cbn [m_map_labels m_labels].
  destruct (init_map_last labels 0 ∅ l) as [Hout Hin]. split.
  - intros H. destruct (Hin H) as (i & -> & Hat & Hlast). simpl.
    split; [exact Hat | exact Hlast].
  - intros H. rewrite (Hout H), lookup_empty. reflexivity.
Qed.

Lemma for_loop_sum_size_t (body : nat -> Z -> outcome Z) (f : nat -> Z)
    (n : nat) :
  (forall i acc, (i < n)%nat -> is_size_t acc ->
     body i acc = Ok (wrap (acc + f i))) ->
  forall acc, is_size_t acc ->
    for_loop body 0 n acc = Ok (wrap (acc + sum_upto f n)).
Proof.
  intros Hbody acc Hacc. induction n as [| n IH].
  - simpl. now rewrite Z.add_0_r, wrap_small.
  - rewrite for_loop_snoc, IH by (intros; apply Hbody; [lia | assumption]).
    cbn [bind]. rewrite Hbody by (lia || apply wrap_is_size_t).
    rewrite wrap_add_l. f_equal. simpl. f_equal. lia.
Qed.

Lemma sum_upto_add (f g : nat -> Z) (n : nat) :
  sum_upto (fun i => f i + g i) n = sum_upto f n + sum_upto g n.
Proof. induction n as [| n IH]; simpl; [reflexivity | rewrite IH; lia]. Qed.

Lemma zero_is_size_t : is_size_t 0.
Proof. split; [lia | reflexivity]. Qed.

Lemma number_of_items_total (ev : Evaluation) :
  well_formed ev ->
  number_of_items ev
  = Ok (wrap (matrix_total (length (m_labels ev)) (m_confusion ev))).
Proof.
  intros (Hsq & _ & _). unfold number_of_items, matrix_total. cbv zeta.
  set (n := length (m_labels ev)) in *. set (c := m_confusion ev) in *.
  rewrite (for_loop_sum_size_t _ (fun i => sum_upto (entry c i) n) n);
    [reflexivity | | apply zero_is_size_t].
  intros i acc Hi Hacc.
  apply (for_loop_sum _ (entry c i) n); [| exact Hacc].
  intros j acc' Hj. now rewrite (confusion_at_square n) by assumption.
Qed.

Lemma number_of_misclassified_items_total (ev : Evaluation) :
  well_formed ev ->
  number_of_misclassified_items ev
  = Ok (wrap (off_diagonal_total (length (m_labels ev)) (m_confusion ev))).
Proof.
  intros (Hsq & _ & _).
  unfold number_of_misclassified_items, off_diagonal_total. cbv zeta.
  set (n := length (m_labels ev)) in *. set (c := m_confusion ev) in *.
  rewrite (for_loop_sum_size_t _
             (fun i => sum_upto (fun j => if decide (i = j) then 0
                                          else entry c i j) n) n);
    [reflexivity | | apply zero_is_size_t].
  intros i acc Hi Hacc.
  apply (for_loop_sum_size_t _ _ n); [| exact Hacc].
  intros j acc' Hj Hacc'.
  destruct (Nat.eqb_spec i j) as [-> | Hne]; cbn [negb].
  - rewrite decide_True by reflexivity.
    now rewrite Z.add_0_r, wrap_small.
  - rewrite decide_False by exact Hne.
    now rewrite (confusion_at_square n) by assumption.
Qed.

Lemma accuracy_total (ev : Evaluation) :
  well_formed ev ->
  accuracy ev
  = Ok (float_div
          (float_of_size_t (wrap (trace (length (m_labels ev))
                                    (m_confusion ev))))
          (float_of_size_t (wrap (matrix_total (length (m_labels ev))
                                    (m_confusion ev))))).
Proof.
  intros (Hsq & _ & _). unfold accuracy, trace, matrix_total. cbv zeta.
  set (n := length (m_labels ev)) in *. set (c := m_confusion ev) in *.
  set (body := fun (i : nat) (sums : Z * Z) => _).
  assert (Hloop : forall m, (m <= n)%nat ->
            for_loop body 0 m (0, 0)
            = Ok (wrap (sum_upto (fun i => entry c i i) m),
                  wrap (sum_upto (fun i => sum_upto (entry c i) n) m))).
  { induction m as [| m IH]; intros Hm; [reflexivity |].
    rewrite for_loop_snoc, IH by lia. cbn [bind]. unfold body at 1.
    simpl Nat.add.
    rewrite (confusion_at_square n) by (assumption || lia). cbn [bind].
    rewrite (for_loop_sum _ (entry c m) n).
    - cbn [bind]. rewrite !wrap_add_l. reflexivity.
    - intros j acc Hj.
      now rewrite (confusion_at_square n) by (assumption || lia).
    - apply wrap_is_size_t. }
  rewrite Hloop by lia. reflexivity.
Qed.

Lemma row_total_split (f : nat -> Z) (n i : nat) :
  (i < n)%nat ->
  sum_upto f n
  = f i + sum_upto (fun j => if decide (i = j) then 0 else f j) n.
Proof.
  intros Hi.
  transitivity (sum_upto (fun j => (if decide (i = j) then f j else 0)
                                   + (if decide (i = j) then 0 else f j)) n).
  - apply sum_upto_ext. intros j _. destruct (decide (i = j)); lia.
  - rewrite sum_upto_add. f_equal.
    rewrite (sum_upto_single _ n i).
    + now rewrite decide_True.
    + intros j _ Hne. now rewrite decide_False by congruence.
    + exact Hi.
Qed.

Lemma matrix_total_split (n : nat) (c : list (list Z)) :
  matrix_total n c = trace n c + off_diagonal_total n c.
Proof.
  unfold matrix_total, trace, off_diagonal_total.
  rewrite <- sum_upto_add. apply sum_upto_ext. intros i Hi.
  now apply row_total_split.
Qed.

(** X8: the three global counts agree: the correctly classified items are
    the items that are not misclassified. *)
Theorem accuracy_of_counts (ev : Evaluation) :
  well_formed ev ->
  exists items wrong,
    number_of_items ev = Ok items
    /\ number_of_misclassified_items ev = Ok wrong
    /\ accuracy ev
       = Ok (float_div (float_of_size_t (wrap (items - wrong)))
               (float_of_size_t items)).
Proof.
  intros Hwf. eexists _, _.
  split; [now apply number_of_items_total |].
  split; [now apply number_of_misclassified_items_total |].
  rewrite (accuracy_total ev Hwf). do 3 f_equal.
  rewrite matrix_total_split. unfold wrap.
  rewrite <- Zminus_mod. f_equal. lia.
Qed.

Lemma sum_upto_wrap (f : nat -> Z) (n : nat) :
  wrap (sum_upto (fun i => wrap (f i)) n) = wrap (sum_upto f n).
Proof.
  induction n as [| n IH]; simpl; [reflexivity |]. unfold wrap in *.
  rewrite Zplus_mod, IH, Zmod_mod, <- Zplus_mod. reflexivity.
Qed.

(** A double sum with a single non-zero term. *)
Lemma sum_upto_single2 (n r0 g0 : nat) (a : Z) (skip : nat -> nat -> bool) :
  (r0 < n)%nat -> (g0 < n)%nat ->
  sum_upto (fun r => sum_upto (fun g =>
      if skip r g then 0
      else if decide (r = r0 /\ g = g0) then a else 0) n) n
  = if skip r0 g0 then 0 else a.
Proof.
  intros Hr Hg. rewrite (sum_upto_single _ n r0); [| | exact Hr].
  - rewrite (sum_upto_single _ n g0); [| | exact Hg].
    + now rewrite decide_True.
    + intros g _ Hne. rewrite decide_False by (intros [_ ?]; done).
      now destruct (skip r0 g).
  - intros r _ Hne. apply sum_upto_zero. intros g _.
    rewrite decide_False by (intros [? _]; done). now destruct (skip r g).
Qed.

Lemma occurrences_cons (p : Z * Z) (l : list (Z * Z)) (r g : nat) :
  occurrences (p :: l) r g
  = (if decide (p.1 = Z.of_nat g /\ p.2 = Z.of_nat r) then 1 else 0)
    + occurrences l r g.
Proof.
  unfold occurrences. rewrite filter_cons.
  destruct (decide (p.1 = Z.of_nat g /\ p.2 = Z.of_nat r)); simpl; lia.
Qed.

(** Summing the occurrences over all pairs of indices, possibly without
    the pairs [skip] excludes, counts the pairs of values that hold no
    sentinel and are not excluded. *)
Lemma sum_occurrences (n : nat) (skip : bool) (l : list (Z * Z)) :
  Forall (valid_pair n) l ->
  sum_upto (fun r => sum_upto (fun g =>
      if skip && bool_decide (r = g) then 0 else occurrences l r g) n) n
  = Z.of_nat (length (filter (fun p => ~ (skip = true /\ p.1 = p.2))
                        (filter (fun p => p.1 <> -1 /\ p.2 <> -1) l))).
Proof.
  induction 1 as [| p l [V1 V2] _ IH]; simpl.
  - apply sum_upto_zero. intros r _. apply sum_upto_zero. intros g _.
    now destruct (skip && bool_decide (r = g)).
  - transitivity
      (sum_upto (fun r => sum_upto (fun g =>
           (if skip && bool_decide (r = g) then 0
            else if decide (p.1 = Z.of_nat g /\ p.2 = Z.of_nat r)
                 then 1 else 0)
           + (if skip && bool_decide (r = g) then 0
              else occurrences l r g)) n) n).
    { apply sum_upto_ext. intros r _. apply sum_upto_ext. intros g _.
      rewrite occurrences_cons.
      destruct (skip && bool_decide (r = g)); lia. }
    rewrite (sum_upto_ext _ (fun r =>
               sum_upto (fun g =>
                 if skip && bool_decide (r = g) then 0
                 else if decide (p.1 = Z.of_nat g /\ p.2 = Z.of_nat r)
                      then 1 else 0) n
               + sum_upto (fun g =>
                   if skip && bool_decide (r = g) then 0
                   else occurrences l r g) n))
      by (intros; apply sum_upto_add).
    rewrite sum_upto_add, IH. clear IH.
    rewrite (filter_cons (fun p => p.1 <> -1 /\ p.2 <> -1)).
    destruct (decide (p.1 <> -1 /\ p.2 <> -1)) as [[N1 N2] | Hex].
    + destruct V1 as [V1 | V1]; [contradiction |].
      destruct V2 as [V2 | V2]; [contradiction |].
      set (g0 := Z.to_nat p.1). set (r0 := Z.to_nat p.2).
      rewrite (sum_upto_ext _ (fun r => sum_upto (fun g =>
                 if skip && bool_decide (r = g) then 0
                 else if decide (r = r0 /\ g = g0) then 1 else 0) n)).
      * rewrite (sum_upto_single2 n r0 g0 1
                   (fun r g => skip && bool_decide (r = g)))
          by (subst r0 g0; lia).
        rewrite filter_cons.
        destruct (decide (~ (skip = true /\ p.1 = p.2))) as [Hk | Hk].
        -- replace (skip && bool_decide (r0 = g0)) with false; [simpl; lia |].
           symmetry. apply andb_false_iff.
           destruct skip; [right | now left].
           apply bool_decide_eq_false. intros E. apply Hk.
           split; [reflexivity |]. subst r0 g0. lia.
        -- replace (skip && bool_decide (r0 = g0)) with true; [lia |].
           symmetry. apply andb_true_iff.
           destruct skip; [| exfalso; apply Hk; intros [? _]; discriminate].
           split; [reflexivity |]. apply bool_decide_eq_true.
           destruct (Z.eq_dec p.1 p.2) as [E | E];
             [subst r0 g0; now rewrite E |].
           exfalso. apply Hk. intros [_ ?]. contradiction.
      * intros r _. apply sum_upto_ext. intros g _.
        destruct (skip && bool_decide (r = g)); [reflexivity |].
        destruct (decide (p.1 = Z.of_nat g /\ p.2 = Z.of_nat r))
          as [[E1 E2] | Hn].
        -- rewrite decide_True; [reflexivity |]. subst r0 g0. lia.
        -- rewrite decide_False; [reflexivity |].
           intros [-> ->]. apply Hn. subst r0 g0. lia.
    + rewrite sum_upto_zero; [lia |].
      intros r _. apply sum_upto_zero. intros g _.
      destruct (skip && bool_decide (r = g)); [reflexivity |].
      rewrite decide_False; [reflexivity |].
      intros [E1 E2]. apply Hex. lia.
Qed.

Lemma sum_upto_wrap2 (h : nat -> nat -> Z) (n m : nat) :
  wrap (sum_upto (fun r => sum_upto (fun g => wrap (h r g)) m) n)
  = wrap (sum_upto (fun r => sum_upto (h r) m) n).
Proof.
  rewrite <- sum_upto_wrap.
  rewrite (sum_upto_ext _ (fun r => wrap (sum_upto (h r) m)))
    by (intros; apply sum_upto_wrap).
  apply sum_upto_wrap.
Qed.

Lemma valid_pair_zip (n : nat) (gt res : list Z) :
  Forall (valid_index n) gt -> Forall (valid_index n) res ->
  Forall (valid_pair n) (zip gt res).
Proof.
  intros Vgt. revert res. induction Vgt as [| x gt Vx _ IH];
    intros res Vres; [constructor |].
  destruct Vres as [| y res Vy Vres]; [constructor |].
  simpl. constructor; [split; assumption | now apply IH].
Qed.

Lemma filter_all {A : Type} (P : A -> Prop) `{forall x, Decision (P x)}
    (l : list A) :
  (forall x, P x) -> filter P l = l.
Proof.
  intros HP. induction l as [| a l IH]; [reflexivity |].
  rewrite filter_cons_True by apply HP. now rewrite IH.
Qed.

Lemma total_counted (n : nat) (gt res : list Z) :
  Forall (valid_index n) gt -> Forall (valid_index n) res ->
  sum_upto (fun r => sum_upto (counted gt res r) n) n
  = Z.of_nat (length (included gt res)).
Proof.
  intros Vgt Vres.
  pose proof (sum_occurrences n false _ (valid_pair_zip n _ _ Vgt Vres)) as H.
  rewrite filter_all in H by (intros p [? _]; discriminate).
  exact H.
Qed.

Lemma off_diagonal_counted (n : nat) (gt res : list Z) :
  Forall (valid_index n) gt -> Forall (valid_index n) res ->
  sum_upto (fun r => sum_upto (fun g => if decide (r = g) then 0
                                        else counted gt res r g) n) n
  = Z.of_nat (length (misclassified gt res)).
Proof.
  intros Vgt Vres.
  pose proof (sum_occurrences n true _ (valid_pair_zip n _ _ Vgt Vres)) as H.
  unfold misclassified, included.
  rewrite (list_filter_iff (fun p => p.1 <> p.2)
             (fun p => ~ (true = true /\ p.1 = p.2)))
    by (intros p; split; [intros Hne [_ E]; contradiction
                         | intros Hn E; apply Hn; split; [reflexivity | exact E]]).
  rewrite <- H. apply sum_upto_ext. intros r _. apply sum_upto_ext. intros g _.
  cbn [andb]. case_bool_decide.
  - now rewrite decide_True.
  - now rewrite decide_False.
Qed.

(** X7: [append] adds the items it counts to the two global counts. *)
Theorem counts_after_append (ev : Evaluation) (ground_truth result : list Z) :
  well_formed ev ->
  Z.of_nat (length (m_labels ev)) < 2 ^ 64 ->
  Forall (valid_index (length (m_labels ev))) ground_truth ->
  Forall (valid_index (length (m_labels ev))) result ->
  (length ground_truth <= length result)%nat ->
  exists ev' items wrong,
    append ev ground_truth result = Ok ev'
    /\ number_of_items ev = Ok items
    /\ number_of_misclassified_items ev = Ok wrong
    /\ number_of_items ev'
       = Ok (wrap (items
                   + Z.of_nat (length (included ground_truth result))))
    /\ number_of_misclassified_items ev'
       = Ok (wrap (wrong
                   + Z.of_nat (length (misclassified ground_truth result)))).
Proof.
  intros Hwf Hn Vgt Vres Hlen.
  destruct (append_entries ev _ _ Hwf Hn Vgt Vres Hlen)
    as (ev' & Happ & Hwf' & Hl & _ & Hent).
  exists ev'. eexists _, _. split; [exact Happ |].
  split; [now apply number_of_items_total |].
  split; [now apply number_of_misclassified_items_total |].
  rewrite (number_of_items_total ev' Hwf').
  rewrite (number_of_misclassified_items_total ev' Hwf'). rewrite Hl.
  set (n := length (m_labels ev)) in *.
  set (c := m_confusion ev) in *. set (c' := m_confusion ev') in *.
  split; f_equal.
  - rewrite wrap_add_l. rewrite <- (total_counted n) by assumption.
    unfold matrix_total. rewrite <- sum_upto_add.
    rewrite (sum_upto_ext _ (fun r => sum_upto (fun g =>
               wrap (entry c r g + counted ground_truth result r g)) n)).
    + rewrite sum_upto_wrap2. f_equal. apply sum_upto_ext. intros r _.
      now rewrite sum_upto_add.
    + intros r Hr. apply sum_upto_ext. intros g Hg. now apply Hent.
  - rewrite wrap_add_l. rewrite <- (off_diagonal_counted n) by assumption.
    unfold off_diagonal_total. rewrite <- sum_upto_add.
    rewrite (sum_upto_ext _ (fun r => sum_upto (fun g =>
               wrap (if decide (r = g) then 0
                     else entry c r g + counted ground_truth result r g))
               n)).
    + rewrite sum_upto_wrap2. f_equal. apply sum_upto_ext. intros r _.
      rewrite <- sum_upto_add. apply sum_upto_ext. intros g _.
      destruct (decide (r = g)); lia.
    + intros r Hr. apply sum_upto_ext. intros g Hg.
      destruct (decide (r = g)); [reflexivity |]. now apply Hent.
Qed.

Lemma label_index_any (ev : Evaluation) (label : Label_handle) :
  well_formed ev -> m_labels ev <> [] ->
  (label_index ev label < length (m_labels ev))%nat.
Proof.
  intros (_ & _ & Hmap) Hne. unfold label_index.
  destruct (m_map_labels ev !! label) as [i |] eqn:E; simpl.
  - exact (Hmap _ _ E).
  - destruct (m_labels ev); [contradiction | simpl; lia].
Qed.

Lemma entry_nonneg (ev : Evaluation) (i j : nat) :
  well_formed ev ->
  (i < length (m_labels ev))%nat -> (j < length (m_labels ev))%nat ->
  0 <= entry (m_confusion ev) i j < 2 ^ 64.
Proof.
  intros (Hsq & Hc & _) Hi Hj.
  exact (entry_is_size_t _ _ i j Hsq Hc Hi Hj).
Qed.

Lemma ground_truth_of_zero (ev : Evaluation) (idx : nat) :
  no_ground_truth ev idx -> ground_truth_of ev idx = 0.
Proof. intros H. apply sum_upto_zero. exact H. Qed.

(** The value of [precision] for a label with ground truth. *)
Lemma precision_value (ev : Evaluation) (label : Label_handle) :
  well_formed ev ->
  (label_index ev label < length (m_labels ev))%nat ->
  ~ no_ground_truth ev (label_index ev label) ->
  let idx := label_index ev label in
  precision ev label
  = Ok (if wrap (predicted_as ev idx) =? 0 then float_zero
        else float_div (float_of_size_t (entry (m_confusion ev) idx idx))
               (float_of_size_t (wrap (predicted_as ev idx)))).
Proof.
  intros Hwf Hidx Hgt idx.
  destruct (label_has_ground_truth_column ev _ Hwf Hidx) as (b & Hb & Hiff).
  destruct Hwf as (Hsq & _ & _).
  unfold precision. cbv zeta. fold idx. fold idx in Hb, Hiff. rewrite Hb.
  cbn [bind]. destruct b; [| exfalso; now apply Hgt, Hiff]. cbn [negb].
  rewrite (for_loop_sum _ (entry (m_confusion ev) idx)
             (length (m_labels ev))).
  - cbn [bind]. rewrite Z.add_0_l. fold (predicted_as ev idx).
    destruct (wrap (predicted_as ev idx) =? 0); [reflexivity |].
    now rewrite (confusion_at_square _ _ _ _ Hsq).
  - intros i acc Hi. now rewrite (confusion_at_square _ _ _ _ Hsq).
  - apply zero_is_size_t.
Qed.

(** The value of [recall] for a label with ground truth. *)
Lemma recall_value (ev : Evaluation) (label : Label_handle) :
  well_formed ev ->
  (label_index ev label < length (m_labels ev))%nat ->
  ~ no_ground_truth ev (label_index ev label) ->
  let idx := label_index ev label in
  recall ev label
  = Ok (float_div (float_of_size_t (entry (m_confusion ev) idx idx))
          (float_of_size_t (wrap (ground_truth_of ev idx)))).
Proof.
  intros Hwf Hidx Hgt idx.
  destruct (label_has_ground_truth_column ev _ Hwf Hidx) as (b & Hb & Hiff).
  destruct Hwf as (Hsq & _ & _).
  unfold recall. cbv zeta. fold idx. fold idx in Hb, Hiff. rewrite Hb.
  cbn [bind]. destruct b; [| exfalso; now apply Hgt, Hiff]. cbn [negb].
  rewrite (for_loop_sum _ (fun i => entry (m_confusion ev) i idx)
             (length (m_labels ev))).
  - cbn [bind]. rewrite Z.add_0_l. fold (ground_truth_of ev idx).
    now rewrite (confusion_at_square _ _ _ _ Hsq).
  - intros i acc Hi. now rewrite (confusion_at_square _ _ _ _ Hsq).
  - apply zero_is_size_t.
Qed.

(** The value of [intersection_over_union]. *)
Lemma intersection_over_union_value (ev : Evaluation)
    (label : Label_handle) :
  well_formed ev ->
  (label_index ev label < length (m_labels ev))%nat ->
  let idx := label_index ev label in
  intersection_over_union ev label
  = Ok (float_div (float_of_size_t (entry (m_confusion ev) idx idx))
          (float_of_size_t
             (wrap (ground_truth_of ev idx + predicted_as ev idx
                    - entry (m_confusion ev) idx idx)))).
Proof.
  intros (Hsq & _ & _) Hidx idx. fold idx in Hidx.
  unfold intersection_over_union. cbv zeta. fold idx.
  set (n := length (m_labels ev)) in *. set (c := m_confusion ev) in *.
  rewrite (for_loop_sum _
             (fun i => entry c i idx
                       + (if decide (idx = i) then 0 else entry c idx i)) n).
  - cbn [bind]. rewrite (confusion_at_square n) by assumption. cbn [bind].
    do 4 f_equal. rewrite Z.add_0_l, sum_upto_add.
    unfold ground_truth_of, predicted_as. fold n c.
    rewrite (row_total_split (entry c idx) n idx Hidx). lia.
  - intros i acc Hi. rewrite (confusion_at_square n) by assumption.
    cbn [bind].
    destruct (Nat.eqb_spec i idx) as [-> | Hne]; cbn [negb].
    + rewrite decide_True by reflexivity. now rewrite Z.add_0_r.
    + rewrite decide_False by congruence.
      rewrite (confusion_at_square n) by assumption. cbn [bind].
      rewrite wrap_add_l. f_equal. f_equal. lia.
  - apply zero_is_size_t.
Qed.

Lemma has_ground_truth_of_positive (ev : Evaluation) (idx : nat) :
  0 < ground_truth_of ev idx -> ~ no_ground_truth ev idx.
Proof. intros Hpos Hno. rewrite (ground_truth_of_zero _ _ Hno) in Hpos. lia. Qed.

Lemma float_div_zero_wrap (z : Z) :
  wrap z <> 0 -> float_div float_zero (float_of_size_t (wrap z)) = float_zero.
Proof.
  intros Hne. apply float_div_zero_size_t.
  pose proof (wrap_is_size_t z) as [H0 H1]. unfold size_modulus in H1. lia.
Qed.

(** X9: a label with ground truth none of whose items was classified
    correctly has precision, recall and F1 score [0.0]. *)
Theorem f1_score_zero (ev : Evaluation) (label : Label_handle) :
  well_formed ev ->
  label ∈ m_labels ev ->
  let idx := label_index ev label in
  0 < ground_truth_of ev idx < 2 ^ 64 ->
  entry (m_confusion ev) idx idx = 0 ->
  precision ev label = Ok float_zero
  /\ recall ev label = Ok float_zero
  /\ f1_score ev label = Ok float_zero.
Proof.
  intros Hwf Hin idx Hgt Htp.
  pose proof (label_index_lt ev label Hwf Hin) as Hidx. fold idx in Hidx.
  pose proof (has_ground_truth_of_positive ev idx (proj1 Hgt)) as Hhas.
  assert (Hp : precision ev label = Ok float_zero).
  { rewrite (precision_value ev label Hwf Hidx Hhas). cbv zeta. fold idx.
    rewrite Htp. destruct (Z.eqb_spec (wrap (predicted_as ev idx)) 0);
      [reflexivity |].
    change (float_of_size_t 0) with float_zero.
    now rewrite float_div_zero_wrap. }
  assert (Hr : recall ev label = Ok float_zero).
  { rewrite (recall_value ev label Hwf Hidx Hhas). cbv zeta. fold idx.
    rewrite Htp, wrap_small by (split; [lia | apply Hgt]).
    change (float_of_size_t 0) with float_zero.
    now rewrite float_div_zero_size_t. }
  split; [exact Hp |]. split; [exact Hr |].
  unfold f1_score. rewrite Hp, Hr. reflexivity.
Qed.

(** X10: the F1 score of a label without ground truth is NaN. *)
Theorem f1_score_without_ground_truth (ev : Evaluation)
    (label : Label_handle) :
  well_formed ev ->
  label ∈ m_labels ev ->
  no_ground_truth ev (label_index ev label) ->
  f1_score ev label = Ok quiet_NaN.
Proof.
  intros Hwf Hin Hno.
  pose proof (label_index_lt ev label Hwf Hin) as Hidx.
  destruct Hwf as (Hsq & _ & _).
  pose proof (label_has_ground_truth_false ev _ Hsq Hidx Hno) as Hhas.
  unfold f1_score, precision, recall. cbv zeta. rewrite Hhas. reflexivity.
Qed.

(** X11: a label whose row and column hold nothing but correctly classified
    items has precision, recall, intersection over union and F1 score
    [1.0]. *)
Theorem scores_of_perfect_label (ev : Evaluation) (label : Label_handle) :
  well_formed ev ->
  label ∈ m_labels ev ->
  let idx := label_index ev label in
  0 < entry (m_confusion ev) idx idx ->
  (forall i, (i < length (m_labels ev))%nat -> i <> idx ->
     entry (m_confusion ev) i idx = 0 /\ entry (m_confusion ev) idx i = 0) ->
  precision ev label = Ok float_one
  /\ recall ev label = Ok float_one
  /\ intersection_over_union ev label = Ok float_one
  /\ f1_score ev label = Ok float_one.
Proof.
  intros Hwf Hin idx Htp Hoff.
  pose proof (label_index_lt ev label Hwf Hin) as Hidx. fold idx in Hidx.
  pose proof (entry_nonneg ev idx idx Hwf Hidx Hidx) as Hrange.
  assert (Hcol : ground_truth_of ev idx = entry (m_confusion ev) idx idx).
  { unfold ground_truth_of.
    apply (sum_upto_single (fun i => entry (m_confusion ev) i idx));
      [| exact Hidx].
    intros i Hi Hne. now apply Hoff. }
  assert (Hrow : predicted_as ev idx = entry (m_confusion ev) idx idx).
  { unfold predicted_as. apply sum_upto_single; [| exact Hidx].
    intros i Hi Hne. now apply Hoff. }
  assert (Hhas : ~ no_ground_truth ev idx)
    by (apply has_ground_truth_of_positive; lia).
  set (tp := entry (m_confusion ev) idx idx) in *.
  assert (Htp' : 0 < tp < 2 ^ 64) by lia.
  assert (Hw : wrap tp = tp) by (apply wrap_small; split; [lia | apply Hrange]).
  assert (Hp : precision ev label = Ok float_one).
  { rewrite (precision_value ev label Hwf Hidx Hhas). cbv zeta. fold idx.
    rewrite Hrow. fold tp. rewrite Hw.
    replace (tp =? 0) with false by (symmetry; apply Z.eqb_neq; lia).
    now rewrite float_div_size_t_same. }
  assert (Hr : recall ev label = Ok float_one).
  { rewrite (recall_value ev label Hwf Hidx Hhas). cbv zeta. fold idx.
    rewrite Hcol. fold tp. rewrite Hw. now rewrite float_div_size_t_same. }
  split; [exact Hp |]. split; [exact Hr |]. split.
  - rewrite (intersection_over_union_value ev label Hwf Hidx). cbv zeta.
    fold idx. rewrite Hcol, Hrow. fold tp.
    replace (tp + tp - tp) with tp by lia. rewrite Hw.
    now rewrite float_div_size_t_same.
  - unfold f1_score. rewrite Hp, Hr. reflexivity.
Qed.

(** X12: as long as no item was counted, the counts are zero and every
    global score is NaN. *)
Theorem scores_without_items (ev : Evaluation) :
  well_formed ev ->
  (forall i j, (i < length (m_labels ev))%nat ->
     (j < length (m_labels ev))%nat -> entry (m_confusion ev) i j = 0) ->
  number_of_items ev = Ok 0
  /\ number_of_misclassified_items ev = Ok 0
  /\ accuracy ev = Ok quiet_NaN
  /\ mean_f1_score ev = Ok quiet_NaN
  /\ mean_intersection_over_union ev = Ok quiet_NaN.
Proof.
  intros Hwf Hzero.
  set (n := length (m_labels ev)) in *. set (c := m_confusion ev) in *.
  assert (Htot : matrix_total n c = 0).
  { apply sum_upto_zero. intros i Hi. apply sum_upto_zero. intros j Hj.
    now apply Hzero. }
  assert (Hoff : off_diagonal_total n c = 0).
  { apply sum_upto_zero. intros i Hi. apply sum_upto_zero. intros j Hj.
    destruct (decide (i = j)); [reflexivity | now apply Hzero]. }
  assert (Htr : trace n c = 0).
  { apply sum_upto_zero. intros i Hi. now apply Hzero. }
  split; [rewrite (number_of_items_total ev Hwf); fold n c;
          now rewrite Htot |].
  split; [rewrite (number_of_misclassified_items_total ev Hwf); fold n c;
          now rewrite Hoff |].
  split; [rewrite (accuracy_total ev Hwf); fold n c;
          now rewrite Htot, Htr |].
  split.
  - unfold mean_f1_score. fold n.
    assert (Hloop : forall m, (m <= n)%nat ->
              for_loop
                (fun i (acc : float * Z) =>
                   let '(mean, nb) := acc in
                   let* has := label_has_ground_truth ev i in
                   if has then
                     match m_labels ev !! i with
                     | Some label =>
                         let* f := f1_score ev label in
                         Ok (float_add mean f, wrap (nb + 1))
                     | None => Ok acc
                     end
                   else Ok acc) 0 m (float_zero, 0) = Ok (float_zero, 0)).
    { induction m as [| m IH]; intros Hm; [reflexivity |].
      rewrite for_loop_snoc, IH by lia. cbn [bind]. simpl Nat.add.
      rewrite (label_has_ground_truth_false ev m (proj1 Hwf)); [reflexivity | |].
      - fold n. lia.
      - intros i Hi. apply Hzero; fold n; lia. }
    rewrite Hloop by lia. reflexivity.
  - unfold mean_intersection_over_union. fold n.
    assert (Hloop : forall m, (m <= n)%nat ->
              for_loop
                (fun i (acc : float * Z) =>
                   let '(mean, nb) := acc in
                   match m_labels ev !! i with
                   | Some label =>
                       let* iou := intersection_over_union ev label in
                       if negb (isnan iou)
                       then Ok (float_add mean iou, wrap (nb + 1))
                       else Ok acc
                   | None => Ok acc
                   end) 0 m (float_zero, 0) = Ok (float_zero, 0)).
    { induction m as [| m IH]; intros Hm; [reflexivity |].
      rewrite for_loop_snoc, IH by lia. cbn [bind]. simpl Nat.add.
      destruct (m_labels ev !! m) as [label |] eqn:E; [| reflexivity].
      assert (Hin : label ∈ m_labels ev)
        by (apply list_elem_of_lookup; eauto).
      pose proof (label_index_lt ev label Hwf Hin) as Hidx.
      rewrite (intersection_over_union_value ev label Hwf Hidx). cbv zeta.
      fold n c in Hidx |- *.
      rewrite (Hzero _ _ Hidx Hidx).
      unfold ground_truth_of, predicted_as. fold n c.
      rewrite !sum_upto_zero by (intros; apply Hzero; assumption).
      reflexivity. }
    rewrite Hloop by lia. reflexivity.
Qed.

(** X13: with a non-empty label set no score of a label reads outside the
    matrix, whatever the handle. *)
Theorem label_scores_in_bounds (ev : Evaluation) (label : Label_handle) :
  well_formed ev -> m_labels ev <> [] ->
  (exists p, precision ev label = Ok p)
  /\ (exists r, recall ev label = Ok r)
  /\ (exists u, intersection_over_union ev label = Ok u)
  /\ (exists f, f1_score ev label = Ok f).
Proof.
  intros Hwf Hne.
  pose proof (label_index_any ev label Hwf Hne) as Hidx.
  assert (Hp : exists p, precision ev label = Ok p).
  { destruct (label_has_ground_truth_column ev _ Hwf Hidx) as ([|] & Hb & Hiff).
    - eexists. apply precision_value; [assumption .. |].
      intros Hno. apply Hiff in Hno. discriminate.
    - exists quiet_NaN. unfold precision. cbv zeta. now rewrite Hb. }
  assert (Hr : exists r, recall ev label = Ok r).
  { destruct (label_has_ground_truth_column ev _ Hwf Hidx) as ([|] & Hb & Hiff).
    - eexists. apply recall_value; [assumption .. |].
      intros Hno. apply Hiff in Hno. discriminate.
    - exists quiet_NaN. unfold recall. cbv zeta. now rewrite Hb. }
  split; [exact Hp |]. split; [exact Hr |]. split.
  - eexists. now apply intersection_over_union_value.
  - destruct Hp as [p Hp], Hr as [r Hr]. unfold f1_score. rewrite Hp, Hr.
    cbn [bind]. destruct (float_eqb p float_zero && float_eqb r float_zero);
      eauto.
Qed.

(** X14: with an empty label set [precision] and [recall] return NaN and
    [intersection_over_union] reads the empty matrix out of bounds. *)
Theorem label_scores_of_empty_set (ev : Evaluation) (label : Label_handle) :
  well_formed ev -> m_labels ev = [] ->
  precision ev label = Ok quiet_NaN
  /\ recall ev label = Ok quiet_NaN
  /\ intersection_over_union ev label = Out_of_bounds Confusion_matrix.
Proof.
  intros ((Hlen & _) & _ & _) Hnil. rewrite Hnil in Hlen. simpl in Hlen.
  apply nil_length_inv in Hlen.
  unfold precision, recall, intersection_over_union, label_has_ground_truth.
  cbv zeta. rewrite Hnil, Hlen. repeat split; reflexivity.
Qed.

(** ** The definitions evaluated on two labels *)

(** Two labels and one item, of ground truth the first label and classified
    as the second. *)
Definition demo_labels : list Label_handle := [10%nat; 20%nat].

Definition demo_evaluation : Evaluation :=
  {| m_labels := demo_labels;
     m_map_labels := m_map_labels (new_Evaluation demo_labels);
     m_confusion := [[0; 0]; [1; 0]] |}.

Example demo_evaluation_built :
  new_Evaluation_with demo_labels [0] [1] = Ok demo_evaluation.
Proof. reflexivity. Qed.

Example demo_label_indices :
  label_index demo_evaluation 10%nat = 0%nat
  /\ label_index demo_evaluation 20%nat = 1%nat.
Proof. split; reflexivity. Qed.

Ltac valid_indices :=
  repeat (apply List.Forall_cons; [unfold valid_index; simpl; lia |]);
  apply List.Forall_nil.

Lemma demo_evaluation_well_formed : well_formed demo_evaluation.
Proof.
  destruct (append_valid_ok (new_Evaluation demo_labels) [0] [1])
    as (ev' & Happ & Hwf & _).
  - apply new_Evaluation_well_formed.
  - valid_indices.
  - valid_indices.
  - reflexivity.
  - change (append (new_Evaluation demo_labels) [0] [1])
      with (new_Evaluation_with demo_labels [0] [1]) in Happ.
    rewrite demo_evaluation_built in Happ. now injection Happ as <-.
Qed.

Lemma demo_second_label_in_set : 20%nat ∈ m_labels demo_evaluation.
Proof. right. left. Qed.

Lemma demo_second_label_without_ground_truth :
  no_ground_truth demo_evaluation (label_index demo_evaluation 20%nat).
Proof. intros [| [| i]] Hi; [reflexivity | reflexivity | simpl in Hi; lia]. Qed.

Example demo_scores :
  precision demo_evaluation 20%nat = Ok quiet_NaN
  /\ recall demo_evaluation 20%nat = Ok quiet_NaN
  /\ intersection_over_union demo_evaluation 20%nat = Ok float_zero
  /\ accuracy demo_evaluation = Ok float_zero.
Proof. repeat split; reflexivity. Qed.

(** The scores of the second label, which no item has as ground truth and
    one item was classified as. *)
Lemma scores_without_ground_truth_witness :
  precision demo_evaluation 20%nat = Ok quiet_NaN
  /\ recall demo_evaluation 20%nat = Ok quiet_NaN
  /\ intersection_over_union demo_evaluation 20%nat = Ok float_zero.
Proof.
  destruct (scores_without_ground_truth demo_evaluation 20%nat
              demo_evaluation_well_formed demo_second_label_in_set
              demo_second_label_without_ground_truth)
    as (Hp & Hr & _ & Hiou).
  split; [exact Hp |]. split; [exact Hr |].
  apply Hiou. split; reflexivity.
Defined.

(** C6, as the specification words it, fails: the second label of
    [demo_evaluation] has no ground truth, and its intersection over union
    is [0 / float(1)], which is [0.0]. *)
Lemma nan_without_ground_truth_fails : ~ nan_without_ground_truth.
Proof.
  intros H.
  destruct (H demo_evaluation 20%nat demo_evaluation_well_formed
              demo_second_label_in_set
              demo_second_label_without_ground_truth) as (_ & _ & Hiou).
  discriminate Hiou.
Qed.

Lemma demo_indices_valid :
  Forall (valid_index (length demo_labels)) [0; 1; 1; -1].
Proof. valid_indices. Qed.

Lemma demo_sentinels_valid :
  Forall (valid_index (length demo_labels)) [-1; -1].
Proof. valid_indices. Qed.

(** Three counted items and one excluded item; then no counted item. *)
Lemma accuracy_of_equal_ranges_witness :
  (let* ev := new_Evaluation_with demo_labels [0; 1; 1; -1] [0; 1; 1; -1] in
   accuracy ev) = Ok float_one
  /\ (let* ev := new_Evaluation_with demo_labels [-1; -1] [-1; -1] in
      accuracy ev) = Ok quiet_NaN.
Proof.
  split.
  - apply (proj1 (accuracy_of_equal_ranges demo_labels [0; 1; 1; -1]
                    demo_indices_valid eq_refl)).
    left. discriminate.
  - apply (proj2 (accuracy_of_equal_ranges demo_labels [-1; -1]
                    demo_sentinels_valid eq_refl)).
    repeat constructor.
Defined.

(** C7, as the specification words it, fails: two empty ranges are equal
    elementwise, and [accuracy] is then [0 / float(0)], which is NaN. *)
Lemma accuracy_one_on_equal_ranges_fails : ~ accuracy_one_on_equal_ranges.
Proof.
  intros H. specialize (H demo_labels [] (List.Forall_nil _)).
  discriminate H.
Qed.

Lemma demo_new_well_formed : well_formed (new_Evaluation demo_labels).
Proof. apply new_Evaluation_well_formed. Qed.

Ltac int_values :=
  repeat (apply List.Forall_cons; [unfold is_int; lia |]);
  apply List.Forall_nil.

(** Indices of the two labels; then the index [5] at a position that is
    counted. *)
Lemma append_in_bounds_witness :
  append (new_Evaluation demo_labels) [0; 1; -1] [1; 1; 0]
    <> Out_of_bounds Confusion_matrix
  /\ append (new_Evaluation demo_labels) [0; 5] [0; 0]
     = Out_of_bounds Confusion_matrix.
Proof.
  split.
  - apply (proj1 (append_in_bounds (new_Evaluation demo_labels)
                    [0; 1; -1] [1; 1; 0] demo_new_well_formed
                    ltac:(int_values) ltac:(int_values))).
    + valid_indices.
    + valid_indices.
  - apply (proj2 (append_in_bounds (new_Evaluation demo_labels)
                    [0; 5] [0; 0] demo_new_well_formed
                    ltac:(int_values) ltac:(int_values))).
    + reflexivity.
    + exists 1%nat, 5, 0.
      split; [reflexivity |]. split; [reflexivity |].
      split; [discriminate |]. split; [discriminate |].
      left. unfold valid_index. simpl. lia.
Defined.

(** C9, as the specification words it, fails: the index [5] is out of range
    for two labels and is not the sentinel, but the result at its position is
    [-1], so the position is skipped and no access leaves the matrix. *)
Lemma out_of_range_index_is_unsafe_fails : ~ out_of_range_index_is_unsafe.
Proof.
  intros H.
  specialize (H (new_Evaluation demo_labels) [0; 5] [0; -1]
                demo_new_well_formed ltac:(int_values) ltac:(int_values)
                eq_refl).
  assert (Hex : Exists (fun z => ~ valid_index
                                    (length (m_labels (new_Evaluation demo_labels)))
                                    z)
                  ([0; 5] ++ [0; -1])).
  { right. left. unfold valid_index. simpl. lia. }
  specialize (H Hex). discriminate H.
Qed.

Example demo_append_out_of_bounds :
  append (new_Evaluation demo_labels) [0; 5] [0; 0]
    = Out_of_bounds Confusion_matrix
  /\ append (new_Evaluation demo_labels) [0; -2] [0; 0]
     = Out_of_bounds Confusion_matrix
  /\ append (new_Evaluation demo_labels) [0; 1] [0]
     = Out_of_bounds Result_range.
Proof. repeat split; reflexivity. Qed.

(** ** The further properties at concrete objects *)

(** Two items of the first label and one of the second, all classified
    correctly. *)
Definition demo_perfect : Evaluation :=
  {| m_labels := demo_labels;
     m_map_labels := m_map_labels (new_Evaluation demo_labels);
     m_confusion := [[2; 0]; [0; 1]] |}.

Example demo_perfect_built :
  new_Evaluation_with demo_labels [0; 0; 1] [0; 0; 1] = Ok demo_perfect.
Proof. reflexivity. Qed.

Lemma demo_perfect_well_formed : well_formed demo_perfect.
Proof.
  destruct (append_valid_ok (new_Evaluation demo_labels) [0; 0; 1] [0; 0; 1])
    as (ev' & Happ & Hwf & _).
  - apply new_Evaluation_well_formed.
  - valid_indices.
  - valid_indices.
  - reflexivity.
  - change (append (new_Evaluation demo_labels) [0; 0; 1] [0; 0; 1])
      with (new_Evaluation_with demo_labels [0; 0; 1] [0; 0; 1]) in Happ.
    rewrite demo_perfect_built in Happ. now injection Happ as <-.
Qed.

Lemma demo_first_label_in_set : 10%nat ∈ m_labels demo_evaluation.
Proof. left. Qed.

Lemma demo_repeated_label_in_set : 10%nat ∈ [10%nat; 20%nat; 10%nat].
Proof. left. Qed.

Lemma demo_unknown_label_not_in_set : 30%nat ∉ [10%nat; 20%nat; 10%nat].
Proof. rewrite !elem_of_cons, elem_of_nil. lia. Qed.

(** A handle that occurs twice is sent to its second position, an unknown
    handle to [0]. *)
Lemma label_index_new_Evaluation_witness :
  label_index (new_Evaluation [10%nat; 20%nat; 10%nat]) 10%nat = 2%nat
  /\ label_index (new_Evaluation [10%nat; 20%nat; 10%nat]) 30%nat = 0%nat.
Proof.
  split.
  - destruct (proj1 (label_index_new_Evaluation [10%nat; 20%nat; 10%nat]
                       10%nat) demo_repeated_label_in_set) as [_ Hlast].
    specialize (Hlast 2%nat eq_refl).
    destruct (label_index (new_Evaluation [10%nat; 20%nat; 10%nat]) 10%nat)
      as [| [| [| i]]] eqn:E; try lia. discriminate E.
  - exact (proj2 (label_index_new_Evaluation [10%nat; 20%nat; 10%nat]
                    30%nat) demo_unknown_label_not_in_set).
Defined.

Lemma label_has_ground_truth_spec_witness :
  exists b,
    label_has_ground_truth demo_evaluation 1 = Ok b
    /\ (b = false <-> no_ground_truth demo_evaluation 1).
Proof.
  apply label_has_ground_truth_spec;
    [exact demo_evaluation_well_formed | simpl; lia].
Defined.

Lemma demo_ranges_valid :
  Forall (valid_index (length (m_labels (new_Evaluation demo_labels))))
    [0; 1; -1]
  /\ Forall (valid_index (length (m_labels (new_Evaluation demo_labels))))
       [1; 1; 0]
  /\ Forall (valid_index (length (m_labels (new_Evaluation demo_labels))))
       [0; 1].
Proof. repeat split; valid_indices. Qed.

Lemma append_counts_witness :
  exists ev',
    append (new_Evaluation demo_labels) [0; 1; -1] [1; 1; 0] = Ok ev'
    /\ well_formed ev'
    /\ m_labels ev' = demo_labels
    /\ m_map_labels ev' = m_map_labels (new_Evaluation demo_labels)
    /\ forall r g, (r < 2)%nat -> (g < 2)%nat ->
         entry (m_confusion ev') r g
         = wrap (entry (m_confusion (new_Evaluation demo_labels)) r g
                 + counted [0; 1; -1] [1; 1; 0] r g).
Proof.
  apply (append_counts (new_Evaluation demo_labels) [0; 1; -1] [1; 1; 0]
           demo_new_well_formed eq_refl
           (proj1 demo_ranges_valid) (proj1 (proj2 demo_ranges_valid))).
  simpl; lia.
Defined.

Lemma append_app_witness :
  append (new_Evaluation demo_labels) ([0; 1] ++ [1; -1]) ([1; 1] ++ [0; 0])
  = let* ev1 := append (new_Evaluation demo_labels) [0; 1] [1; 1] in
    append ev1 [1; -1] [0; 0].
Proof.
  apply (append_app (new_Evaluation demo_labels) [0; 1] [1; -1] [1; 1] [0; 0]).
  reflexivity.
Defined.

Lemma append_comm_witness :
  (let* ev1 := append (new_Evaluation demo_labels) [0; 1; -1] [1; 1; 0] in
   append ev1 [0; 1] [0; 1])
  = (let* ev1 := append (new_Evaluation demo_labels) [0; 1] [0; 1] in
     append ev1 [0; 1; -1] [1; 1; 0]).
Proof.
  apply (append_comm (new_Evaluation demo_labels)
           [0; 1; -1] [1; 1; 0] [0; 1] [0; 1]
           demo_new_well_formed eq_refl
           (proj1 demo_ranges_valid) (proj1 (proj2 demo_ranges_valid))
           (proj2 (proj2 demo_ranges_valid))
           (proj2 (proj2 demo_ranges_valid)));
    simpl; lia.
Defined.

Lemma append_result_too_short_witness :
  append (new_Evaluation demo_labels) [0; 1; -1] [0; 1]
  = Out_of_bounds Result_range.
Proof.
  apply (append_result_too_short (new_Evaluation demo_labels)
           [0; 1; -1] [0; 1] demo_new_well_formed
           (proj1 demo_ranges_valid) (proj2 (proj2 demo_ranges_valid))).
  simpl; lia.
Defined.

Lemma counts_after_append_witness :
  exists ev' items wrong,
    append (new_Evaluation demo_labels) [0; 1; -1] [1; 1; 0] = Ok ev'
    /\ number_of_items (new_Evaluation demo_labels) = Ok items
    /\ number_of_misclassified_items (new_Evaluation demo_labels) = Ok wrong
    /\ number_of_items ev' = Ok (wrap (items + 2))
    /\ number_of_misclassified_items ev' = Ok (wrap (wrong + 1)).
Proof.
  apply (counts_after_append (new_Evaluation demo_labels)
           [0; 1; -1] [1; 1; 0] demo_new_well_formed eq_refl
           (proj1 demo_ranges_valid) (proj1 (proj2 demo_ranges_valid))).
  simpl; lia.
Defined.

Lemma accuracy_of_counts_witness :
  exists items wrong,
    number_of_items demo_perfect = Ok items
    /\ number_of_misclassified_items demo_perfect = Ok wrong
    /\ accuracy demo_perfect
       = Ok (float_div (float_of_size_t (wrap (items - wrong)))
               (float_of_size_t items)).
Proof. exact (accuracy_of_counts demo_perfect demo_perfect_well_formed). Defined.

(** The first label of [demo_evaluation]: one item has it as ground truth
    and was classified as the second label. *)
Lemma f1_score_zero_witness :
  precision demo_evaluation 10%nat = Ok float_zero
  /\ recall demo_evaluation 10%nat = Ok float_zero
  /\ f1_score demo_evaluation 10%nat = Ok float_zero.
Proof.
  apply (f1_score_zero demo_evaluation 10%nat demo_evaluation_well_formed
           demo_first_label_in_set).
  - split; reflexivity.
  - reflexivity.
Defined.

Lemma f1_score_without_ground_truth_witness :
  f1_score demo_evaluation 20%nat = Ok quiet_NaN.
Proof.
  exact (f1_score_without_ground_truth demo_evaluation 20%nat
           demo_evaluation_well_formed demo_second_label_in_set
           demo_second_label_without_ground_truth).
Defined.

Lemma demo_perfect_off_diagonal :
  forall i, (i < length (m_labels demo_perfect))%nat ->
    i <> label_index demo_perfect 10%nat ->
    entry (m_confusion demo_perfect) i (label_index demo_perfect 10%nat) = 0
    /\ entry (m_confusion demo_perfect) (label_index demo_perfect 10%nat) i
       = 0.
Proof.
  intros [| [| i]] Hi Hne; simpl in Hi.
  - now contradiction Hne.
  - split; reflexivity.
  - lia.
Qed.

Lemma scores_of_perfect_label_witness :
  precision demo_perfect 10%nat = Ok float_one
  /\ recall demo_perfect 10%nat = Ok float_one
  /\ intersection_over_union demo_perfect 10%nat = Ok float_one
  /\ f1_score demo_perfect 10%nat = Ok float_one.
Proof.
  apply (scores_of_perfect_label demo_perfect 10%nat
           demo_perfect_well_formed demo_first_label_in_set).
  - reflexivity.
  - exact demo_perfect_off_diagonal.
Defined.

Lemma scores_without_items_witness :
  number_of_items (new_Evaluation demo_labels) = Ok 0
  /\ number_of_misclassified_items (new_Evaluation demo_labels) = Ok 0
  /\ accuracy (new_Evaluation demo_labels) = Ok quiet_NaN
  /\ mean_f1_score (new_Evaluation demo_labels) = Ok quiet_NaN
  /\ mean_intersection_over_union (new_Evaluation demo_labels)
     = Ok quiet_NaN.
Proof.
  apply (scores_without_items (new_Evaluation demo_labels)
           demo_new_well_formed).
  intros i j Hi Hj. now apply new_Evaluation_entry.
Defined.

(** The handle [99] is not one of [demo_evaluation]. *)
Lemma label_scores_in_bounds_witness :
  (exists p, precision demo_evaluation 99%nat = Ok p)
  /\ (exists r, recall demo_evaluation 99%nat = Ok r)
  /\ (exists u, intersection_over_union demo_evaluation 99%nat = Ok u)
  /\ (exists f, f1_score demo_evaluation 99%nat = Ok f).
Proof.
  apply (label_scores_in_bounds demo_evaluation 99%nat
           demo_evaluation_well_formed).
  discriminate.
Defined.

Lemma label_scores_of_empty_set_witness :
  precision (new_Evaluation []) 5%nat = Ok quiet_NaN
  /\ recall (new_Evaluation []) 5%nat = Ok quiet_NaN
  /\ intersection_over_union (new_Evaluation []) 5%nat
     = Out_of_bounds Confusion_matrix.
Proof.
  apply (label_scores_of_empty_set (new_Evaluation []) 5%nat
           (new_Evaluation_well_formed [])).
  reflexivity.
Defined.

Example demo_global_scores :
  number_of_items demo_evaluation = Ok 1
  /\ number_of_misclassified_items demo_evaluation = Ok 1
  /\ mean_f1_score demo_evaluation = Ok float_zero
  /\ mean_intersection_over_union demo_evaluation = Ok float_zero
  /\ mean_f1_score demo_perfect = Ok float_one
  /\ mean_intersection_over_union demo_perfect = Ok float_one.
Proof. repeat split; reflexivity. Qed.

End Evaluation.

(* ===================================================================== *)
(** * Reading a LAS file into a point set                                 *)
(* ===================================================================== *)

Module ReadLas.

Local Open Scope string_scope.
Local Open Scope list_scope.
Local Open Scope Z_scope.

(** ** The reader of libLAS *)

(** [liblas::Color] and [liblas::Point], with the values their accessors
    return: coordinates are [double]s, the return number and the three
    colour components are [uint16_t]s. *)
Record Color : Set := mkColor { GetRed : Z; GetGreen : Z; GetBlue : Z }.

Record Las_point : Set := mkLasPoint
  { GetX : Q; GetY : Q; GetZ : Q;
    GetReturnNumber : Z;
    GetColor : Color }.

(** The conversion to [unsigned char] performed by [put] on a map of
    [unsigned char]s. *)
Definition to_unsigned_char (z : Z) : Z := z mod 256.

(** ** The point set *)

Record Point_3 : Set := mkPoint_3 { x : Q; y : Q; z : Q }.

(** Modelled from the spec: [CGAL::Point_set_3] (CGAL/Point_set_3.h, not
    among the sources) as a sequence of points with "named per-point property
    channels": each channel has a default value and one value per point. *)
Record Property_array : Set := mkArray
  { array_default : Z; array_values : list Z }.

Record Point_set_3 : Type := mkSet
  { m_points : list Point_3;
    m_base : gmap string Property_array }.

Definition size (ps : Point_set_3) : nat := length (m_points ps).

(** Modelled from the spec: [add_property_map<unsigned char>(name, t)]
    returns the channel of that name, created with value [t] for every
    point when the set has none, and whether it was created. *)
Definition add_property_map (name : string) (t : Z) (ps : Point_set_3)
    : (string * bool) * Point_set_3 :=
  match m_base ps !! name with
  | Some _ => ((name, false), ps)
  | None =>
      ((name, true),
       mkSet (m_points ps)
             (<[name := mkArray t (replicate (size ps) t)]> (m_base ps)))
  end.

(** Modelled from the spec: [insert(p)] adds a point, which gets the
    default value in every channel, and returns its index. *)
Definition insert (p : Point_3) (ps : Point_set_3) : nat * Point_set_3 :=
  (size ps,
   mkSet (m_points ps ++ [p])
         ((fun a => mkArray (array_default a)
                      (array_values a ++ [array_default a]))
            <$> m_base ps)).

(** Modelled from the spec: [put(map, it, v)] and [get(map, it)] write and
    read the value of a point in a channel. *)
Definition put (map : string) (it : nat) (v : Z) (ps : Point_set_3)
    : Point_set_3 :=
  mkSet (m_points ps)
        (alter (fun a => mkArray (array_default a)
                           (<[it := to_unsigned_char v]> (array_values a)))
           map (m_base ps)).

Definition get (map : string) (it : nat) (ps : Point_set_3) : option Z :=
  a ← m_base ps !! map; array_values a !! it.

(** Modelled from the spec: [remove_property_map(map)] drops a channel. *)
Definition remove_property_map (map : string) (ps : Point_set_3)
    : Point_set_3 :=
  mkSet (m_points ps) (delete map (m_base ps)).

(** ** The function *)

(** The body of [while (reader.ReadNextPoint())], for the point read. *)
Definition read_point (echo_map red_map green_map blue_map : string)
    (p : Las_point) (point_set : Point_set_3) : Point_set_3 :=
  let '(it, point_set) :=
    insert (mkPoint_3 (GetX p) (GetY p) (GetZ p)) point_set in
  let point_set := put echo_map it (GetReturnNumber p) point_set in
  let c := GetColor p in
  let point_set := put red_map it (Z.shiftr (GetRed c) 8) point_set in
  let point_set := put green_map it (Z.shiftr (GetGreen c) 8) point_set in
  put blue_map it (Z.shiftr (GetBlue c) 8) point_set.

(** [get(map, *it) != 0]. *)
Definition nonzero (map : string) (it : nat) (ps : Point_set_3) : bool :=
  match get map it ps with
  | Some v => negb (v =? 0)
  | None => false   (* not reached: the map exists and [it] is in the set *)
  end.

(** The loop over the point set, from iterator [it] on, with its [break]. *)
Fixpoint scan (echo_map red_map green_map blue_map : string)
    (point_set : Point_set_3) (it count : nat)
    (remove_echo remove_colors : bool) : bool * bool :=
  match count with
  | O => (remove_echo, remove_colors)
  | S count' =>
      let remove_echo :=
        if nonzero echo_map it point_set then false else remove_echo in
      let remove_colors :=
        if nonzero red_map it point_set
           || nonzero green_map it point_set
           || nonzero blue_map it point_set
        then false else remove_colors in
      if negb remove_echo && negb remove_colors
      then (remove_echo, remove_colors)
      else scan echo_map red_map green_map blue_map point_set
             (S it) count' remove_echo remove_colors
  end.

(** [read_las_point_set(stream, point_set)]; [stream] is the sequence of
    points the reader created for the stream delivers. *)
Definition read_las_point_set (stream : list Las_point)
    (point_set : Point_set_3) : bool * Point_set_3 :=
  let '((echo_map, _), point_set) := add_property_map "echo" 0 point_set in
  let '((red_map, _), point_set) := add_property_map "red" 0 point_set in
  let '((green_map, _), point_set) := add_property_map "green" 0 point_set in
  let '((blue_map, _), point_set) := add_property_map "blue" 0 point_set in
  let point_set :=
    foldl (fun ps p => read_point echo_map red_map green_map blue_map p ps)
      point_set stream in
  let '(remove_echo, remove_colors) :=
    scan echo_map red_map green_map blue_map point_set 0 (size point_set)
      true true in
  let point_set :=
    if remove_echo then remove_property_map echo_map point_set
    else point_set in
  let point_set :=
    if remove_colors
    then remove_property_map blue_map
           (remove_property_map green_map
              (remove_property_map red_map point_set))
    else point_set in
  (true, point_set).

(** ** Notions used in the statements *)

Definition empty_point_set : Point_set_3 := mkSet [] ∅.

(** The values of a channel, when the set has it. *)
Definition channel (name : string) (ps : Point_set_3) : option (list Z) :=
  array_values <$> (m_base ps !! name).

(** Every channel has one value per point. *)
Definition well_formed (ps : Point_set_3) : Prop :=
  forall name a, m_base ps !! name = Some a ->
    length (array_values a) = size ps.

(** The values [add_property_map (name, 0)] finds or creates. *)
Definition channel_before (name : string) (ps : Point_set_3) : list Z :=
  match m_base ps !! name with
  | Some a => array_values a
  | None => replicate (size ps) 0
  end.

(** The values stored for a point of the reader. *)
Definition echo_of (p : Las_point) : Z :=
  to_unsigned_char (GetReturnNumber p).
Definition red_of (p : Las_point) : Z :=
  to_unsigned_char (Z.shiftr (GetRed (GetColor p)) 8).
Definition green_of (p : Las_point) : Z :=
  to_unsigned_char (Z.shiftr (GetGreen (GetColor p)) 8).
Definition blue_of (p : Las_point) : Z :=
  to_unsigned_char (Z.shiftr (GetBlue (GetColor p)) 8).

Definition all_zero (l : list Z) : bool := forallb (fun v => v =? 0) l.

(** The claim "a channel is dropped exactly when it is uniformly zero", for
    a set that is empty before the call. *)
Definition uniformly_zero_channels_dropped : Prop :=
  forall stream,
    let out := snd (read_las_point_set stream empty_point_set) in
    let kept_iff_nonzero name values :=
      channel name out = if all_zero values then None else Some values in
    kept_iff_nonzero "echo" (map echo_of stream)
    /\ kept_iff_nonzero "red" (map red_of stream)
    /\ kept_iff_nonzero "green" (map green_of stream)
    /\ kept_iff_nonzero "blue" (map blue_of stream).

(** The four channels of the function, with their values. *)
Definition channels (ps : Point_set_3) (e r g b : list Z) : Prop :=
  well_formed ps
  /\ channel "echo" ps = Some e /\ channel "red" ps = Some r
  /\ channel "green" ps = Some g /\ channel "blue" ps = Some b.

(** The point stored for a point of the reader. *)
Definition point_of (p : Las_point) : Point_3 :=
  mkPoint_3 (GetX p) (GetY p) (GetZ p).

(** A channel extended by its default value for [k] new points. *)
Definition padded (k : nat) (a : Property_array) : Property_array :=
  mkArray (array_default a)
    (array_values a ++ replicate k (array_default a)).

(** The name of one of the four channels of the function. *)
Definition las_channel (name : string) : Prop :=
  name = "echo" \/ name = "red" \/ name = "green" \/ name = "blue".

(** The set between the two loops of the function: the four channels
    added, the points read. *)
Definition after_reading (stream : list Las_point) (ps : Point_set_3)
    : Point_set_3 :=
  foldl (fun ps p => read_point "echo" "red" "green" "blue" p ps)
    (add_property_map "blue" 0
       (add_property_map "green" 0
          (add_property_map "red" 0
             (add_property_map "echo" 0 ps).2).2).2).2
    stream.

(** The three components of the colour of a point are 16-bit values. *)
Definition color_16_bit (p : Las_point) : Prop :=
  0 <= GetRed (GetColor p) < 65536
  /\ 0 <= GetGreen (GetColor p) < 65536
  /\ 0 <= GetBlue (GetColor p) < 65536.

(** The three components of the colour of a point are below 256. *)
Definition color_in_low_byte (p : Las_point) : Prop :=
  GetRed (GetColor p) < 256
  /\ GetGreen (GetColor p) < 256
  /\ GetBlue (GetColor p) < 256.

(** ** Properties *)

Lemma channel_Some (name : string) (ps : Point_set_3) (l : list Z) :
  channel name ps = Some l <->
  exists d, m_base ps !! name = Some (mkArray d l).
Proof.
  unfold channel. split.
  - destruct (m_base ps !! name) as [[d l'] |]; simpl; [| discriminate].
    intros [= <-]. eauto.
  - intros [d ->]. reflexivity.
Qed.

Lemma add_property_map_spec (name : string) (ps : Point_set_3) :
  well_formed ps ->
  exists created ps',
    add_property_map name 0 ps = ((name, created), ps')
    /\ well_formed ps'
    /\ size ps' = size ps
    /\ channel name ps' = Some (channel_before name ps)
    /\ (forall other, other <> name ->
          m_base ps' !! other = m_base ps !! other).
Proof.
  intros Hwf. unfold add_property_map, channel_before, channel.
  destruct (m_base ps !! name) as [a |] eqn:E.
  - exists false, ps. rewrite E. repeat split; auto.
  - eexists true, _. split; [reflexivity |]. simpl. repeat split.
    + intros n a. simpl. destruct (decide (name = n)) as [-> | Hne].
      * rewrite lookup_insert_eq. intros [= <-]. simpl.
        apply length_replicate.
      * rewrite lookup_insert_ne by done. apply Hwf.
    + now rewrite lookup_insert_eq.
    + intros other Hne. now rewrite lookup_insert_ne.
Qed.

Lemma channel_before_other (name other : string) (ps ps' : Point_set_3) :
  size ps' = size ps ->
  m_base ps' !! other = m_base ps !! other ->
  channel_before other ps' = channel_before other ps.
Proof. intros Hs Hb. unfold channel_before. now rewrite Hb, Hs. Qed.

Lemma channel_other (other : string) (ps ps' : Point_set_3) :
  m_base ps' !! other = m_base ps !! other ->
  channel other ps' = channel other ps.
Proof. intros Hb. unfold channel. now rewrite Hb. Qed.

Lemma insert_at_end (l : list Z) (n : nat) (d v : Z) :
  length l = n -> <[n := v]> (l ++ [d]) = l ++ [v].
Proof.
  revert n. induction l as [| a l IH]; intros n <-; simpl; [reflexivity |].
  f_equal. now apply IH.
Qed.

Lemma well_formed_insert (p : Point_3) (ps : Point_set_3) :
  well_formed ps -> well_formed (snd (insert p ps)).
Proof.
  intros Hwf name a. unfold insert, size. simpl.
  rewrite lookup_fmap. destruct (m_base ps !! name) as [a0 |] eqn:E;
    simpl; [| discriminate].
  intros [= <-]. simpl. rewrite !length_app. simpl.
  now rewrite (Hwf _ _ E).
Qed.

Lemma well_formed_put (map : string) (it : nat) (v : Z) (ps : Point_set_3) :
  well_formed ps -> well_formed (put map it v ps).
Proof.
  intros Hwf name a. unfold put, size. simpl.
  rewrite lookup_alter. case_decide as Hd.
  - subst name.
    destruct (m_base ps !! map) as [a0 |] eqn:E; simpl; [| discriminate].
    intros [= <-]. simpl. rewrite length_insert. exact (Hwf _ _ E).
  - apply Hwf.
Qed.

Lemma channel_put (name map : string) (it : nat) (v : Z)
    (ps : Point_set_3) :
  channel name (put map it v ps) =
    if decide (map = name)
    then (fun l => <[it := to_unsigned_char v]> l) <$> channel name ps
    else channel name ps.
Proof.
  unfold channel, put. simpl. rewrite lookup_alter.
  case_decide; [subst name | reflexivity].
  now destruct (m_base ps !! map).
Qed.

Lemma channel_insert (name : string) (p : Point_3) (ps : Point_set_3)
    (l : list Z) :
  channel name ps = Some l ->
  exists d, channel name (snd (insert p ps)) = Some (l ++ [d]).
Proof.
  intros H. apply channel_Some in H as [d H]. exists d.
  unfold channel, insert. simpl. now rewrite lookup_fmap, H.
Qed.

Lemma channel_length (name : string) (ps : Point_set_3) (l : list Z) :
  well_formed ps -> channel name ps = Some l -> length l = size ps.
Proof.
  intros Hwf H. apply channel_Some in H as [d H]. exact (Hwf _ _ H).
Qed.

Ltac channel_of_puts :=
  rewrite !channel_put;
  repeat first [ rewrite decide_False by discriminate
               | rewrite decide_True by reflexivity ].

(** Reading one point appends its four values to the four channels. *)
Lemma read_point_channels (p : Las_point) (ps : Point_set_3)
    (e r g b : list Z) :
  channels ps e r g b ->
  channels (read_point "echo" "red" "green" "blue" p ps)
    (e ++ [echo_of p]) (r ++ [red_of p])
    (g ++ [green_of p]) (b ++ [blue_of p])
  /\ size (read_point "echo" "red" "green" "blue" p ps) = S (size ps).
Proof.
  intros (Hwf & He & Hr & Hg & Hb).
  pose proof (channel_length _ _ _ Hwf He) as Le.
  pose proof (channel_length _ _ _ Hwf Hr) as Lr.
  pose proof (channel_length _ _ _ Hwf Hg) as Lg.
  pose proof (channel_length _ _ _ Hwf Hb) as Lb.
  set (q := mkPoint_3 (GetX p) (GetY p) (GetZ p)).
  destruct (channel_insert _ q _ _ He) as [de He'].
  destruct (channel_insert _ q _ _ Hr) as [dr Hr'].
  destruct (channel_insert _ q _ _ Hg) as [dg Hg'].
  destruct (channel_insert _ q _ _ Hb) as [db Hb'].
  unfold read_point. fold q.
  change (insert q ps) with (size ps, snd (insert q ps)). cbv iota zeta.
  split; [| unfold size; simpl; rewrite length_app; simpl; lia].
  split; [| repeat split].
  - repeat apply well_formed_put. now apply well_formed_insert.
  - channel_of_puts. rewrite He'. simpl. now rewrite insert_at_end.
  - channel_of_puts. rewrite Hr'. simpl. now rewrite insert_at_end.
  - channel_of_puts. rewrite Hg'. simpl. now rewrite insert_at_end.
  - channel_of_puts. rewrite Hb'. simpl. now rewrite insert_at_end.
Qed.

(** Reading the whole stream appends the values of all its points. *)
Lemma read_stream_channels (stream : list Las_point) :
  forall (ps : Point_set_3) (e r g b : list Z),
    channels ps e r g b ->
    channels
      (foldl (fun ps p => read_point "echo" "red" "green" "blue" p ps)
         ps stream)
      (e ++ map echo_of stream) (r ++ map red_of stream)
      (g ++ map green_of stream) (b ++ map blue_of stream).
Proof.
  induction stream as [| p stream IH]; intros ps e r g b H; simpl.
  - now rewrite !app_nil_r.
  - destruct (read_point_channels p ps e r g b H) as [H' _].
    specialize (IH _ _ _ _ _ H').
    now rewrite <- !app_assoc in IH.
Qed.

Lemma get_channel (name : string) (it : nat) (ps : Point_set_3)
    (l : list Z) :
  channel name ps = Some l -> get name it ps = l !! it.
Proof.
  intros H. apply channel_Some in H as [d H]. unfold get. now rewrite H.
Qed.

(** The value of a list at an index is zero, or the index is past its
    end. *)
Definition zero_at (l : list Z) (it : nat) : bool :=
  match l !! it with Some v => v =? 0 | None => true end.

Lemma nonzero_channel (name : string) (it : nat) (ps : Point_set_3)
    (l : list Z) :
  channel name ps = Some l -> nonzero name it ps = negb (zero_at l it).
Proof.
  intros H. unfold nonzero, zero_at. rewrite (get_channel _ _ _ _ H).
  now destruct (l !! it).
Qed.

Lemma forallb_fmap {A B : Type} (f : B -> bool) (h : A -> B) (l : list A) :
  forallb f (h <$> l) = forallb (fun a => f (h a)) l.
Proof.
  induction l as [| a l IH]; simpl; [reflexivity |]. f_equal. exact IH.
Qed.

Lemma forallb_andb {A : Type} (f g : A -> bool) (l : list A) :
  forallb (fun a => f a && g a) l = forallb f l && forallb g l.
Proof.
  induction l as [| a l IH]; simpl; [reflexivity |]. rewrite IH.
  destruct (f a), (g a), (forallb f l); reflexivity.
Qed.

Lemma forallb_zero_at (l : list Z) :
  forallb (zero_at l) (seq 0 (length l)) = all_zero l.
Proof.
  induction l as [| a l IH]; [reflexivity |].
  change (forallb (zero_at (a :: l)) (seq 0 (length (a :: l))))
    with ((a =? 0) && forallb (zero_at (a :: l)) (seq 1 (length l))).
  rewrite <- fmap_S_seq, forallb_fmap.
  unfold all_zero in *. simpl. now rewrite <- IH.
Qed.

(** The scan computes, for the iterators it is given, whether the echo
    channel and whether the three colour channels hold only zeros. *)
Lemma scan_spec (ps : Point_set_3) (e r g b : list Z) :
  channels ps e r g b ->
  forall (count it : nat) (remove_echo remove_colors : bool),
    scan "echo" "red" "green" "blue" ps it count remove_echo remove_colors
    = (remove_echo && forallb (zero_at e) (seq it count),
       remove_colors
       && forallb (fun i => zero_at r i && zero_at g i && zero_at b i)
            (seq it count)).
Proof.
  intros (_ & He & Hr & Hg & Hb).
  induction count as [| count IH]; intros it re rc; simpl.
  - now rewrite !andb_true_r.
  - rewrite (nonzero_channel _ _ _ _ He), (nonzero_channel _ _ _ _ Hr),
      (nonzero_channel _ _ _ _ Hg), (nonzero_channel _ _ _ _ Hb).
    rewrite IH.
    destruct re, rc, (zero_at e it), (zero_at r it), (zero_at g it),
      (zero_at b it); reflexivity.
Qed.

Lemma channel_remove (name map : string) (ps : Point_set_3) :
  channel name (remove_property_map map ps) =
    if decide (map = name) then None else channel name ps.
Proof.
  unfold channel, remove_property_map. simpl. rewrite lookup_delete.
  now case_decide.
Qed.

(** C8, as the code has it: after the call the echo channel is dropped
    exactly when it holds only zeros; the three colour channels are dropped
    together, exactly when all three hold only zeros, and are otherwise all
    kept, a uniformly zero one included.  A kept channel holds the values it
    had before the call followed by the values of the points read. *)
Theorem channels_after_reading (stream : list Las_point)
    (point_set : Point_set_3) :
  well_formed point_set ->
  let out := snd (read_las_point_set stream point_set) in
  let echo := channel_before "echo" point_set ++ map echo_of stream in
  let red := channel_before "red" point_set ++ map red_of stream in
  let green := channel_before "green" point_set ++ map green_of stream in
  let blue := channel_before "blue" point_set ++ map blue_of stream in
  let no_colors := all_zero red && all_zero green && all_zero blue in
  channel "echo" out = (if all_zero echo then None else Some echo)
  /\ channel "red" out = (if no_colors then None else Some red)
  /\ channel "green" out = (if no_colors then None else Some green)
  /\ channel "blue" out = (if no_colors then None else Some blue).
Proof.
  intros Hwf. cbv zeta. unfold read_las_point_set.
  destruct (add_property_map_spec "echo" point_set Hwf)
    as (c1 & ps1 & E1 & Hwf1 & Hs1 & He1 & Ho1).
  destruct (add_property_map_spec "red" ps1 Hwf1)
    as (c2 & ps2 & E2 & Hwf2 & Hs2 & Hr2 & Ho2).
  destruct (add_property_map_spec "green" ps2 Hwf2)
    as (c3 & ps3 & E3 & Hwf3 & Hs3 & Hg3 & Ho3).
  destruct (add_property_map_spec "blue" ps3 Hwf3)
    as (c4 & ps4 & E4 & Hwf4 & Hs4 & Hb4 & Ho4).
  rewrite E1. cbv beta iota zeta. rewrite E2. cbv beta iota zeta.
  rewrite E3. cbv beta iota zeta. rewrite E4. cbv beta iota zeta.
  assert (H4 : channels ps4 (channel_before "echo" point_set)
                 (channel_before "red" point_set)
                 (channel_before "green" point_set)
                 (channel_before "blue" point_set)).
  { split; [exact Hwf4 |]. repeat split.
    - rewrite (channel_other "echo" ps3 ps4), (channel_other "echo" ps2 ps3),
        (channel_other "echo" ps1 ps2); auto.
    - rewrite (channel_other "red" ps3 ps4), (channel_other "red" ps2 ps3),
        Hr2; auto.
      f_equal. apply (channel_before_other "echo"); auto.
    - rewrite (channel_other "green" ps3 ps4), Hg3; auto.
      f_equal.
      rewrite (channel_before_other "red" "green" ps1 ps2); auto.
      apply (channel_before_other "echo"); auto.
    - rewrite Hb4. f_equal.
      rewrite (channel_before_other "green" "blue" ps2 ps3); auto.
      rewrite (channel_before_other "red" "blue" ps1 ps2); auto.
      apply (channel_before_other "echo"); auto. }
  apply (read_stream_channels stream) in H4.
  set (echo := channel_before "echo" point_set ++ map echo_of stream) in *.
  set (red := channel_before "red" point_set ++ map red_of stream) in *.
  set (green := channel_before "green" point_set ++ map green_of stream) in *.
  set (blue := channel_before "blue" point_set ++ map blue_of stream) in *.
  set (no_colors := all_zero red && all_zero green && all_zero blue).
  set (ps5 := foldl _ ps4 stream) in *.
  pose proof (scan_spec ps5 _ _ _ _ H4 (size ps5) 0%nat true true) as Hscan.
  destruct H4 as (Hwf5 & He & Hr & Hg & Hb).
  assert (Fe : forallb (zero_at echo) (seq 0 (size ps5)) = all_zero echo).
  { rewrite <- (channel_length _ _ _ Hwf5 He). apply forallb_zero_at. }
  assert (Fc : forallb (fun i => zero_at red i && zero_at green i
                                 && zero_at blue i) (seq 0 (size ps5))
               = no_colors).
  { rewrite !forallb_andb. unfold no_colors.
    rewrite <- (forallb_zero_at red), <- (forallb_zero_at green),
      <- (forallb_zero_at blue).
    now rewrite (channel_length _ _ _ Hwf5 Hr),
      (channel_length _ _ _ Hwf5 Hg), (channel_length _ _ _ Hwf5 Hb). }
  rewrite Fe, Fc in Hscan. simpl in Hscan.
  rewrite Hscan. cbv beta iota zeta.
  destruct (all_zero echo), no_colors; simpl;
    repeat first [ rewrite channel_remove
                 | rewrite decide_False by discriminate
                 | rewrite decide_True by reflexivity ];
    auto.
Qed.

(** C10: the function returns [true] for every sequence of points the
    reader delivers and every point set. *)
Theorem read_las_point_set_returns_true (stream : list Las_point)
    (point_set : Point_set_3) :
  fst (read_las_point_set stream point_set) = true.
Proof.
  unfold read_las_point_set.
  repeat match goal with
         | |- context [add_property_map ?n ?t ?ps] =>
             destruct (add_property_map n t ps) as [[? ?] ?]
         end.
  destruct (scan _ _ _ _ _ _ _ _ _) as [remove_echo remove_colors].
  reflexivity.
Qed.

(** ** Further properties of the function *)

Lemma add_property_map_name (name : string) (t : Z) (ps : Point_set_3) :
  (add_property_map name t ps).1.1 = name.
Proof. unfold add_property_map. now destruct (m_base ps !! name). Qed.

Lemma add_property_map_points (name : string) (t : Z) (ps : Point_set_3) :
  m_points (add_property_map name t ps).2 = m_points ps.
Proof. unfold add_property_map. now destruct (m_base ps !! name). Qed.

Lemma add_property_map_other (name other : string) (t : Z)
    (ps : Point_set_3) :
  other <> name ->
  m_base (add_property_map name t ps).2 !! other = m_base ps !! other.
Proof.
  intros Hne. unfold add_property_map.
  destruct (m_base ps !! name); [reflexivity |]. simpl.
  now rewrite lookup_insert_ne.
Qed.

Lemma read_point_points (p : Las_point) (ps : Point_set_3) :
  m_points (read_point "echo" "red" "green" "blue" p ps)
  = m_points ps ++ [point_of p].
Proof. reflexivity. Qed.

Lemma read_point_other (name : string) (p : Las_point) (ps : Point_set_3) :
  ~ las_channel name ->
  m_base (read_point "echo" "red" "green" "blue" p ps) !! name
  = padded 1 <$> m_base ps !! name.
Proof.
  intros Hne. unfold las_channel in Hne. unfold read_point, put, insert.
  cbn [m_base].
  rewrite !lookup_alter.
  repeat (rewrite decide_False by (intros <-; tauto)).
  now rewrite lookup_fmap.
Qed.

Lemma padded_padded (j k : nat) (a : Property_array) :
  padded k (padded j a) = padded (j + k) a.
Proof.
  unfold padded. simpl. now rewrite <- app_assoc, replicate_add.
Qed.

Lemma read_stream_points (stream : list Las_point) :
  forall ps,
    m_points (foldl (fun ps p => read_point "echo" "red" "green" "blue" p ps)
                ps stream)
    = m_points ps ++ map point_of stream.
Proof.
  induction stream as [| p stream IH]; intros ps; simpl.
  - now rewrite app_nil_r.
  - rewrite IH, read_point_points, <- app_assoc. reflexivity.
Qed.

Lemma read_stream_other (name : string) (stream : list Las_point) :
  ~ las_channel name ->
  forall ps,
    m_base (foldl (fun ps p => read_point "echo" "red" "green" "blue" p ps)
              ps stream) !! name
    = padded (length stream) <$> m_base ps !! name.
Proof.
  intros Hne. induction stream as [| p stream IH]; intros ps; simpl.
  - destruct (m_base ps !! name) as [[d l] |]; [| reflexivity].
    simpl. unfold padded. simpl. now rewrite app_nil_r.
  - rewrite IH, (read_point_other name p ps Hne).
    destruct (m_base ps !! name) as [a |]; [| reflexivity].
    simpl. now rewrite padded_padded.
Qed.

(** The result of the function: the set after the first loop, without the
    channels the second loop found to hold only zeros. *)
Lemma read_las_point_set_result (stream : list Las_point)
    (point_set : Point_set_3) :
  well_formed point_set ->
  let echo := channel_before "echo" point_set ++ map echo_of stream in
  let red := channel_before "red" point_set ++ map red_of stream in
  let green := channel_before "green" point_set ++ map green_of stream in
  let blue := channel_before "blue" point_set ++ map blue_of stream in
  let ps := after_reading stream point_set in
  channels ps echo red green blue
  /\ read_las_point_set stream point_set
     = (true,
        let ps1 := if all_zero echo then remove_property_map "echo" ps
                   else ps in
        if all_zero red && all_zero green && all_zero blue
        then remove_property_map "blue"
               (remove_property_map "green"
                  (remove_property_map "red" ps1))
        else ps1).
Proof.
  intros Hwf. cbv zeta. unfold read_las_point_set, after_reading.
  destruct (add_property_map_spec "echo" point_set Hwf)
    as (c1 & ps1 & E1 & Hwf1 & Hs1 & He1 & Ho1).
  destruct (add_property_map_spec "red" ps1 Hwf1)
    as (c2 & ps2 & E2 & Hwf2 & Hs2 & Hr2 & Ho2).
  destruct (add_property_map_spec "green" ps2 Hwf2)
    as (c3 & ps3 & E3 & Hwf3 & Hs3 & Hg3 & Ho3).
  destruct (add_property_map_spec "blue" ps3 Hwf3)
    as (c4 & ps4 & E4 & Hwf4 & Hs4 & Hb4 & Ho4).
  rewrite E1. cbv beta iota zeta. cbn [snd]. rewrite E2. cbv beta iota zeta.
  cbn [snd]. rewrite E3. cbv beta iota zeta. cbn [snd].
  rewrite E4. cbv beta iota zeta. cbn [snd].
  assert (H4 : channels ps4 (channel_before "echo" point_set)
                 (channel_before "red" point_set)
                 (channel_before "green" point_set)
                 (channel_before "blue" point_set)).
  { split; [exact Hwf4 |]. repeat split.
    - rewrite (channel_other "echo" ps3 ps4), (channel_other "echo" ps2 ps3),
        (channel_other "echo" ps1 ps2); auto.
    - rewrite (channel_other "red" ps3 ps4), (channel_other "red" ps2 ps3),
        Hr2; auto.
      f_equal. apply (channel_before_other "echo"); auto.
    - rewrite (channel_other "green" ps3 ps4), Hg3; auto.
      f_equal.
      rewrite (channel_before_other "red" "green" ps1 ps2); auto.
      apply (channel_before_other "echo"); auto.
    - rewrite Hb4. f_equal.
      rewrite (channel_before_other "green" "blue" ps2 ps3); auto.
      rewrite (channel_before_other "red" "blue" ps1 ps2); auto.
      apply (channel_before_other "echo"); auto. }
  apply (read_stream_channels stream) in H4.
  set (echo := channel_before "echo" point_set ++ map echo_of stream) in *.
  set (red := channel_before "red" point_set ++ map red_of stream) in *.
  set (green := channel_before "green" point_set ++ map green_of stream) in *.
  set (blue := channel_before "blue" point_set ++ map blue_of stream) in *.
  set (ps5 := foldl _ ps4 stream) in *.
  split; [exact H4 |].
  pose proof (scan_spec ps5 _ _ _ _ H4 (size ps5) 0%nat true true) as Hscan.
  destruct H4 as (Hwf5 & He & Hr & Hg & Hb).
  assert (Fe : forallb (zero_at echo) (seq 0 (size ps5)) = all_zero echo).
  { rewrite <- (channel_length _ _ _ Hwf5 He). apply forallb_zero_at. }
  assert (Fc : forallb (fun i => zero_at red i && zero_at green i
                                 && zero_at blue i) (seq 0 (size ps5))
               = all_zero red && all_zero green && all_zero blue).
  { rewrite !forallb_andb.
    rewrite <- (forallb_zero_at red), <- (forallb_zero_at green),
      <- (forallb_zero_at blue).
    now rewrite (channel_length _ _ _ Hwf5 Hr),
      (channel_length _ _ _ Hwf5 Hg), (channel_length _ _ _ Hwf5 Hb). }
  rewrite Fe, Fc in Hscan. simpl in Hscan.
  rewrite Hscan. reflexivity.
Qed.

Lemma after_reading_points (stream : list Las_point) (ps : Point_set_3) :
  m_points (after_reading stream ps) = m_points ps ++ map point_of stream.
Proof.
  unfold after_reading. rewrite read_stream_points.
  now rewrite !add_property_map_points.
Qed.

Lemma after_reading_other (name : string) (stream : list Las_point)
    (ps : Point_set_3) :
  ~ las_channel name ->
  m_base (after_reading stream ps) !! name
  = padded (length stream) <$> m_base ps !! name.
Proof.
  intros Hne. unfold after_reading.
  rewrite (read_stream_other name stream Hne).
  unfold las_channel in Hne.
  rewrite !add_property_map_other by (intros ->; tauto). reflexivity.
Qed.

(** The function written with [after_reading], for any point set. *)
Lemma read_las_point_set_unfold (stream : list Las_point)
    (point_set : Point_set_3) :
  exists remove_echo remove_colors : bool,
    (read_las_point_set stream point_set).2
    = let ps := after_reading stream point_set in
      let ps1 := if remove_echo then remove_property_map "echo" ps
                 else ps in
      if remove_colors
      then remove_property_map "blue"
             (remove_property_map "green" (remove_property_map "red" ps1))
      else ps1.
Proof.
  unfold read_las_point_set, after_reading.
  pose proof (add_property_map_name "echo" 0 point_set) as N1.
  destruct (add_property_map "echo" 0 point_set) as [[n1 b1] ps1].
  simpl in N1. subst n1. cbn [snd].
  pose proof (add_property_map_name "red" 0 ps1) as N2.
  destruct (add_property_map "red" 0 ps1) as [[n2 b2] ps2].
  simpl in N2. subst n2. cbn [snd].
  pose proof (add_property_map_name "green" 0 ps2) as N3.
  destruct (add_property_map "green" 0 ps2) as [[n3 b3] ps3].
  simpl in N3. subst n3. cbn [snd].
  pose proof (add_property_map_name "blue" 0 ps3) as N4.
  destruct (add_property_map "blue" 0 ps3) as [[n4 b4] ps4].
  simpl in N4. subst n4. cbn [snd].
  destruct (scan _ _ _ _ _ _ _ _ _) as [remove_echo remove_colors].
  exists remove_echo, remove_colors. reflexivity.
Qed.

(** X18: the points of the reader are added after the points of the set,
    in the order they are read. *)
Theorem points_after_reading (stream : list Las_point)
    (point_set : Point_set_3) :
  m_points (read_las_point_set stream point_set).2
  = m_points point_set ++ map point_of stream.
Proof.
  destruct (read_las_point_set_unfold stream point_set)
    as (re & rc & ->). cbv zeta.
  destruct re, rc; cbn [remove_property_map m_points];
    apply after_reading_points.
Qed.

(** X20: a channel of another name is kept, with its default value for
    every point read. *)
Theorem other_channels_after_reading (name : string)
    (stream : list Las_point) (point_set : Point_set_3) :
  ~ las_channel name ->
  m_base (read_las_point_set stream point_set).2 !! name
  = padded (length stream) <$> m_base point_set !! name.
Proof.
  intros Hne.
  destruct (read_las_point_set_unfold stream point_set)
    as (re & rc & ->). cbv zeta.
  rewrite <- (after_reading_other name stream point_set Hne).
  unfold las_channel in Hne.
  destruct re, rc; cbn [remove_property_map m_base];
    rewrite ?lookup_delete_ne by (intros <-; tauto); reflexivity.
Qed.

Lemma well_formed_remove (map : string) (ps : Point_set_3) :
  well_formed ps -> well_formed (remove_property_map map ps).
Proof.
  intros Hwf name a. unfold remove_property_map, size. simpl.
  rewrite lookup_delete. case_decide; [discriminate | apply Hwf].
Qed.

(** X19: the function keeps one value per point in every channel. *)
Theorem well_formed_after_reading (stream : list Las_point)
    (point_set : Point_set_3) :
  well_formed point_set ->
  well_formed (read_las_point_set stream point_set).2.
Proof.
  intros Hwf.
  destruct (read_las_point_set_result stream point_set Hwf)
    as [(Hwf5 & _) ->]. cbn [snd]. cbv zeta.
  repeat match goal with
         | |- context [if ?b then _ else _] => destruct b
         end;
    repeat apply well_formed_remove; exact Hwf5.
Qed.

Lemma all_zero_spec (l : list Z) :
  all_zero l = true <-> Forall (fun v => v = 0) l.
Proof.
  unfold all_zero. induction l as [| a l IH]; simpl.
  - split; [constructor | reflexivity].
  - rewrite andb_true_iff, IH, Z.eqb_eq. split.
    + intros [-> H]. now constructor.
    + intros H. inversion H; subst. now split.
Qed.

Lemma all_zero_replicate (l : list Z) :
  all_zero l = true -> l = replicate (length l) 0.
Proof.
  rewrite all_zero_spec. induction 1 as [| a l -> _ IH]; simpl;
    [reflexivity | now rewrite <- IH].
Qed.

Lemma all_zero_app (l k : list Z) :
  all_zero (l ++ k) = all_zero l && all_zero k.
Proof. unfold all_zero. apply forallb_app. Qed.

(** A colour component of 16 bits is stored as [0] exactly when it is
    below 256. *)
Lemma high_byte_zero (c : Z) :
  0 <= c < 65536 -> (to_unsigned_char (Z.shiftr c 8) = 0 <-> c < 256).
Proof.
  intros Hc. unfold to_unsigned_char.
  rewrite Z.shiftr_div_pow2 by lia. change (2 ^ 8) with 256.
  assert (H : 0 <= c / 256 < 256)
    by (split; [apply Z.div_pos; lia | apply Z.div_lt_upper_bound; lia]).
  rewrite Z.mod_small by exact H. split.
  - intros E. destruct (Z_lt_le_dec c 256) as [? | Hge]; [assumption |].
    assert (1 <= c / 256) by (apply Z.div_le_lower_bound; lia). lia.
  - intros Hlt. now apply Z.div_small.
Qed.

Lemma no_colors_iff (stream : list Las_point) :
  Forall color_16_bit stream ->
  all_zero (map red_of stream) && all_zero (map green_of stream)
  && all_zero (map blue_of stream) = true
  <-> Forall color_in_low_byte stream.
Proof.
  intros H16. rewrite !andb_true_iff, !all_zero_spec.
  induction H16 as [| p stream (Hr & Hg & Hb) _ IH]; simpl.
  - split; [constructor | repeat split; constructor].
  - split.
    + intros [[Hred Hgreen] Hblue].
      inversion Hred; subst. inversion Hgreen; subst.
      inversion Hblue; subst.
      constructor; [| apply IH; repeat split; assumption].
      unfold color_in_low_byte.
      repeat split; apply high_byte_zero; assumption.
    + intros H. inversion H as [| ? ? (Lr & Lg & Lb) Hrest]; subst.
      apply IH in Hrest as [[Hred Hgreen] Hblue].
      repeat split; constructor; try assumption;
        apply high_byte_zero; assumption.
Qed.

(** X21: read into an empty set, a file of 16-bit colours keeps its three
    colour channels exactly when some component of some point is 256 or
    more: colours written in the low byte only are read as black and
    dropped. *)
Theorem colors_in_low_byte_are_dropped (stream : list Las_point) :
  Forall color_16_bit stream ->
  let out := (read_las_point_set stream empty_point_set).2 in
  (Forall color_in_low_byte stream ->
     channel "red" out = None /\ channel "green" out = None
     /\ channel "blue" out = None)
  /\ (~ Forall color_in_low_byte stream ->
        channel "red" out
        = Some (map (fun p => GetRed (GetColor p) / 256) stream)
        /\ channel "green" out
           = Some (map (fun p => GetGreen (GetColor p) / 256) stream)
        /\ channel "blue" out
           = Some (map (fun p => GetBlue (GetColor p) / 256) stream)).
Proof.
  intros H16. cbv zeta.
  assert (Hwf : well_formed empty_point_set).
  { intros name a H. simpl in H. now rewrite lookup_empty in H. }
  destruct (read_las_point_set_result stream empty_point_set Hwf)
    as [(_ & He & Hr & Hg & Hb) ->].
  cbn [snd]. cbv zeta.
  change (channel_before "red" empty_point_set) with (@nil Z) in *.
  change (channel_before "green" empty_point_set) with (@nil Z) in *.
  change (channel_before "blue" empty_point_set) with (@nil Z) in *.
  rewrite !app_nil_l in *.
  pose proof (no_colors_iff stream H16) as Hiff.
  destruct (all_zero (map red_of stream) && all_zero (map green_of stream)
            && all_zero (map blue_of stream)).
  - split; [| intros Hn; exfalso; now apply Hn, Hiff].
    intros _.
    rewrite !channel_remove.
    repeat first [ rewrite decide_False by discriminate
                 | rewrite decide_True by reflexivity ].
    repeat split; reflexivity.
  - split; [intros Hlow; apply Hiff in Hlow; discriminate |].
    intros _.
    assert (Hmap : forall (f : Las_point -> Z) (get : Color -> Z),
              (forall p, f p = to_unsigned_char (Z.shiftr (get (GetColor p)) 8)) ->
              Forall (fun p => 0 <= get (GetColor p) < 65536) stream ->
              map f stream = map (fun p => get (GetColor p) / 256) stream).
    { intros f get Hf Hall. apply map_ext_Forall.
      eapply Forall_impl; [exact Hall |]. intros p Hp. cbv beta in Hp |- *.
      rewrite Hf. unfold to_unsigned_char.
      rewrite Z.shiftr_div_pow2 by lia. change (2 ^ 8) with 256.
      apply Z.mod_small.
      split; [apply Z.div_pos; lia | apply Z.div_lt_upper_bound; lia]. }
    destruct (all_zero _);
      rewrite ?channel_remove, ?decide_False by discriminate;
      rewrite Hr, Hg, Hb;
      (split; [| split]); f_equal; apply Hmap;
        try (intros; reflexivity);
        (eapply Forall_impl; [exact H16 |]; intros p (? & ? & ?); assumption).
Qed.

Lemma channel_before_channel (name : string) (ps : Point_set_3) :
  channel_before name ps
  = match channel name ps with
    | Some l => l
    | None => replicate (size ps) 0
    end.
Proof.
  unfold channel_before, channel. now destruct (m_base ps !! name).
Qed.

(** The four channels of the result, and its number of points. *)
Lemma las_channels_of_result (stream : list Las_point)
    (point_set : Point_set_3) :
  well_formed point_set ->
  let out := (read_las_point_set stream point_set).2 in
  let echo := channel_before "echo" point_set ++ map echo_of stream in
  let red := channel_before "red" point_set ++ map red_of stream in
  let green := channel_before "green" point_set ++ map green_of stream in
  let blue := channel_before "blue" point_set ++ map blue_of stream in
  let no_colors := all_zero red && all_zero green && all_zero blue in
  well_formed out
  /\ (size out = length echo /\ size out = length red
      /\ size out = length green /\ size out = length blue)
  /\ channel "echo" out = (if all_zero echo then None else Some echo)
  /\ channel "red" out = (if no_colors then None else Some red)
  /\ channel "green" out = (if no_colors then None else Some green)
  /\ channel "blue" out = (if no_colors then None else Some blue).
Proof.
  intros Hwf. cbv zeta.
  destruct (read_las_point_set_result stream point_set Hwf)
    as [(Hwf5 & He & Hr & Hg & Hb) ->]. cbn [snd]. cbv zeta.
  pose proof (channel_length _ _ _ Hwf5 He) as Le.
  pose proof (channel_length _ _ _ Hwf5 Hr) as Lr.
  pose proof (channel_length _ _ _ Hwf5 Hg) as Lg.
  pose proof (channel_length _ _ _ Hwf5 Hb) as Lb.
  set (ps := after_reading stream point_set) in *.
  split; [| split].
  - repeat match goal with
           | |- context [if ?b then _ else _] => destruct b
           end;
      repeat apply well_formed_remove; exact Hwf5.
  - assert (Hsize : forall (b1 b2 : bool),
              size (if b2
                    then remove_property_map "blue"
                           (remove_property_map "green"
                              (remove_property_map "red"
                                 (if b1 then remove_property_map "echo" ps
                                  else ps)))
                    else if b1 then remove_property_map "echo" ps else ps)
              = size ps) by (intros [] []; reflexivity).
    rewrite Hsize. repeat split; congruence.
  - destruct (all_zero (channel_before "echo" point_set ++ _)),
      (all_zero _ && all_zero _ && all_zero _);
      repeat first [ rewrite channel_remove
                   | rewrite decide_False by discriminate
                   | rewrite decide_True by reflexivity ];
      auto.
Qed.

(** Whether the first of two calls kept a channel or dropped it, the
    second call finds the same values in it. *)
Lemma channel_before_result (stream : list Las_point)
    (point_set : Point_set_3) :
  well_formed point_set ->
  let out := (read_las_point_set stream point_set).2 in
  channel_before "echo" out
  = channel_before "echo" point_set ++ map echo_of stream
  /\ channel_before "red" out
     = channel_before "red" point_set ++ map red_of stream
  /\ channel_before "green" out
     = channel_before "green" point_set ++ map green_of stream
  /\ channel_before "blue" out
     = channel_before "blue" point_set ++ map blue_of stream.
Proof.
  intros Hwf. cbv zeta.
  destruct (las_channels_of_result stream point_set Hwf)
    as (_ & (Le & Lr & Lg & Lb) & He & Hr & Hg & Hb).
  set (out := (read_las_point_set stream point_set).2) in *.
  rewrite (channel_before_channel "echo" out),
    (channel_before_channel "red" out),
    (channel_before_channel "green" out),
    (channel_before_channel "blue" out), He, Hr, Hg, Hb.
  split.
  { destruct (all_zero _) eqn:E; [| reflexivity].
    rewrite Le. symmetry. now apply all_zero_replicate. }
  destruct (all_zero (channel_before "red" point_set ++ _)
            && all_zero _ && all_zero _) eqn:E; [| auto].
  apply andb_true_iff in E as [E Eb]. apply andb_true_iff in E as [Er Eg].
  split; [| split].
  - rewrite Lr. symmetry. now apply all_zero_replicate.
  - rewrite Lg. symmetry. now apply all_zero_replicate.
  - rewrite Lb. symmetry. now apply all_zero_replicate.
Qed.

(** X22: reading a file in two parts gives the points and the values of
    every channel that reading it in one call gives. *)
Theorem reading_in_two_parts (s1 s2 : list Las_point)
    (point_set : Point_set_3) :
  well_formed point_set ->
  let whole := (read_las_point_set (s1 ++ s2) point_set).2 in
  let parts :=
    (read_las_point_set s2 (read_las_point_set s1 point_set).2).2 in
  m_points parts = m_points whole
  /\ forall name, channel name parts = channel name whole.
Proof.
  intros Hwf. cbv zeta. split.
  - destruct (read_las_point_set_unfold (s1 ++ s2) point_set)
      as (re & rc & ->).
    destruct (read_las_point_set_unfold s1 point_set) as (re1 & rc1 & E1).
    destruct (read_las_point_set_unfold s2 (read_las_point_set s1 point_set).2)
      as (re2 & rc2 & ->).
    cbv zeta.
    assert (P1 : m_points (read_las_point_set s1 point_set).2
                 = m_points point_set ++ map point_of s1).
    { rewrite E1. cbv zeta.
      destruct re1, rc1; cbn [remove_property_map m_points];
        apply after_reading_points. }
    transitivity (m_points (after_reading s2
                              (read_las_point_set s1 point_set).2)).
    { now destruct re2, rc2. }
    transitivity (m_points (after_reading (s1 ++ s2) point_set)).
    { rewrite !after_reading_points, P1, map_app, app_assoc. reflexivity. }
    now destruct re, rc.
  - intros name.
    destruct (las_channels_of_result s1 point_set Hwf) as (Hwf1 & _).
    destruct (channel_before_result s1 point_set Hwf)
      as (Be & Br & Bg & Bb).
    destruct (las_channels_of_result s2 _ Hwf1)
      as (_ & _ & He2 & Hr2 & Hg2 & Hb2).
    destruct (las_channels_of_result (s1 ++ s2) point_set Hwf)
      as (_ & _ & He & Hr & Hg & Hb).
    rewrite Be, Br, Bg, Bb in *.
    rewrite !map_app, !app_assoc in *.
    destruct (decide (las_channel name)) as [[-> | [-> | [-> | ->]]] | Hne];
      [congruence .. |].
    unfold channel.
    destruct (read_las_point_set_unfold (s1 ++ s2) point_set)
      as (re & rc & ->).
    destruct (read_las_point_set_unfold s1 point_set) as (re1 & rc1 & E1).
    destruct (read_las_point_set_unfold s2 (read_las_point_set s1 point_set).2)
      as (re2 & rc2 & ->).
    cbv zeta.
    assert (O1 : m_base (read_las_point_set s1 point_set).2 !! name
                 = padded (length s1) <$> m_base point_set !! name).
    { rewrite E1. cbv zeta.
      rewrite <- (after_reading_other name s1 point_set Hne).
      unfold las_channel in Hne.
      destruct re1, rc1; cbn [remove_property_map m_base];
        rewrite ?lookup_delete_ne by (intros <-; tauto); reflexivity. }
    assert (Hdel : forall (b1 b2 : bool) ps,
              m_base (if b2
                      then remove_property_map "blue"
                             (remove_property_map "green"
                                (remove_property_map "red"
                                   (if b1 then remove_property_map "echo" ps
                                    else ps)))
                      else if b1 then remove_property_map "echo" ps else ps)
                !! name = m_base ps !! name).
    { unfold las_channel in Hne.
      intros [] [] ps; cbn [remove_property_map m_base];
        rewrite ?lookup_delete_ne by (intros <-; tauto); reflexivity. }
    rewrite !Hdel, !after_reading_other, O1 by exact Hne.
    destruct (m_base point_set !! name) as [a |]; [| reflexivity].
    change (Some (array_values (padded (length s2) (padded (length s1) a)))
            = Some (array_values (padded (length (s1 ++ s2)) a))).
    now rewrite padded_padded, length_app.
Qed.

(** ** The definitions evaluated on two points *)

Definition las_point (echo red green blue : Z) : Las_point :=
  mkLasPoint 0 0 0 echo (mkColor red green blue).

(** A red point and a black point, both without return number. *)
Definition demo_stream : list Las_point :=
  [las_point 0 256 0 0; las_point 0 0 0 0].

Example demo_read :
  let out := snd (read_las_point_set demo_stream empty_point_set) in
  channel "echo" out = None
  /\ channel "red" out = Some [1; 0]
  /\ channel "green" out = Some [0; 0]
  /\ channel "blue" out = Some [0; 0]
  /\ size out = 2%nat.
Proof. repeat split; reflexivity. Qed.

Example demo_read_nothing :
  snd (read_las_point_set [] empty_point_set) = empty_point_set.
Proof. reflexivity. Qed.

Lemma empty_point_set_well_formed : well_formed empty_point_set.
Proof. intros name a H. simpl in H. now rewrite lookup_empty in H. Qed.

Lemma channels_after_reading_witness :
  let out := snd (read_las_point_set demo_stream empty_point_set) in
  channel "echo" out = None
  /\ channel "red" out = Some [1; 0]
  /\ channel "green" out = Some [0; 0]
  /\ channel "blue" out = Some [0; 0].
Proof.
  exact (channels_after_reading demo_stream empty_point_set
           empty_point_set_well_formed).
Defined.

(** C8, as the specification words it, fails: after reading the two points
    of [demo_stream] the green channel holds only zeros and is kept. *)
Lemma uniformly_zero_channels_dropped_fails :
  ~ uniformly_zero_channels_dropped.
Proof.
  intros H. destruct (H demo_stream) as (_ & _ & Hgreen & _).
  discriminate Hgreen.
Qed.

(** ** The further properties on the two points *)

(** A set without points that has a channel of another name. *)
Definition intensity_set : Point_set_3 :=
  mkSet [] {["intensity" := mkArray 7 []]}.

Lemma well_formed_after_reading_witness :
  well_formed (read_las_point_set demo_stream empty_point_set).2.
Proof.
  exact (well_formed_after_reading demo_stream empty_point_set
           empty_point_set_well_formed).
Defined.

Lemma other_channels_after_reading_witness :
  m_base (read_las_point_set demo_stream intensity_set).2 !! "intensity"
  = Some (mkArray 7 [7; 7]).
Proof.
  refine (other_channels_after_reading "intensity" demo_stream
            intensity_set _).
  intros [H | [H | [H | H]]]; discriminate H.
Defined.

Lemma demo_stream_16_bit : Forall color_16_bit demo_stream.
Proof. repeat constructor; simpl; lia. Qed.

Lemma colors_in_low_byte_are_dropped_witness :
  let out := (read_las_point_set demo_stream empty_point_set).2 in
  (Forall color_in_low_byte demo_stream ->
     channel "red" out = None /\ channel "green" out = None
     /\ channel "blue" out = None)
  /\ (~ Forall color_in_low_byte demo_stream ->
        channel "red" out
        = Some (map (fun p => GetRed (GetColor p) / 256) demo_stream)
        /\ channel "green" out
           = Some (map (fun p => GetGreen (GetColor p) / 256) demo_stream)
        /\ channel "blue" out
           = Some (map (fun p => GetBlue (GetColor p) / 256) demo_stream)).
Proof.
  exact (colors_in_low_byte_are_dropped demo_stream demo_stream_16_bit).
Defined.

Lemma reading_in_two_parts_witness :
  let whole := (read_las_point_set demo_stream empty_point_set).2 in
  let parts :=
    (read_las_point_set [las_point 0 0 0 0]
       (read_las_point_set [las_point 0 256 0 0] empty_point_set).2).2 in
  m_points parts = m_points whole
  /\ forall name, channel name parts = channel name whole.
Proof.
  exact (reading_in_two_parts [las_point 0 256 0 0] [las_point 0 0 0 0]
           empty_point_set empty_point_set_well_formed).
Defined.

End ReadLas.
